(** * Red-black tree linkage core (RBTree.cc): a shallow embedding

    The intrusive red-black tree of the repository is modelled over an
    explicit store: node addresses are machine words, a node is a record of
    its three linkage words, and every function of RBTree.cc is a program of
    a small state-and-failure monad.  Dereferencing an address that holds no
    node (NULL included) is a failure. *)

From Stdlib Require Import ZArith Lia List.
From Stdlib Require Import Strings.Byte.
From stdpp Require Import base option list gmap.

Local Open Scope Z_scope.

(** ** Machine words and the packed parent-and-color word *)

Module Word.

(** [unsigned long] on the LP64 targets the repository builds for. *)
Definition width : Z := 64.
Definition modulus : Z := 2 ^ width.

(** Conversion of a C [int] to [unsigned long]. *)
Definition of_int (x : Z) : Z := x mod modulus.

Definition in_range (x : Z) : Prop := 0 <= x < modulus.

(** A node reference that leaves the two low bits free. *)
Definition aligned4 (p : Z) : Prop := in_range p /\ p mod 4 = 0.

End Word.

Definition RB_RED : Z := 0.
Definition RB_BLACK : Z := 1.

(** [#define __rb_parent(pc)]: the word [pc & ~3], cast to a node reference. *)
Definition __rb_parent (pc : Z) : Z := Z.land pc (Word.of_int (Z.lnot 3)).

(** [#define __rb_color(pc) ((pc) & 1)] *)
Definition __rb_color (pc : Z) : Z := Z.land pc 1.

(** [#define __rb_is_black(pc) __rb_color(pc)], read as a C truth value. *)
Definition __rb_is_black (pc : Z) : bool := negb (__rb_color pc =? 0).

(** [#define __rb_is_red(pc) (!__rb_color(pc))] *)
Definition __rb_is_red (pc : Z) : bool := (__rb_color pc =? 0).

(** The word written by [rb_set_parent_color]: [(unsigned long)p | color]. *)
Definition pc_of_parent_color (p color : Z) : Z := Z.lor p color.

(** The word written by [rb_set_parent]: [rb_color(rb) | (unsigned long)p]. *)
Definition pc_set_parent (pc p : Z) : Z := Z.lor (__rb_color pc) p.

(** The word written by [rb_set_black]: [pc |= RB_BLACK]. *)
Definition pc_set_black (pc : Z) : Z := Z.lor pc RB_BLACK.

(** ** Nodes, the store, and the monad of tree programs *)

(** The three linkage words of an [RBNode] (declared in RBTree.h). *)
Record RBNode : Type := mkRBNode {
  __rb_parent_color : Z;
  rb_right : Z;
  rb_left : Z
}.

(** The memory the tree functions run in: the nodes by address and the one
    field [rb_node] of the [RBTree] object they are called on. *)
Record store : Type := mkStore {
  nodes : gmap Z RBNode;
  rb_node : Z
}.

Definition NULL : Z := 0.

(** The node an address holds; NULL holds none. *)
Definition cell (s : store) (p : Z) : option RBNode :=
  if p =? NULL then None else nodes s !! p.

Definition M (A : Type) : Type := store -> option (A * store).

Definition ret {A : Type} (a : A) : M A := fun s => Some (a, s).

Definition bind {A B : Type} (m : M A) (k : A -> M B) : M B :=
  fun s => match m s with
           | Some (a, s') => k a s'
           | None => None
           end.

Definition fault {A : Type} : M A := fun _ => None.

Declare Scope rb_scope.
Delimit Scope rb_scope with rb.
Notation "'do' x <- m ; k" := (bind m (fun x => k))
  (at level 10, x name, m at level 100, k at level 200) : rb_scope.
Notation "'do' ' ( x , y ) <- m ; k" := (bind m (fun xy => let '(x, y) := xy in k))
  (at level 10, x name, y name, m at level 100, k at level 200) : rb_scope.
Notation "m1 ;; m2" := (bind m1 (fun _ => m2))
  (at level 100, m2 at level 200, right associativity) : rb_scope.
Local Open Scope rb_scope.

Definition load (p : Z) : M RBNode :=
  fun s => match cell s p with
           | Some n => Some (n, s)
           | None => None
           end.

Definition store_node (p : Z) (n : RBNode) : M unit :=
  fun s => match cell s p with
           | Some _ => Some (tt, mkStore (<[p := n]> (nodes s)) (rb_node s))
           | None => None
           end.

Definition get_root : M Z := fun s => Some (rb_node s, s).
Definition set_root (p : Z) : M unit := fun s => Some (tt, mkStore (nodes s) p).

Definition get_parent_color (p : Z) : M Z := do n <- load p; ret (__rb_parent_color n).
Definition get_right (p : Z) : M Z := do n <- load p; ret (rb_right n).
Definition get_left (p : Z) : M Z := do n <- load p; ret (rb_left n).

Definition set_parent_color (p v : Z) : M unit :=
  do n <- load p; store_node p (mkRBNode v (rb_right n) (rb_left n)).
Definition set_right (p v : Z) : M unit :=
  do n <- load p; store_node p (mkRBNode (__rb_parent_color n) v (rb_left n)).
Definition set_left (p v : Z) : M unit :=
  do n <- load p; store_node p (mkRBNode (__rb_parent_color n) (rb_right n) v).

(** Modelled from the spec: the accessor [RBNode::parent()] of RBTree.h, which
    is not part of the sources at hand; "the trivial accessors that mask
    color bits out of the parent pointer". *)
Definition RBNode_parent (p : Z) : M Z :=
  do pc <- get_parent_color p; ret (__rb_parent pc).

(** ** The functions of RBTree.cc *)

Definition rb_color (rb : Z) : M Z :=
  do pc <- get_parent_color rb; ret (__rb_color pc).
Definition rb_is_red (rb : Z) : M bool :=
  do pc <- get_parent_color rb; ret (__rb_is_red pc).
Definition rb_is_black (rb : Z) : M bool :=
  do pc <- get_parent_color rb; ret (__rb_is_black pc).

Definition rb_set_parent (rb p : Z) : M unit :=
  do pc <- get_parent_color rb; set_parent_color rb (pc_set_parent pc p).

Definition rb_set_parent_color (rb p color : Z) : M unit :=
  set_parent_color rb (pc_of_parent_color p color).

Definition __rb_change_child (old n parent : Z) : M unit :=
  if negb (parent =? NULL) then
    do l <- get_left parent;
    if l =? old then set_left parent n else set_right parent n
  else set_root n.

Definition rb_set_black (rb : Z) : M unit :=
  do pc <- get_parent_color rb; set_parent_color rb (pc_set_black pc).

Definition rb_red_parent (red : Z) : M Z := get_parent_color red.

Definition __rb_rotate_set_parents (old n color : Z) : M unit :=
  do parent <- RBNode_parent old;
  do pc <- get_parent_color old;
  set_parent_color n pc;;
  rb_set_parent_color old n color;;
  __rb_change_child old n parent.

(** The [do ... while (tmp)] walk of [__rb_erase] down the left spine. *)
Fixpoint leftmost_walk (fuel : nat) (successor tmp : Z) : M (Z * Z) :=
  match fuel with
  | O => fault
  | S fuel' =>
      let parent := successor in
      let successor := tmp in
      do tmp <- get_left tmp;
      if negb (tmp =? NULL) then leftmost_walk fuel' successor tmp
      else ret (parent, successor)
  end.

Definition __rb_erase (fuel : nat) (node : Z) : M Z :=
  do child <- get_right node;
  do tmp <- get_left node;
  if tmp =? NULL then
    do pc <- get_parent_color node;
    let parent := __rb_parent pc in
    __rb_change_child node child parent;;
    if negb (child =? NULL) then
      set_parent_color child pc;;
      ret NULL
    else
      ret (if __rb_is_black pc then parent else NULL)
  else if child =? NULL then
    do pc <- get_parent_color node;
    set_parent_color tmp pc;;
    let parent := __rb_parent pc in
    __rb_change_child node tmp parent;;
    ret NULL
  else
    let successor := child in
    do tmp <- get_left child;
    do r <- (if tmp =? NULL then
               let parent := successor in
               do child2 <- get_right successor;
               ret (parent, successor, child2)
             else
               do ' (parent, successor) <- leftmost_walk fuel successor tmp;
               do child2 <- get_right successor;
               set_left parent child2;;
               set_right successor child;;
               rb_set_parent child successor;;
               ret (parent, successor, child2));
    let '(parent, successor, child2) := r in
    do tmp <- get_left node;
    set_left successor tmp;;
    rb_set_parent tmp successor;;
    do pc <- get_parent_color node;
    let tmp := __rb_parent pc in
    __rb_change_child node successor tmp;;
    if negb (child2 =? NULL) then
      set_parent_color successor pc;;
      rb_set_parent_color child2 parent RB_BLACK;;
      ret NULL
    else
      do pc2 <- get_parent_color successor;
      set_parent_color successor pc;;
      ret (if __rb_is_black pc2 then parent else NULL).

(** One pass through the body of the [while (true)] loop of [__rb_insert]:
    [None] is [break], [Some (node, parent)] is [continue] with the loop
    variables it leaves. *)
Definition __rb_insert_body (node parent : Z) : M (option (Z * Z)) :=
  if parent =? NULL then
    rb_set_parent_color node NULL RB_BLACK;;
    ret None
  else
    do b <- rb_is_black parent;
    if b then ret None
    else
      do gparent <- rb_red_parent parent;
      do tmp <- get_right gparent;
      if negb (parent =? tmp) then
        do red <- (if negb (tmp =? NULL) then rb_is_red tmp else ret false);
        if red then
          rb_set_parent_color tmp gparent RB_BLACK;;
          rb_set_parent_color parent gparent RB_BLACK;;
          let node := gparent in
          do parent <- RBNode_parent node;
          rb_set_parent_color node parent RB_RED;;
          ret (Some (node, parent))
        else
          do tmp <- get_right parent;
          do ' (parent, tmp) <-
            (if node =? tmp then
               do tmp <- get_left node;
               set_right parent tmp;;
               set_left node parent;;
               (if negb (tmp =? NULL) then rb_set_parent_color tmp parent RB_BLACK
                else ret tt);;
               rb_set_parent_color parent node RB_RED;;
               let parent := node in
               do tmp <- get_right node;
               ret (parent, tmp)
             else ret (parent, tmp));
          set_left gparent tmp;;
          set_right parent gparent;;
          (if negb (tmp =? NULL) then rb_set_parent_color tmp gparent RB_BLACK
           else ret tt);;
          __rb_rotate_set_parents gparent parent RB_RED;;
          ret None
      else
        do tmp <- get_left gparent;
        do red <- (if negb (tmp =? NULL) then rb_is_red tmp else ret false);
        if red then
          rb_set_parent_color tmp gparent RB_BLACK;;
          rb_set_parent_color parent gparent RB_BLACK;;
          let node := gparent in
          do parent <- RBNode_parent node;
          rb_set_parent_color node parent RB_RED;;
          ret (Some (node, parent))
        else
          do tmp <- get_left parent;
          do ' (parent, tmp) <-
            (if node =? tmp then
               do tmp <- get_right node;
               set_left parent tmp;;
               set_right node parent;;
               (if negb (tmp =? NULL) then rb_set_parent_color tmp parent RB_BLACK
                else ret tt);;
               rb_set_parent_color parent node RB_RED;;
               let parent := node in
               do tmp <- get_left node;
               ret (parent, tmp)
             else ret (parent, tmp));
          set_right gparent tmp;;
          set_left parent gparent;;
          (if negb (tmp =? NULL) then rb_set_parent_color tmp gparent RB_BLACK
           else ret tt);;
          __rb_rotate_set_parents gparent parent RB_RED;;
          ret None.

Fixpoint __rb_insert_loop (fuel : nat) (node parent : Z) : M unit :=
  match fuel with
  | O => fault
  | S fuel' =>
      do r <- __rb_insert_body node parent;
      match r with
      | None => ret tt
      | Some (node', parent') => __rb_insert_loop fuel' node' parent'
      end
  end.

Definition __rb_insert (fuel : nat) (node : Z) : M unit :=
  do parent <- rb_red_parent node;
  __rb_insert_loop fuel node parent.

(** Case 4 on the left-hand side of [__rb_erase_color], entered from the
    Case 2 test with [tmp1] the outer child of [sibling], or from Case 3 with
    [tmp1] the former sibling. *)
Definition erase_color_left_tail (parent sibling tmp1 : Z) : M (option (Z * Z)) :=
  do tmp2 <- get_left sibling;
  set_right parent tmp2;;
  set_left sibling parent;;
  rb_set_parent_color tmp1 sibling RB_BLACK;;
  (if negb (tmp2 =? NULL) then rb_set_parent tmp2 parent else ret tt);;
  __rb_rotate_set_parents parent sibling RB_BLACK;;
  ret None.

Definition erase_color_right_tail (parent sibling tmp1 : Z) : M (option (Z * Z)) :=
  do tmp2 <- get_right sibling;
  set_left parent tmp2;;
  set_right sibling parent;;
  rb_set_parent_color tmp1 sibling RB_BLACK;;
  (if negb (tmp2 =? NULL) then rb_set_parent tmp2 parent else ret tt);;
  __rb_rotate_set_parents parent sibling RB_BLACK;;
  ret None.

(** The left-hand side of the loop body of [__rb_erase_color] from the line
    [tmp1 = sibling->rb_right] on, that is after Case 1: Cases 2, 3 and 4.
    [None] is [break], [Some (node, parent)] is [continue]. *)
Definition erase_color_left_rest (parent sibling : Z) : M (option (Z * Z)) :=
  do tmp1 <- get_right sibling;
  do outer_black <- (if tmp1 =? NULL then ret true else rb_is_black tmp1);
  if outer_black then
    do tmp2 <- get_left sibling;
    do inner_black <- (if tmp2 =? NULL then ret true else rb_is_black tmp2);
    if inner_black then
      rb_set_parent_color sibling parent RB_RED;;
      do pred <- rb_is_red parent;
      if pred then rb_set_black parent;; ret None
      else
        let node := parent in
        do parent <- RBNode_parent node;
        if negb (parent =? NULL) then ret (Some (node, parent))
        else ret None
    else
      do tmp1 <- get_right tmp2;
      set_left sibling tmp1;;
      set_right tmp2 sibling;;
      set_right parent tmp2;;
      (if negb (tmp1 =? NULL) then rb_set_parent_color tmp1 sibling RB_BLACK
       else ret tt);;
      let tmp1 := sibling in
      let sibling := tmp2 in
      erase_color_left_tail parent sibling tmp1
  else erase_color_left_tail parent sibling tmp1.

(** The mirror image, for a deficient right child. *)
Definition erase_color_right_rest (parent sibling : Z) : M (option (Z * Z)) :=
  do tmp1 <- get_left sibling;
  do outer_black <- (if tmp1 =? NULL then ret true else rb_is_black tmp1);
  if outer_black then
    do tmp2 <- get_right sibling;
    do inner_black <- (if tmp2 =? NULL then ret true else rb_is_black tmp2);
    if inner_black then
      rb_set_parent_color sibling parent RB_RED;;
      do pred <- rb_is_red parent;
      if pred then rb_set_black parent;; ret None
      else
        let node := parent in
        do parent <- RBNode_parent node;
        if negb (parent =? NULL) then ret (Some (node, parent))
        else ret None
    else
      do tmp1 <- get_left tmp2;
      set_right sibling tmp1;;
      set_left tmp2 sibling;;
      set_left parent tmp2;;
      (if negb (tmp1 =? NULL) then rb_set_parent_color tmp1 sibling RB_BLACK
       else ret tt);;
      let tmp1 := sibling in
      let sibling := tmp2 in
      erase_color_right_tail parent sibling tmp1
  else erase_color_right_tail parent sibling tmp1.

(** One pass through the body of the [while (true)] loop of
    [__rb_erase_color]: the test of the side, Case 1, then the rest. *)
Definition __rb_erase_color_body (node parent : Z) : M (option (Z * Z)) :=
  do sibling <- get_right parent;
  if negb (node =? sibling) then
    do red <- rb_is_red sibling;
    do sibling <-
      (if red then
         do tmp1 <- get_left sibling;
         set_right parent tmp1;;
         set_left sibling parent;;
         rb_set_parent_color tmp1 parent RB_BLACK;;
         __rb_rotate_set_parents parent sibling RB_RED;;
         ret tmp1
       else ret sibling);
    erase_color_left_rest parent sibling
  else
    do sibling <- get_left parent;
    do red <- rb_is_red sibling;
    do sibling <-
      (if red then
         do tmp1 <- get_right sibling;
         set_left parent tmp1;;
         set_right sibling parent;;
         rb_set_parent_color tmp1 parent RB_BLACK;;
         __rb_rotate_set_parents parent sibling RB_RED;;
         ret tmp1
       else ret sibling);
    erase_color_right_rest parent sibling.

Fixpoint __rb_erase_color_loop (fuel : nat) (node parent : Z) : M unit :=
  match fuel with
  | O => fault
  | S fuel' =>
      do r <- __rb_erase_color_body node parent;
      match r with
      | None => ret tt
      | Some (node', parent') => __rb_erase_color_loop fuel' node' parent'
      end
  end.

Definition __rb_erase_color (fuel : nat) (parent : Z) : M unit :=
  __rb_erase_color_loop fuel NULL parent.

(** [RBTree::insert_color] *)
Definition insert_color (fuel : nat) (node : Z) : M unit := __rb_insert fuel node.

(** [RBTree::erase] *)
Definition erase (fuel : nat) (node : Z) : M unit :=
  do rebalance <- __rb_erase fuel node;
  if negb (rebalance =? NULL) then __rb_erase_color fuel rebalance
  else ret tt.

(** [RBTree::replace]; the closing [*n = *victim] copies the three words
    that [victim] holds at that point. *)
Definition replace (victim n : Z) : M unit :=
  do parent <- RBNode_parent victim;
  __rb_change_child victim n parent;;
  do l <- get_left victim;
  (if negb (l =? NULL) then rb_set_parent l n else ret tt);;
  do r <- get_right victim;
  (if negb (r =? NULL) then rb_set_parent r n else ret tt);;
  do v <- load victim;
  store_node n v.

(** ** Linking a node, and the caller's side of an insertion *)

Inductive side : Type := Left | Right.

(** Modelled from the spec: [link_node] (the [rb_link_node] of RBTree.h, which
    is not part of the sources at hand).  It "sets new.left = absent,
    new.right = absent, sets new.parent = p and new.color = red, attaches new
    to p on the requested side (or installs new as root if p is absent)". *)
Definition link_node (new p : Z) (sd : side) : M unit :=
  set_left new NULL;;
  set_right new NULL;;
  rb_set_parent_color new p RB_RED;;
  if p =? NULL then set_root new
  else match sd with
       | Left => set_left p new
       | Right => set_right p new
       end.

(** Modelled from the spec: the descent that the caller performs to find
    "the future parent p and the side (left/right) where the new node will
    hang"; [key] reads the key of the payload a node is embedded in. *)
Fixpoint descend (fuel : nat) (key : Z -> Z) (k : Z) (parent cur : Z) (sd : side)
  : M (Z * side) :=
  match fuel with
  | O => fault
  | S fuel' =>
      if cur =? NULL then ret (parent, sd)
      else if k <? key cur then
        do l <- get_left cur; descend fuel' key k cur l Left
      else
        do r <- get_right cur; descend fuel' key k cur r Right
  end.

(** Modelled from the spec: one insertion as section 4.2 describes it (BST
    descent, [link_node], then [insert_fixup]). *)
Definition insert_key (fuel : nat) (key : Z -> Z) (new : Z) : M unit :=
  do root <- get_root;
  do ' (p, sd) <- descend fuel key (key new) NULL root Left;
  link_node new p sd;;
  insert_color fuel new.

Fixpoint insert_keys (fuel : nat) (key : Z -> Z) (news : list Z) : M unit :=
  match news with
  | [] => ret tt
  | n :: rest => insert_key fuel key n;; insert_keys fuel key rest
  end.

Module Scenario.

(** The payload with key [k] lives at address [16 * k]. *)
Definition addr (k : Z) : Z := 16 * k.
Definition key (a : Z) : Z := a / 16.

Definition blank : RBNode := mkRBNode 0 0 0.

Definition fresh (ks : list Z) : store :=
  mkStore (list_to_map (map (fun k => (addr k, blank)) ks)) NULL.

Definition run (ks : list Z) : option (unit * store) :=
  insert_keys 64 key (map addr ks) (fresh ks).

(** What a node looks like from outside: parent, color, left, right. *)
Definition view (s : store) (k : Z) : option (Z * Z * Z * Z) :=
  match cell s (addr k) with
  | Some n => Some (key (__rb_parent (__rb_parent_color n)),
                    __rb_color (__rb_parent_color n),
                    key (rb_left n), key (rb_right n))
  | None => None
  end.

Definition views (s : store) (ks : list Z) : list (option (Z * Z * Z * Z)) :=
  map (view s) ks.

End Scenario.

(** ** The tree a store holds *)

Inductive color : Type := Red | Black.

Definition color_bit (c : color) : Z :=
  match c with Red => RB_RED | Black => RB_BLACK end.

(** A binary tree of node addresses, each with its color. *)
Inductive tree : Type :=
| Leaf
| Node (c : color) (l : tree) (a : Z) (r : tree).

(** The reference by which a parent points at a subtree. *)
Definition ptr (t : tree) : Z :=
  match t with Leaf => NULL | Node _ _ a _ => a end.

Definition col (t : tree) : color :=
  match t with Leaf => Black | Node c _ _ _ => c end.

Fixpoint inorder (t : tree) : list Z :=
  match t with
  | Leaf => []
  | Node _ l a r => inorder l ++ a :: inorder r
  end.

(** [shape h par t]: every node of [t] is held by [h] with exactly the
    linkage words of its place in [t], below the parent reference [par]. *)
Fixpoint shape (h : gmap Z RBNode) (par : Z) (t : tree) : Prop :=
  match t with
  | Leaf => True
  | Node c l a r =>
      h !! a = Some (mkRBNode (pc_of_parent_color par (color_bit c)) (ptr r) (ptr l))
      /\ shape h a l /\ shape h a r
  end.

Definition node_addr (a : Z) : Prop := a <> NULL /\ Word.aligned4 a.

(** The store holds the tree [t] under its root field: distinct, non-null,
    aligned nodes, child and parent references that agree (invariant 4). *)
Definition tree_at (s : store) (t : tree) : Prop :=
  rb_node s = ptr t /\ shape (nodes s) NULL t
  /\ NoDup (inorder t) /\ Forall node_addr (inorder t).

(** *** The red-black invariants *)

Definition weight (c : color) : nat :=
  match c with Black => 1%nat | Red => 0%nat end.

(** Black nodes on the leftmost path down to an absent child. *)
Fixpoint bheight (t : tree) : nat :=
  match t with
  | Leaf => 0%nat
  | Node c l _ _ => (bheight l + weight c)%nat
  end.

(** Invariant 3: at every node both sides count the same number of black
    nodes, so that every path from the root to an absent child does. *)
Fixpoint balanced (t : tree) : Prop :=
  match t with
  | Leaf => True
  | Node _ l _ r => bheight l = bheight r /\ balanced l /\ balanced r
  end.

(** Invariant 2: no red node has a red child. *)
Fixpoint no_red_red (t : tree) : Prop :=
  match t with
  | Leaf => True
  | Node c l _ r =>
      (c = Red -> col l = Black /\ col r = Black) /\ no_red_red l /\ no_red_red r
  end.

Definition sub_ok (t : tree) : Prop := no_red_red t /\ balanced t.

(** Invariants 1 to 3 of a whole tree. *)
Definition red_black (t : tree) : Prop :=
  col t = Black /\ no_red_red t /\ balanced t.

(** The store holds a tree that satisfies the four invariants. *)
Definition rb_valid (s : store) : Prop :=
  exists t, tree_at s t /\ red_black t.

(** The in-order sequence of the nodes of the tree a store holds. *)
Definition in_order (s : store) (l : list Z) : Prop :=
  exists t, tree_at s t /\ inorder t = l.

(** *** Contexts: a tree with one subtree taken out *)

(** One step up from a hole: the node [a] above it, the node's color, and
    the subtree on its other side. *)
Inductive frame : Type :=
| FL (c : color) (a : Z) (r : tree)    (* the hole is the left child of [a] *)
| FR (c : color) (l : tree) (a : Z).   (* the hole is the right child of [a] *)

(** The path from the hole to the root, innermost frame first. *)
Definition ctx : Type := list frame.

Definition fcolor (f : frame) : color :=
  match f with FL c _ _ | FR c _ _ => c end.
Definition faddr (f : frame) : Z :=
  match f with FL _ a _ | FR _ _ a => a end.
Definition fsib (f : frame) : tree :=
  match f with FL _ _ r => r | FR _ l _ => l end.

Definition fill (f : frame) (t : tree) : tree :=
  match f with
  | FL c a r => Node c t a r
  | FR c l a => Node c l a t
  end.

Fixpoint plug (C : ctx) (t : tree) : tree :=
  match C with
  | [] => t
  | f :: up => plug up (fill f t)
  end.

(** The parent reference seen from the hole. *)
Definition cpar (par0 : Z) (C : ctx) : Z :=
  match C with [] => par0 | f :: _ => faddr f end.

(** The reference to the whole, given the reference in the hole. *)
Fixpoint ctop (C : ctx) (hole : Z) : Z :=
  match C with
  | [] => hole
  | f :: up => ctop up (faddr f)
  end.

Fixpoint cleft (C : ctx) : list Z :=
  match C with
  | [] => []
  | FL _ _ _ :: up => cleft up
  | FR _ l a :: up => cleft up ++ inorder l ++ [a]
  end.

Fixpoint cright (C : ctx) : list Z :=
  match C with
  | [] => []
  | FL _ a r :: up => a :: inorder r ++ cright up
  | FR _ _ _ :: up => cright up
  end.

Definition fcell (par hole : Z) (f : frame) : RBNode :=
  match f with
  | FL c _ r => mkRBNode (pc_of_parent_color par (color_bit c)) (ptr r) hole
  | FR c l _ => mkRBNode (pc_of_parent_color par (color_bit c)) hole (ptr l)
  end.

(** [cshape h par0 C hole]: the frames of [C] are held by [h], the innermost
    pointing at [hole], the outermost below [par0]. *)
Fixpoint cshape (h : gmap Z RBNode) (par0 : Z) (C : ctx) (hole : Z) : Prop :=
  match C with
  | [] => True
  | f :: up =>
      h !! faddr f = Some (fcell (cpar par0 up) hole f)
      /\ shape h (faddr f) (fsib f)
      /\ cshape h par0 up (faddr f)
  end.

(** * Trees, passes and invariants used by the proofs *)

(** ** Addresses, colors and disjointness *)

(** The addresses a context mentions: its frames and their subtrees. *)
Definition caddrs (C : ctx) : list Z := cleft C ++ cright C.

Definition is_black (c : color) : bool :=
  match c with Black => true | Red => false end.

Definition ldisj (l k : list Z) : Prop := forall x, x ∈ l -> x ∈ k -> False.

(** ** The insertion fixup on trees *)

Definition blacken (t : tree) : tree :=
  match t with Leaf => Leaf | Node _ l a r => Node Black l a r end.

Definition recolor (c : color) (f : frame) : frame :=
  match f with FL _ a r => FL c a r | FR _ l a => FR c l a end.

(** What one pass of a fixup loop leaves: a finished tree, or a subtree and
    the context to go on with. *)
Inductive pass : Type :=
| Done (t : tree)
| Again (C : ctx) (t : tree).

(** One pass of the body of [__rb_insert], read on the tree: the node is the
    root of [t], its ancestors are the frames of [C].  [None] where the body
    would leave the tree (a red root above the node). *)
Definition insert_pass (C : ctx) (t : tree) : option pass :=
  match t with
  | Leaf => None
  | Node cn l n r =>
      match C with
      | [] => Some (Done (Node Black l n r))
      | f :: up =>
          if is_black (fcolor f) then Some (Done (plug C t))
          else
            match up with
            | [] => None
            | FL cg g u :: up2 =>
                if negb (is_black (col u)) then
                  Some (Again up2 (Node Red (fill (recolor Black f) t) g (blacken u)))
                else
                  match f with
                  | FL _ p sp =>
                      Some (Done (plug up2
                        (Node cg t p (Node Red (blacken sp) g u))))
                  | FR _ sp p =>
                      Some (Done (plug up2
                        (Node cg (Node Red sp p (blacken l)) n
                                 (Node Red (blacken r) g u))))
                  end
            | FR cg u g :: up2 =>
                if negb (is_black (col u)) then
                  Some (Again up2 (Node Red (blacken u) g (fill (recolor Black f) t)))
                else
                  match f with
                  | FR _ sp p =>
                      Some (Done (plug up2
                        (Node cg (Node Red u g (blacken sp)) p t)))
                  | FL _ p sp =>
                      Some (Done (plug up2
                        (Node cg (Node Red u g (blacken l)) n
                                 (Node Red (blacken r) p sp))))
                  end
            end
      end
  end.

(** ** Runs and what they establish *)

(** The program returns, and its result and final store satisfy [Q]. *)
Definition runs_to {A : Type} (m : M A) (s : store) (Q : A -> store -> Prop) : Prop :=
  match m s with
  | Some (a, s') => Q a s'
  | None => False
  end.

(** The store holds the tree [t]; distinctness and alignment of the
    addresses are kept apart, as rotations do not change them. *)
Definition holds (s : store) (t : tree) : Prop :=
  rb_node s = ptr t /\ shape (nodes s) NULL t.

(** What a loop body returns and leaves, against a pass on the tree. *)
Definition pass_ok (p : pass) (res : option (Z * Z)) (s' : store) : Prop :=
  match p with
  | Done t' => res = None /\ holds s' t'
  | Again C' t1 => res = Some (ptr t1, cpar NULL C') /\ holds s' (plug C' t1)
  end.

(** ** The red-black invariants around a hole *)

Definition ctx_black (C : ctx) : Prop :=
  match C with [] => False | f :: _ => fcolor f = Black end.

(** [ctx_ok C k]: around a hole of black height [k], the frames of [C] and
    their subtrees satisfy invariants 1 to 3. *)
Fixpoint ctx_ok (C : ctx) (k : nat) : Prop :=
  match C with
  | [] => True
  | f :: up =>
      sub_ok (fsib f) /\ bheight (fsib f) = k
      /\ (fcolor f = Red -> col (fsib f) = Black /\ ctx_black up)
      /\ ctx_ok up (k + weight (fcolor f))
  end.

(** The invariant at the head of the insertion loop, on the tree. *)
Definition insert_inv (C : ctx) (t : tree) : Prop :=
  col t = Red /\ sub_ok t /\ ctx_ok C (bheight t).

(** The invariant at a loop head of [__rb_insert], on the store: the current
    node roots a red subtree, its ancestors are a context that is fine but
    for the node's own color. *)
Definition insert_head (s : store) (node parent : Z) (C : ctx) (t : tree) : Prop :=
  insert_inv C t /\ tree_at s (plug C t) /\ node = ptr t /\ parent = cpar NULL C.

(** ** Where a new node is attached *)

Definition ctx_side (C : ctx) (sd : side) : Prop :=
  match C with
  | [] => True
  | FL _ _ _ :: _ => sd = Left
  | FR _ _ _ :: _ => sd = Right
  end.

Definition side_field (sd : side) (nd : RBNode) : Z :=
  match sd with Left => rb_left nd | Right => rb_right nd end.

(** A place where a new node may hang: the empty tree, or a node of the
    tree whose child on the chosen side is absent. *)
Definition attach_point (s : store) (t : tree) (p : Z) (sd : side) : Prop :=
  (p = NULL /\ t = Leaf)
  \/ (p ∈ inorder t /\ exists nd, cell s p = Some nd /\ side_field sd nd = NULL).

(** A node the caller holds that is not in the tree. *)
Definition detached (s : store) (t : tree) (n : Z) : Prop :=
  node_addr n /\ (n ∉ inorder t) /\ is_Some (cell s n).

(** ** Loop heads of [__rb_insert] and the distance to the root *)

(** The states in which control reaches the head of the [while (true)] loop
    of [__rb_insert] called on [node0] in the store [s0]: on entry, with
    [parent = rb_red_parent(node)], and after every [continue]. *)
Inductive insert_loop_head (s0 : store) (node0 : Z) : Z -> Z -> store -> Prop :=
| loop_enter parent :
    rb_red_parent node0 s0 = Some (parent, s0) ->
    insert_loop_head s0 node0 node0 parent s0
| loop_continue node parent s node' parent' s' :
    insert_loop_head s0 node0 node parent s ->
    __rb_insert_body node parent s = Some (Some (node', parent'), s') ->
    insert_loop_head s0 node0 node' parent' s'.

(** [at_depth s a d]: following parent references from [a] reaches the
    root after [d] steps. *)
Inductive at_depth (s : store) : Z -> nat -> Prop :=
| depth_root a nd :
    cell s a = Some nd -> __rb_parent (__rb_parent_color nd) = NULL ->
    at_depth s a 0
| depth_child a nd d :
    cell s a = Some nd -> __rb_parent (__rb_parent_color nd) <> NULL ->
    at_depth s (__rb_parent (__rb_parent_color nd)) d ->
    at_depth s a (S d).

(** ** The trees of the scenario: keys 1 to 7 in ascending order *)

Module Seven.

Import Scenario.

(** The tree the seven insertions build. *)
Definition built : tree :=
  Node Black
    (Node Black Leaf (addr 1) Leaf)
    (addr 2)
    (Node Red
       (Node Black Leaf (addr 3) Leaf)
       (addr 4)
       (Node Black (Node Red Leaf (addr 5) Leaf) (addr 6) (Node Red Leaf (addr 7) Leaf))).

(** The tree the specification expects: 4 at the root. *)
Definition expected : tree :=
  Node Black
    (Node Black (Node Red Leaf (addr 1) Leaf) (addr 2) (Node Red Leaf (addr 3) Leaf))
    (addr 4)
    (Node Black (Node Red Leaf (addr 5) Leaf) (addr 6) (Node Red Leaf (addr 7) Leaf)).

End Seven.

(** ** The erase fixup on trees *)

(** Cases 2 to 4 of one pass of [__rb_erase_color]: the deficient subtree
    [x] hangs below the frame [f], whose other side is the sibling; [up] is
    the rest of the path to the root. *)
Definition erase_rest (up : ctx) (f : frame) (x : tree) : option pass :=
  match f with
  | FL cp p w =>
      match w with
      | Leaf => None
      | Node cw wl wa wr =>
          if is_black (col wr) then
            if is_black (col wl) then
              if is_black cp then
                Some (Again up (Node cp x p (Node Red wl wa wr)))
              else Some (Done (plug up (Node Black x p (Node Red wl wa wr))))
            else
              match wl with
              | Leaf => None
              | Node _ a ia b =>
                  Some (Done (plug up
                    (Node cp (Node Black x p a) ia (Node Black (blacken b) wa wr))))
              end
          else Some (Done (plug up (Node cp (Node Black x p wl) wa (blacken wr))))
      end
  | FR cp w p =>
      match w with
      | Leaf => None
      | Node cw wl wa wr =>
          if is_black (col wl) then
            if is_black (col wr) then
              if is_black cp then
                Some (Again up (Node cp (Node Red wl wa wr) p x))
              else Some (Done (plug up (Node Black (Node Red wl wa wr) p x)))
            else
              match wr with
              | Leaf => None
              | Node _ a ia b =>
                  Some (Done (plug up
                    (Node cp (Node Black wl wa (blacken a)) ia (Node Black b p x))))
              end
          else Some (Done (plug up (Node cp (blacken wl) wa (Node Black wr p x))))
      end
  end.

(** One pass of the body of [__rb_erase_color] on the tree: Case 1 first
    when the sibling is red, then the rest. *)
Definition erase_pass (C : ctx) (x : tree) : option pass :=
  match C with
  | [] => None
  | FL cp p w :: up =>
      match w with
      | Node Red wl wa wr =>
          match wl with
          | Leaf => None
          | Node _ _ _ _ => erase_rest (FL cp wa wr :: up) (FL Red p (blacken wl)) x
          end
      | _ => erase_rest up (FL cp p w) x
      end
  | FR cp w p :: up =>
      match w with
      | Node Red wl wa wr =>
          match wr with
          | Leaf => None
          | Node _ _ _ _ => erase_rest (FR cp wl wa :: up) (FR Red (blacken wr) p) x
          end
      | _ => erase_rest up (FR cp w p) x
      end
  end.

(** What the body of [__rb_erase_color] returns and leaves, against a pass
    on the tree: moving up past the root is a [break]. *)
Definition erase_ok (ps : pass) (res : option (Z * Z)) (s' : store) : Prop :=
  match ps with
  | Done t' => res = None /\ holds s' t'
  | Again C' t1 =>
      res = match C' with
            | [] => None
            | _ :: _ => Some (ptr t1, cpar NULL C')
            end
      /\ holds s' (plug C' t1)
  end.

Definition erase_color_rest (f : frame) : M (option (Z * Z)) :=
  match f with
  | FL _ p w => erase_color_left_rest p (ptr w)
  | FR _ w p => erase_color_right_rest p (ptr w)
  end.

(** The invariant at a loop head of [__rb_erase_color] on the tree: the
    subtree [x] at the hole is black-rooted and one black short of what the
    context asks for; the sibling and the rest of the context are fine. *)
Definition erase_inv (C : ctx) (x : tree) : Prop :=
  match C with
  | [] => False
  | f :: up =>
      col x = Black /\ sub_ok x
      /\ sub_ok (fsib f) /\ bheight (fsib f) = S (bheight x)
      /\ (fcolor f = Red -> col (fsib f) = Black /\ ctx_black up)
      /\ ctx_ok up (S (bheight x) + weight (fcolor f))
  end.

(** The invariant at a loop head of [__rb_erase_color], on the store. *)
Definition erase_head (s : store) (node parent : Z) (C : ctx) (x : tree) : Prop :=
  erase_inv C x /\ tree_at s (plug C x) /\ node = ptr x /\ parent = cpar NULL C.

(** ** The unlink phase of erase on trees *)

Definition is_FL (f : frame) : Prop :=
  match f with FL _ _ _ => True | FR _ _ _ => False end.

(** A path that only goes down to the left. *)
Definition left_spine (Sp : ctx) : Prop := Forall is_FL Sp.

(** What [__rb_erase] leaves: the tree [plug u_ctx u_sub], and whether a
    black node without a child was spliced out of the hole ([u_short]), the
    one situation in which it asks for a rebalance. *)
Record unlinked : Type := mkUnlinked {
  u_ctx : ctx;
  u_sub : tree;
  u_short : bool
}.

(** The rebalance signal [__rb_erase] returns. *)
Definition rebalance_of (u : unlinked) : Z :=
  if u_short u then cpar NULL (u_ctx u) else NULL.

(** The node has at most one child: the child takes its place, its parent
    and its color. *)
Definition unlink_one (C : ctx) (c : color) (child : tree) : unlinked :=
  match child with
  | Leaf => mkUnlinked C Leaf (is_black c)
  | Node _ cl a cr => mkUnlinked C (Node c cl a cr) false
  end.

(** The node has two children; its right subtree is [plug Sp] of the
    successor [s], which has no left child.  The successor takes the place
    and color of the node, its right subtree [rs] takes the successor's
    place. *)
Definition unlink_two (C : ctx) (c : color) (l : tree) (Sp : ctx)
    (cs : color) (s : Z) (rs : tree) : unlinked :=
  match rs with
  | Leaf => mkUnlinked (Sp ++ FR c l s :: C) Leaf (is_black cs)
  | Node _ a b d => mkUnlinked (Sp ++ FR c l s :: C) (Node Black a b d) false
  end.

(** The leftmost node of a tree, with the path down to it. *)
Fixpoint split_min (t : tree) : option (ctx * (color * Z * tree)) :=
  match t with
  | Leaf => None
  | Node c l a r =>
      match split_min l with
      | None => Some ([], (c, a, r))
      | Some (Sp, m) => Some (Sp ++ [FL c a r], m)
      end
  end.

(** The unlink phase of [erase] on the tree: [t] is the subtree of the node
    to erase, [C] its context. *)
Definition unlink (C : ctx) (t : tree) : option unlinked :=
  match t with
  | Leaf => None
  | Node c l n r =>
      match l with
      | Leaf => Some (unlink_one C c r)
      | Node _ _ _ _ =>
          match split_min r with
          | None => Some (unlink_one C c l)
          | Some (Sp, (cs, s, rs)) => Some (unlink_two C c l Sp cs s rs)
          end
      end
  end.

(** What [__rb_erase] returns and leaves, against the unlink on the tree. *)
Definition unlink_ok (u : unlinked) (reb : Z) (s' : store) : Prop :=
  reb = rebalance_of u /\ holds s' (plug (u_ctx u) (u_sub u)).

(** What is left to do after the unlink: nothing, or the color fixup from
    a state that satisfies its invariant. *)
Definition unlinked_ok (u : unlinked) : Prop :=
  if u_short u then
    u_sub u = Leaf /\ (u_ctx u = [] \/ erase_inv (u_ctx u) Leaf)
  else red_black (plug (u_ctx u) (u_sub u)).

(** ** The rebalance signal *)

(** The node the unlink phase splices out of the tree, as section 4.3 of
    the specification has it: the node to erase itself when it has at most
    one child, its in-order successor when it has two.  [spliced t] is the
    color of that node ("the removed color") and the subtree that takes its
    slot. *)
Definition spliced (t : tree) : color * tree :=
  match t with
  | Leaf => (Black, Leaf)
  | Node c l _ r =>
      match l with
      | Leaf => (c, r)
      | Node _ _ _ _ =>
          match split_min r with
          | None => (c, l)
          | Some (_, (cs, _, rs)) => (cs, rs)
          end
      end
  end.

Definition removed_color (t : tree) : color := fst (spliced t).
Definition replacement (t : tree) : tree := snd (spliced t).

(** The spliced-out node is the root of the tree: the node to erase is the
    root and has at most one child. *)
Definition spliced_at_root (C : ctx) (t : tree) : Prop :=
  C = [] /\ match t with
            | Leaf => True
            | Node _ l _ r => l = Leaf \/ r = Leaf
            end.

(** ** Concrete states *)

Module Small.

Definition root_node : RBNode := mkRBNode (pc_of_parent_color NULL RB_BLACK) NULL NULL.

(** The node 16 is the black root; the node 32 is allocated and detached. *)
Definition s0 : store :=
  mkStore (<[16 := root_node]> (<[32 := Scenario.blank]> ∅)) 16.

Definition t0 : tree := Node Black Leaf 16 Leaf.

(** The store after [link_node(32, 16, right)]. *)
Definition s1 : store :=
  mkStore (<[16 := mkRBNode (pc_of_parent_color NULL RB_BLACK) 32 NULL]>
             (<[32 := mkRBNode (pc_of_parent_color 16 RB_RED) NULL NULL]> ∅)) 16.

End Small.

Module Four.

(** 32 is the black root, 16 and 64 its black children, 48 the red left
    child of 64: the successor of the root is two levels down. *)
Definition s4 : store :=
  mkStore (<[32 := mkRBNode (pc_of_parent_color NULL RB_BLACK) 64 16]>
          (<[16 := mkRBNode (pc_of_parent_color 32 RB_BLACK) NULL NULL]>
          (<[64 := mkRBNode (pc_of_parent_color 32 RB_BLACK) NULL 48]>
          (<[48 := mkRBNode (pc_of_parent_color 64 RB_RED) NULL NULL]> ∅)))) 32.

Definition l4 : tree := Node Black Leaf 16 Leaf.
Definition r4 : tree := Node Black (Node Red Leaf 48 Leaf) 64 Leaf.
Definition t4 : tree := Node Black l4 32 r4.

End Four.

Module Short.

(** The black root 32 has lost its left child; its right child 64 is red
    with the black children 48 and 80: the state in which the erase fixup
    meets Case 1. *)
Definition s : store :=
  mkStore (<[32 := mkRBNode (pc_of_parent_color NULL RB_BLACK) 64 NULL]>
          (<[64 := mkRBNode (pc_of_parent_color 32 RB_RED) 80 48]>
          (<[48 := mkRBNode (pc_of_parent_color 64 RB_BLACK) NULL NULL]>
          (<[80 := mkRBNode (pc_of_parent_color 64 RB_BLACK) NULL NULL]> ∅)))) 32.

Definition w : tree :=
  Node Red (Node Black Leaf 48 Leaf) 64 (Node Black Leaf 80 Leaf).

Definition C : ctx := [FL Black 32 w].

End Short.

(** ** Locality: what the tree programs never touch *)

(** The store with one more node. *)
Definition with_cell (b : Z) (nd : RBNode) (s : store) : store :=
  mkStore (<[b := nd]> (nodes s)) (rb_node s).

(** The store without the node at [b]. *)
Definition without_cell (b : Z) (s : store) : store :=
  mkStore (delete b (nodes s)) (rb_node s).

(** A program is local when a run of it allocates and frees nothing, and
    goes the same way, leaving it alone, when an address it never met holds
    a node. *)
Definition local {A : Type} (m : M A) : Prop :=
  forall s r s', m s = Some (r, s') ->
    (forall b, is_Some (nodes s' !! b) <-> is_Some (nodes s !! b))
    /\ (forall b nd, nodes s !! b = None ->
          m (with_cell b nd s) = Some (r, with_cell b nd s')).

(** ** The height of a tree, and the sibling at an erase loop head *)

(** The longest path from the root of a tree down to an absent child. *)
Fixpoint height (t : tree) : nat :=
  match t with
  | Leaf => 0%nat
  | Node _ l _ r => S (Nat.max (height l) (height r))
  end.

(** The sibling the body of the loop of [__rb_erase_color] looks at: the
    right child of [parent] unless that is [node], then the left child. *)
Definition erase_sibling (node parent : Z) : M Z :=
  do sibling <- get_right parent;
  if negb (node =? sibling) then ret sibling else get_left parent.

(** ** Erasing several nodes *)

(** [erase] on each node of a list, in the order of the list. *)
Fixpoint erase_each (fuel : nat) (ns : list Z) : M unit :=
  match ns with
  | [] => ret tt
  | n :: ns' => erase fuel n;; erase_each fuel ns'
  end.

(** ** An empty tree beside one allocated node *)

Module Vacant.

Definition s : store := mkStore (<[16 := Scenario.blank]> ∅) NULL.

End Vacant.

(** * The key encoding and the iterator of LMDBStore.cc *)

Module LMDB.

(** A [std::string]: its bytes, which may include zero bytes. *)
Definition bytes : Type := list byte.

Definition EINVAL : Z := 22.

#[global] Instance byte_eq_dec : EqDecision byte := Byte.byte_eq_dec.

(** [memchr(s, c, n)] of the C library: the offset of the first byte equal
    to [c] among the first [n] bytes at [s], if there is one. *)
Fixpoint memchr (s : bytes) (c : byte) (n : nat) : option nat :=
  match n, s with
  | S n', b :: s' =>
      if Byte.eqb b c then Some 0%nat else option_map S (memchr s' c n')
  | _, _ => None
  end.

(** [memcmp(a, b, n)] of the C library, on the first [n] bytes of each:
    zero when they agree, else the difference of the first bytes that
    differ (as unsigned chars). *)
Fixpoint memcmp (a b : bytes) (n : nat) : Z :=
  match n, a, b with
  | S n', x :: a', y :: b' =>
      if Byte.eqb x y then memcmp a' b' n'
      else Z.of_N (Byte.to_N x) - Z.of_N (Byte.to_N y)
  | _, _, _ => 0
  end.

(** [LMDBStore::combine_strings]: the prefix, a zero byte, the value. *)
Definition combine_strings (prefix value : bytes) : bytes :=
  let out := prefix in
  let out := out ++ [x00] in
  out ++ value.

(** [LMDBStore::past_prefix]: the prefix and a byte 1. *)
Definition past_prefix (prefix : bytes) : bytes :=
  let limit := prefix in
  limit ++ [x01].

(** [LMDBStore::split_key].  The out-parameters [prefix] and [key] are
    [None] for a null pointer and [Some v] for a pointer to a string that
    holds [v] (and is not [in] itself); the result is the return value and
    what the two strings hold afterwards. *)
Definition split_key (inp : bytes) (prefix key : option bytes)
  : Z * option bytes * option bytes :=
  match memchr inp x01 (length inp) with
  | None => (- EINVAL, prefix, key)
  | Some prefix_len =>
      if (length inp <=? prefix_len)%nat then (- EINVAL, prefix, key)
      else
        (0,
         option_map (fun _ => firstn prefix_len inp) prefix,
         option_map (fun _ => firstn (length inp - prefix_len - 1)
                                (skipn (S prefix_len) inp)) key)
  end.

(** The operations of [mdb_cursor_get] the iterator uses. *)
Inductive MDB_cursor_op : Type :=
| MDB_FIRST | MDB_LAST | MDB_NEXT | MDB_PREV | MDB_SET_RANGE | MDB_GET_CURRENT.

(** The [MDB_val *key] argument of [mdb_cursor_get]: a null pointer, a
    pointer to a value the caller has not set, or to one it has set. *)
Inductive key_arg : Type :=
| KNull
| KUnset
| KSet (k : bytes).

(** The iterator object: the LMDB cursor and the flag [invalid]. *)
Record iter (cursor : Type) : Type := mkIter {
  it_cursor : cursor;
  invalid : bool
}.
Arguments mkIter {cursor} _ _.
Arguments it_cursor {cursor} _.
Arguments invalid {cursor} _.

Section Iterator.

(** LMDB is not part of the sources.  The cursor is any type, and
    [mdb_cursor_get cursor key want_data op] is any function: it gives the
    return code, the cursor afterwards, and what [*key] and [*data] hold
    afterwards ([want_data] tells whether [data] was a non-null pointer). *)
Variable cursor : Type.
Variable mdb_cursor_get :
  cursor -> key_arg -> bool -> MDB_cursor_op -> Z * cursor * bytes * bytes.

Definition Op (A : Type) : Type := iter cursor -> A * iter cursor.

(** The return code of a call whose outputs are not looked at. *)
Definition cursor_move (c : cursor) (k : key_arg) (op : MDB_cursor_op) : Z * cursor :=
  let '(rc, c', _, _) := mdb_cursor_get c k false op in (rc, c').

(** [seek_to_first()] *)
Definition seek_to_first : Op Z := fun it =>
  let '(rc, c) := cursor_move (it_cursor it) KNull MDB_FIRST in
  (if rc =? 0 then 0 else -1, mkIter c false).

(** [seek_to_first(prefix)] *)
Definition seek_to_first_prefix (prefix : bytes) : Op Z := fun it =>
  let '(rc, c) :=
    if (length prefix =? 0)%nat then cursor_move (it_cursor it) KUnset MDB_FIRST
    else cursor_move (it_cursor it) (KSet prefix) MDB_SET_RANGE in
  (if rc =? 0 then 0 else -1, mkIter c false).

(** [seek_to_last()] *)
Definition seek_to_last : Op Z := fun it =>
  let '(rc, c) := cursor_move (it_cursor it) KNull MDB_LAST in
  (if rc =? 0 then 0 else -1, mkIter c false).

(** [seek_to_last(prefix)] *)
Definition seek_to_last_prefix (prefix : bytes) : Op Z := fun it =>
  let limit := past_prefix prefix in
  if (length prefix =? 0)%nat then (0, mkIter (it_cursor it) true)
  else
    let '(rc, c) := cursor_move (it_cursor it) (KSet limit) MDB_SET_RANGE in
    if negb (rc =? 0) then
      let '(rc, c) := cursor_move c KNull MDB_LAST in
      (if rc =? 0 then 0 else 1, mkIter c false)
    else
      let '(rc, c) := cursor_move c KNull MDB_PREV in
      if negb (rc =? 0) then (0, mkIter c true)
      else (0, mkIter c false).

(** [lower_bound(prefix, to)] *)
Definition lower_bound (prefix to : bytes) : Op Z := fun it =>
  let bound := combine_strings prefix to in
  let '(rc, c) := cursor_move (it_cursor it) (KSet bound) MDB_SET_RANGE in
  if negb (rc =? 0) then
    let '(rc, c) := cursor_move c KNull MDB_LAST in
    (if rc =? 0 then 0 else 1, mkIter c true)
  else (0, mkIter c false).

(** [valid()] *)
Definition valid : Op bool := fun it =>
  if invalid it then (false, it)
  else
    let '(rc, c) := cursor_move (it_cursor it) KNull MDB_GET_CURRENT in
    (rc =? 0, mkIter c (invalid it)).

(** [next()] *)
Definition next : Op Z := fun it =>
  let rc := 1 in
  let '(v, it) := valid it in
  let '(rc, it) :=
    if v then
      let '(rc, c) := cursor_move (it_cursor it) KNull MDB_NEXT in
      (rc, mkIter c (invalid it))
    else (rc, it) in
  let it := if negb (rc =? 0) then mkIter (it_cursor it) true else it in
  (0, it).

(** [prev()] *)
Definition prev : Op Z := fun it =>
  let rc := 1 in
  let '(v, it) := valid it in
  let '(rc, it) :=
    if v then
      let '(rc, c) := cursor_move (it_cursor it) KNull MDB_PREV in
      (rc, mkIter c (invalid it))
    else (rc, it) in
  let it := if negb (rc =? 0) then mkIter (it_cursor it) true else it in
  (0, it).

(** [key()]: the key part of the current key; the result of [split_key] is
    not looked at, and a string it did not set is empty. *)
Definition key : Op bytes := fun it =>
  let '(rc, c, k, v) := mdb_cursor_get (it_cursor it) KUnset true MDB_GET_CURRENT in
  let key := k in
  let '(_, _, out_key) := split_key key None (Some []) in
  (default [] out_key, mkIter c (invalid it)).

(** [raw_key()] *)
Definition raw_key : Op (bytes * bytes) := fun it =>
  let '(rc, c, k, v) := mdb_cursor_get (it_cursor it) KUnset true MDB_GET_CURRENT in
  let out := k in
  let '(_, prefix, key) := split_key out (Some []) (Some []) in
  ((default [] prefix, default [] key), mkIter c (invalid it)).

(** [raw_key_is_prefixed(prefix)] *)
Definition raw_key_is_prefixed (prefix : bytes) : Op bool := fun it =>
  let '(rc, c, k, v) := mdb_cursor_get (it_cursor it) KUnset true MDB_GET_CURRENT in
  let it' := mkIter c (invalid it) in
  if negb (rc =? 0) then (false, it')
  else
    let data := k in
    if (length prefix <? length k)%nat
       && match nth_error data (length prefix) with
          | Some b => Byte.eqb b x01
          | None => false
          end
    then (memcmp data prefix (length prefix) =? 0, it')
    else (false, it').

(** [status()] *)
Definition status : Op Z := fun it =>
  let '(rc, c) := cursor_move (it_cursor it) KNull MDB_GET_CURRENT in
  (if rc =? 0 then 0 else -1, mkIter c (invalid it)).

(** [upper_bound(prefix, after)] *)
Definition upper_bound (prefix after : bytes) : Op Z := fun it =>
  let it := mkIter (it_cursor it) false in
  let '(rc, it) := lower_bound prefix after it in
  let '(v, it) := valid it in
  let '(rc, it) :=
    if v then
      let '(key, it) := raw_key it in
      if bool_decide (fst key = prefix) && bool_decide (snd key = after)
      then next it
      else (rc, it)
    else (rc, it) in
  (if rc =? 0 then 0 else 1, it).

End Iterator.

End LMDB.

(** ** A cursor that always stands on one key *)

Module OneKey.

Definition stored : LMDB.bytes := LMDB.combine_strings [x61] [x62].

Definition get (c : unit) (k : LMDB.key_arg) (want_data : bool) (op : LMDB.MDB_cursor_op)
  : Z * unit * LMDB.bytes * LMDB.bytes := (0, tt, stored, [x63]).

Definition it : LMDB.iter unit := LMDB.mkIter tt false.

(** A cursor over no key at all: every call fails. *)
Definition none (c : unit) (k : LMDB.key_arg) (want_data : bool) (op : LMDB.MDB_cursor_op)
  : Z * unit * LMDB.bytes * LMDB.bytes := (-1, tt, [], []).

End OneKey.

(** * Lemmas and theorems *)

(** ** Bit-level facts about the packed word *)

Section PackedWord.

Lemma of_int_lnot3 : Word.of_int (Z.lnot 3) = Word.modulus - 4.
Proof. reflexivity. Qed.

Lemma mask_testbit (i : Z) :
  0 <= i -> Z.testbit (Word.modulus - 4) i = (2 <=? i) && (i <? 64).
Proof.
  intros Hi.
  change (Word.modulus - 4) with (Z.shiftl (Z.ones 62) 2).
  rewrite Z.shiftl_spec by lia.
  destruct (Z.leb_spec 2 i) as [H2|H2]; simpl.
  - rewrite Z.testbit_ones by lia.
    destruct (Z.ltb_spec i 64), (Z.ltb_spec (i - 2) 62), (Z.leb_spec 0 (i - 2));
      simpl; lia || reflexivity.
  - rewrite Z.testbit_neg_r by lia. reflexivity.
Qed.

Lemma aligned4_low_bits (p : Z) (i : Z) :
  Word.aligned4 p -> 0 <= i < 2 -> Z.testbit p i = false.
Proof.
  intros [_ Hm] Hi.
  assert (Hp : p = Z.shiftl (Z.shiftr p 2) 2).
  { rewrite Z.shiftl_mul_pow2, Z.shiftr_div_pow2 by lia.
    change (2 ^ 2) with 4. pose proof (Z.div_mod p 4). lia. }
  rewrite Hp, Z.shiftl_spec by lia.
  apply Z.testbit_neg_r. lia.
Qed.

Lemma in_range_high_bits (p : Z) (i : Z) :
  Word.in_range p -> 64 <= i -> Z.testbit p i = false.
Proof.
  intros [Hlo Hhi] Hi.
  destruct (Z.eq_dec p 0) as [->|Hne]; [apply Z.bits_0|].
  apply Z.bits_above_log2; [lia|].
  assert (Z.log2 p < 64); [|lia].
  apply Z.log2_lt_pow2; unfold Word.modulus, Word.width in *; lia.
Qed.

Lemma color_bit_cases (c : Z) :
  c = RB_RED \/ c = RB_BLACK ->
  forall i, 0 <= i -> Z.testbit c i = (i =? 0) && (c =? 1).
Proof.
  intros [->| ->] i Hi; unfold RB_RED, RB_BLACK.
  - rewrite Z.bits_0. destruct (i =? 0); reflexivity.
  - destruct (Z.eqb_spec i 0) as [->|Hne]; [reflexivity|].
    simpl. change 1 with (Z.ones 1). rewrite Z.testbit_ones by lia.
    destruct (Z.ltb_spec i 1), (Z.leb_spec 0 i); simpl; lia || reflexivity.
Qed.

Lemma parent_of_pack (p c : Z) :
  Word.aligned4 p -> c = RB_RED \/ c = RB_BLACK ->
  __rb_parent (pc_of_parent_color p c) = p.
Proof.
  intros Hp Hc. unfold __rb_parent, pc_of_parent_color.
  rewrite of_int_lnot3.
  apply Z.bits_inj'. intros i Hi.
  rewrite Z.land_spec, Z.lor_spec, mask_testbit, (color_bit_cases c Hc) by lia.
  destruct (Z.leb_spec 2 i) as [H2|H2]; simpl.
  - destruct (Z.ltb_spec i 64) as [H64|H64]; simpl.
    + destruct (Z.eqb_spec i 0); [lia|]. simpl.
      rewrite orb_false_r, andb_true_r. reflexivity.
    + rewrite andb_false_r. symmetry. apply in_range_high_bits; [apply Hp|lia].
  - rewrite andb_false_r. symmetry. apply aligned4_low_bits; [assumption|lia].
Qed.

Lemma color_of_pack (p c : Z) :
  Word.aligned4 p -> c = RB_RED \/ c = RB_BLACK ->
  __rb_color (pc_of_parent_color p c) = c.
Proof.
  intros Hp Hc. unfold __rb_color, pc_of_parent_color.
  apply Z.bits_inj'. intros i Hi.
  rewrite Z.land_spec, Z.lor_spec, !(color_bit_cases _ Hc) by lia.
  rewrite (color_bit_cases 1 (or_intror eq_refl)) by lia.
  destruct (Z.eqb_spec i 0) as [->|Hne].
  - rewrite (aligned4_low_bits p 0 Hp) by lia.
    destruct Hc as [->| ->]; reflexivity.
  - cbn [andb]. rewrite orb_false_r. apply andb_false_r.
Qed.

Lemma parent_of_set_black (pc : Z) :
  __rb_parent (pc_set_black pc) = __rb_parent pc.
Proof.
  unfold __rb_parent, pc_set_black. rewrite of_int_lnot3.
  apply Z.bits_inj'. intros i Hi.
  rewrite !Z.land_spec, Z.lor_spec, mask_testbit by lia.
  rewrite (color_bit_cases RB_BLACK (or_intror eq_refl)) by lia.
  destruct (Z.eqb_spec i 0) as [->|Hne]; simpl.
  - rewrite !andb_false_r. reflexivity.
  - rewrite orb_false_r. reflexivity.
Qed.

Lemma color_of_set_black (pc : Z) : __rb_color (pc_set_black pc) = RB_BLACK.
Proof.
  unfold __rb_color, pc_set_black, RB_BLACK.
  rewrite Z.land_lor_distr_l. change (Z.land 1 1) with 1.
  apply Z.bits_inj'. intros i Hi.
  rewrite Z.lor_spec, Z.land_spec.
  rewrite (color_bit_cases 1 (or_intror eq_refl)) by lia.
  destruct (Z.eqb_spec i 0); simpl.
  - apply orb_true_r.
  - rewrite andb_false_r. reflexivity.
Qed.

Lemma color_of_land1 (pc : Z) :
  Z.land pc 1 = RB_RED \/ Z.land pc 1 = RB_BLACK.
Proof.
  change 1 with (Z.ones 1). rewrite Z.land_ones by lia.
  change (2 ^ 1) with 2. unfold RB_RED, RB_BLACK.
  pose proof (Z.mod_pos_bound pc 2). lia.
Qed.

Lemma parent_of_set_parent (pc p : Z) :
  Word.aligned4 p -> __rb_parent (pc_set_parent pc p) = p.
Proof.
  intros Hp. unfold pc_set_parent. rewrite Z.lor_comm.
  apply (parent_of_pack p (__rb_color pc) Hp). apply color_of_land1.
Qed.

Lemma color_of_set_parent (pc p : Z) :
  Word.aligned4 p -> __rb_color (pc_set_parent pc p) = __rb_color pc.
Proof.
  intros Hp. unfold pc_set_parent. rewrite Z.lor_comm.
  apply (color_of_pack p (__rb_color pc) Hp). apply color_of_land1.
Qed.

End PackedWord.

(** ** Contexts and shapes: structural lemmas *)

Section Contexts.

Implicit Types (h : gmap Z RBNode) (C : ctx) (t : tree) (f : frame).

Lemma plug_app C1 C2 t : plug (C1 ++ C2) t = plug C2 (plug C1 t).
Proof. revert t. induction C1 as [|f C1 IH]; intros t; simpl; auto. Qed.

Lemma ptr_fill f t : ptr (fill f t) = faddr f.
Proof. destruct f; reflexivity. Qed.

Lemma ptr_plug C t : ptr (plug C t) = ctop C (ptr t).
Proof.
  revert t. induction C as [|f C IH]; intros t; simpl; [reflexivity|].
  rewrite IH, ptr_fill. reflexivity.
Qed.

Lemma inorder_plug C t : inorder (plug C t) = cleft C ++ inorder t ++ cright C.
Proof.
  revert t. induction C as [|f C IH]; intros t; simpl.
  - rewrite app_nil_r. reflexivity.
  - rewrite IH. destruct f; simpl; rewrite <- ?app_assoc; simpl; reflexivity.
Qed.

Lemma shape_fill h par f t :
  shape h par (fill f t) <->
  h !! faddr f = Some (fcell par (ptr t) f)
  /\ shape h (faddr f) (fsib f) /\ shape h (faddr f) t.
Proof. destruct f; simpl; tauto. Qed.

Lemma shape_plug h par0 C t :
  shape h par0 (plug C t) <->
  cshape h par0 C (ptr t) /\ shape h (cpar par0 C) t.
Proof.
  revert t. induction C as [|f C IH]; intros t; simpl; [tauto|].
  rewrite IH, shape_fill, ptr_fill. tauto.
Qed.

Lemma cshape_app h par0 C1 C2 hole :
  cshape h par0 (C1 ++ C2) hole <->
  cshape h (cpar par0 C2) C1 hole /\ cshape h par0 C2 (ctop C1 hole).
Proof.
  revert hole. induction C1 as [|f C1 IH]; intros hole; simpl; [tauto|].
  rewrite IH.
  assert (Hp : cpar par0 (C1 ++ C2) = cpar (cpar par0 C2) C1)
    by (destruct C1; reflexivity).
  rewrite Hp. tauto.
Qed.

(** Anything that leaves the nodes of a tree alone leaves its shape alone. *)
Lemma shape_agree h h' par t :
  (forall b, b ∈ inorder t -> h' !! b = h !! b) ->
  shape h par t -> shape h' par t.
Proof.
  revert par. induction t as [|c l IHl a r IHr]; intros par Hag; simpl; [tauto|].
  intros (Ha & Hl & Hr). repeat split.
  - rewrite Hag; [assumption|]. simpl. rewrite elem_of_app, elem_of_cons. auto.
  - apply IHl; [|assumption]. intros b Hb. apply Hag. simpl.
    rewrite elem_of_app. auto.
  - apply IHr; [|assumption]. intros b Hb. apply Hag. simpl.
    rewrite elem_of_app, elem_of_cons. auto.
Qed.

Lemma elem_of_caddrs_cons f C b :
  b ∈ caddrs (f :: C) <-> b = faddr f \/ b ∈ inorder (fsib f) \/ b ∈ caddrs C.
Proof.
  unfold caddrs. destruct f; simpl;
    rewrite ?elem_of_app, ?elem_of_cons, ?elem_of_app, ?elem_of_cons, ?elem_of_nil;
    tauto.
Qed.

Lemma cshape_agree h h' par0 C hole :
  (forall b, b ∈ caddrs C -> h' !! b = h !! b) ->
  cshape h par0 C hole -> cshape h' par0 C hole.
Proof.
  revert hole. induction C as [|f C IH]; intros hole Hag; simpl; [tauto|].
  intros (Ha & Hs & Hc). repeat split.
  - rewrite Hag; [assumption|]. apply elem_of_caddrs_cons. auto.
  - eapply shape_agree; [|eassumption].
    intros b Hb. apply Hag, elem_of_caddrs_cons. auto.
  - apply IH; [|assumption].
    intros b Hb. apply Hag, elem_of_caddrs_cons. auto.
Qed.

Lemma ptr_elem_of t : t <> Leaf -> ptr t ∈ inorder t.
Proof.
  destruct t; [congruence|]. intros _. simpl.
  rewrite elem_of_app, elem_of_cons. auto.
Qed.

Lemma ptr_null_leaf t : Forall node_addr (inorder t) -> ptr t = NULL -> t = Leaf.
Proof.
  destruct t as [|c l a r]; [reflexivity|]. simpl. intros HF ->.
  rewrite Forall_app, Forall_cons in HF. destruct HF as (_ & (Hn & _) & _).
  congruence.
Qed.

Lemma ptr_ne t a : a <> NULL -> a ∉ inorder t -> ptr t <> a.
Proof.
  intros Ha Hni Heq. destruct t as [|c l x r]; simpl in *; [congruence|].
  subst. apply Hni. rewrite elem_of_app, elem_of_cons. auto.
Qed.

End Contexts.

(** ** Running the monad on a store whose cells are known *)

Section Exec.

Context {A : Type}.
Implicit Types (h : gmap Z RBNode) (k : unit -> M A).

Lemma cell_known h root a n :
  a <> NULL -> h !! a = Some n -> cell (mkStore h root) a = Some n.
Proof.
  intros Ha Hn. unfold cell. simpl.
  destruct (Z.eqb_spec a NULL); [contradiction|assumption].
Qed.

Lemma run_ret {B : Type} (b : B) (k : B -> M A) s : bind (ret b) k s = k b s.
Proof. reflexivity. Qed.

Lemma run_bind {B D : Type} (m : M B) (f : B -> M D) (k : D -> M A) s :
  bind (bind m f) k s = bind m (fun x => bind (f x) k) s.
Proof. unfold bind. destruct (m s) as [[b s']|]; reflexivity. Qed.

Lemma run_load h root a n (k : RBNode -> M A) :
  a <> NULL -> h !! a = Some n ->
  bind (load a) k (mkStore h root) = k n (mkStore h root).
Proof.
  intros Ha Hn. unfold bind, load. rewrite (cell_known _ _ _ _ Ha Hn). reflexivity.
Qed.

Lemma run_store_node h root a n v k :
  a <> NULL -> h !! a = Some n ->
  bind (store_node a v) k (mkStore h root) = k tt (mkStore (<[a := v]> h) root).
Proof.
  intros Ha Hn. unfold bind, store_node. rewrite (cell_known _ _ _ _ Ha Hn).
  reflexivity.
Qed.

Lemma run_get_root h root (k : Z -> M A) :
  bind get_root k (mkStore h root) = k root (mkStore h root).
Proof. reflexivity. Qed.

Lemma run_set_root h root p k :
  bind (set_root p) k (mkStore h root) = k tt (mkStore h p).
Proof. reflexivity. Qed.

Lemma run_get_parent_color h root a pc r l (k : Z -> M A) :
  a <> NULL -> h !! a = Some (mkRBNode pc r l) ->
  bind (get_parent_color a) k (mkStore h root) = k pc (mkStore h root).
Proof.
  intros Ha Hn. unfold get_parent_color.
  rewrite run_bind, (run_load _ _ _ _ _ Ha Hn). reflexivity.
Qed.

Lemma run_get_right h root a pc r l (k : Z -> M A) :
  a <> NULL -> h !! a = Some (mkRBNode pc r l) ->
  bind (get_right a) k (mkStore h root) = k r (mkStore h root).
Proof.
  intros Ha Hn. unfold get_right.
  rewrite run_bind, (run_load _ _ _ _ _ Ha Hn). reflexivity.
Qed.

Lemma run_get_left h root a pc r l (k : Z -> M A) :
  a <> NULL -> h !! a = Some (mkRBNode pc r l) ->
  bind (get_left a) k (mkStore h root) = k l (mkStore h root).
Proof.
  intros Ha Hn. unfold get_left.
  rewrite run_bind, (run_load _ _ _ _ _ Ha Hn). reflexivity.
Qed.

Lemma run_set_parent_color h root a pc r l v k :
  a <> NULL -> h !! a = Some (mkRBNode pc r l) ->
  bind (set_parent_color a v) k (mkStore h root)
  = k tt (mkStore (<[a := mkRBNode v r l]> h) root).
Proof.
  intros Ha Hn. unfold set_parent_color.
  rewrite run_bind, (run_load _ _ _ _ _ Ha Hn).
  rewrite (run_store_node _ _ _ _ _ _ Ha Hn). reflexivity.
Qed.

Lemma run_set_right h root a pc r l v k :
  a <> NULL -> h !! a = Some (mkRBNode pc r l) ->
  bind (set_right a v) k (mkStore h root)
  = k tt (mkStore (<[a := mkRBNode pc v l]> h) root).
Proof.
  intros Ha Hn. unfold set_right.
  rewrite run_bind, (run_load _ _ _ _ _ Ha Hn).
  rewrite (run_store_node _ _ _ _ _ _ Ha Hn). reflexivity.
Qed.

Lemma run_set_left h root a pc r l v k :
  a <> NULL -> h !! a = Some (mkRBNode pc r l) ->
  bind (set_left a v) k (mkStore h root)
  = k tt (mkStore (<[a := mkRBNode pc r v]> h) root).
Proof.
  intros Ha Hn. unfold set_left.
  rewrite run_bind, (run_load _ _ _ _ _ Ha Hn).
  rewrite (run_store_node _ _ _ _ _ _ Ha Hn). reflexivity.
Qed.

Lemma run_RBNode_parent h root a pc r l (k : Z -> M A) :
  a <> NULL -> h !! a = Some (mkRBNode pc r l) ->
  bind (RBNode_parent a) k (mkStore h root) = k (__rb_parent pc) (mkStore h root).
Proof.
  intros Ha Hn. unfold RBNode_parent.
  rewrite run_bind, (run_get_parent_color _ _ _ _ _ _ _ Ha Hn). reflexivity.
Qed.

Lemma run_rb_is_red h root a pc r l (k : bool -> M A) :
  a <> NULL -> h !! a = Some (mkRBNode pc r l) ->
  bind (rb_is_red a) k (mkStore h root) = k (__rb_is_red pc) (mkStore h root).
Proof.
  intros Ha Hn. unfold rb_is_red.
  rewrite run_bind, (run_get_parent_color _ _ _ _ _ _ _ Ha Hn). reflexivity.
Qed.

Lemma run_rb_is_black h root a pc r l (k : bool -> M A) :
  a <> NULL -> h !! a = Some (mkRBNode pc r l) ->
  bind (rb_is_black a) k (mkStore h root) = k (__rb_is_black pc) (mkStore h root).
Proof.
  intros Ha Hn. unfold rb_is_black.
  rewrite run_bind, (run_get_parent_color _ _ _ _ _ _ _ Ha Hn). reflexivity.
Qed.

Lemma run_rb_red_parent h root a pc r l (k : Z -> M A) :
  a <> NULL -> h !! a = Some (mkRBNode pc r l) ->
  bind (rb_red_parent a) k (mkStore h root) = k pc (mkStore h root).
Proof. apply run_get_parent_color. Qed.

Lemma run_rb_set_parent h root a pc r l p k :
  a <> NULL -> h !! a = Some (mkRBNode pc r l) ->
  bind (rb_set_parent a p) k (mkStore h root)
  = k tt (mkStore (<[a := mkRBNode (pc_set_parent pc p) r l]> h) root).
Proof.
  intros Ha Hn. unfold rb_set_parent.
  rewrite run_bind, (run_get_parent_color _ _ _ _ _ _ _ Ha Hn).
  apply (run_set_parent_color _ _ _ _ _ _ _ _ Ha Hn).
Qed.

Lemma run_rb_set_parent_color h root a pc r l p c k :
  a <> NULL -> h !! a = Some (mkRBNode pc r l) ->
  bind (rb_set_parent_color a p c) k (mkStore h root)
  = k tt (mkStore (<[a := mkRBNode (pc_of_parent_color p c) r l]> h) root).
Proof. apply run_set_parent_color. Qed.

Lemma run_rb_set_black h root a pc r l k :
  a <> NULL -> h !! a = Some (mkRBNode pc r l) ->
  bind (rb_set_black a) k (mkStore h root)
  = k tt (mkStore (<[a := mkRBNode (pc_set_black pc) r l]> h) root).
Proof.
  intros Ha Hn. unfold rb_set_black.
  rewrite run_bind, (run_get_parent_color _ _ _ _ _ _ _ Ha Hn).
  apply (run_set_parent_color _ _ _ _ _ _ _ _ Ha Hn).
Qed.

End Exec.

(** ** The packed word of a node of known parent and color *)

Section PackedColor.

Lemma color_bit_cases' c : color_bit c = RB_RED \/ color_bit c = RB_BLACK.
Proof. destruct c; auto. Qed.

Lemma aligned4_NULL : Word.aligned4 NULL.
Proof. repeat split; unfold NULL, Word.modulus, Word.width; lia || reflexivity. Qed.

Lemma rd_parent p c :
  Word.aligned4 p -> __rb_parent (pc_of_parent_color p (color_bit c)) = p.
Proof. intros Hp. apply parent_of_pack; [assumption|apply color_bit_cases']. Qed.

Lemma rd_color p c :
  Word.aligned4 p -> __rb_color (pc_of_parent_color p (color_bit c)) = color_bit c.
Proof. intros Hp. apply color_of_pack; [assumption|apply color_bit_cases']. Qed.

Lemma rd_is_black p c :
  Word.aligned4 p -> __rb_is_black (pc_of_parent_color p (color_bit c)) = is_black c.
Proof.
  intros Hp. unfold __rb_is_black. rewrite rd_color by assumption.
  destruct c; reflexivity.
Qed.

Lemma rd_is_red p c :
  Word.aligned4 p -> __rb_is_red (pc_of_parent_color p (color_bit c)) = negb (is_black c).
Proof.
  intros Hp. unfold __rb_is_red. rewrite rd_color by assumption.
  destruct c; reflexivity.
Qed.

Lemma rd_red p : pc_of_parent_color p (color_bit Red) = p.
Proof. apply Z.lor_0_r. Qed.

Lemma wr_set_parent q c p :
  Word.aligned4 q -> Word.aligned4 p ->
  pc_set_parent (pc_of_parent_color q (color_bit c)) p = pc_of_parent_color p (color_bit c).
Proof.
  intros Hq Hp. unfold pc_set_parent. rewrite rd_color by assumption.
  apply Z.lor_comm.
Qed.

Lemma wr_set_black p c :
  pc_set_black (pc_of_parent_color p (color_bit c)) = pc_of_parent_color p (color_bit Black).
Proof.
  unfold pc_set_black, pc_of_parent_color. rewrite <- Z.lor_assoc.
  destruct c; reflexivity.
Qed.

End PackedColor.

(** ** Distinct addresses *)

Section Distinct.

Implicit Types (l k : list Z) (a b : Z).

Lemma NoDup_app_inv l k : NoDup (l ++ k) -> NoDup l /\ NoDup k /\ ldisj l k.
Proof.
  rewrite NoDup_app. intros (H1 & H2 & H3). split; [assumption|].
  split; [assumption|]. intros x Hx Hk. exact (H2 x Hx Hk).
Qed.

Lemma NoDup_cons_inv a l : NoDup (a :: l) -> (a ∉ l) /\ NoDup l.
Proof. rewrite NoDup_cons. tauto. Qed.

Lemma ldisj_app_l l1 l2 k : ldisj (l1 ++ l2) k -> ldisj l1 k /\ ldisj l2 k.
Proof.
  unfold ldisj. intros H. split; intros x Hx; apply H; rewrite elem_of_app; auto.
Qed.

Lemma ldisj_cons_l a l k : ldisj (a :: l) k -> (a ∉ k) /\ ldisj l k.
Proof.
  unfold ldisj. intros H. split.
  - intros Hk. apply (H a); [apply elem_of_cons; auto|assumption].
  - intros x Hx. apply H. apply elem_of_cons. auto.
Qed.

Lemma ldisj_app_r l k1 k2 : ldisj l (k1 ++ k2) -> ldisj l k1 /\ ldisj l k2.
Proof.
  unfold ldisj. intros H.
  split; intros x Hx Hk; apply (H x Hx); rewrite elem_of_app; auto.
Qed.

Lemma ldisj_cons_r l a k : ldisj l (a :: k) -> (a ∉ l) /\ ldisj l k.
Proof.
  unfold ldisj. intros H. split.
  - intros Hl. apply (H a Hl). apply elem_of_cons. auto.
  - intros x Hx Hk. apply (H x Hx). apply elem_of_cons. auto.
Qed.

Lemma notin_app_inv a l k : a ∉ l ++ k -> (a ∉ l) /\ (a ∉ k).
Proof. rewrite not_elem_of_app. tauto. Qed.

Lemma notin_cons_inv a b l : a ∉ b :: l -> a <> b /\ (a ∉ l).
Proof. rewrite not_elem_of_cons. tauto. Qed.

Lemma Forall_app_inv {P : Z -> Prop} l k : Forall P (l ++ k) -> Forall P l /\ Forall P k.
Proof. rewrite Forall_app. tauto. Qed.

Lemma Forall_cons_inv {P : Z -> Prop} a l : Forall P (a :: l) -> P a /\ Forall P l.
Proof. rewrite Forall_cons. tauto. Qed.

Lemma ne_of_notin a b l : a ∉ l -> b ∈ l -> a <> b.
Proof. intros Ha Hb ->. contradiction. Qed.

Lemma ne_of_notin' a b l : a ∉ l -> b ∈ l -> b <> a.
Proof. intros Ha Hb ->. contradiction. Qed.

Lemma notin_of_ldisj b l k : ldisj l k -> b ∈ l -> b ∉ k.
Proof. intros H Hb Hk. exact (H b Hb Hk). Qed.

Lemma notin_of_ldisj' b l k : ldisj k l -> b ∈ l -> b ∉ k.
Proof. intros H Hb Hk. exact (H b Hk Hb). Qed.

Lemma notin_caddrs a C : a ∉ cleft C -> a ∉ cright C -> a ∉ caddrs C.
Proof. unfold caddrs. rewrite not_elem_of_app. tauto. Qed.

Lemma ldisj_caddrs_r l C : ldisj l (cleft C) -> ldisj l (cright C) -> ldisj l (caddrs C).
Proof.
  unfold ldisj, caddrs. intros H1 H2 x Hx. rewrite elem_of_app.
  intros [?|?]; eauto.
Qed.

Lemma ldisj_caddrs_l C (k : list Z) :
  ldisj (cleft C) k -> ldisj (cright C) k -> ldisj (caddrs C) k.
Proof.
  unfold ldisj, caddrs. intros H1 H2 x Hx. apply elem_of_app in Hx.
  destruct Hx; eauto.
Qed.

Lemma ldisj_sym l k : ldisj l k -> ldisj k l.
Proof. unfold ldisj. eauto. Qed.

End Distinct.

(** Break a [NoDup], [ldisj], [∉] or [Forall] hypothesis about a list built
    with [++] and [::] into its atomic consequences. *)
Ltac split_ni H :=
  lazymatch type of H with
  | ~ (_ ∈ _ ++ _) =>
      let H1 := fresh "NI" in let H2 := fresh "NI" in
      apply notin_app_inv in H; destruct H as [H1 H2]; split_ni H1; split_ni H2
  | ~ (_ ∈ _ :: _) =>
      let H1 := fresh "NE" in let H2 := fresh "NI" in
      apply notin_cons_inv in H; destruct H as [H1 H2]; split_ni H2
  | ~ (_ ∈ []) => clear H
  | _ => idtac
  end.

Ltac split_dj H :=
  lazymatch type of H with
  | ldisj (_ ++ _) _ =>
      let H1 := fresh "DJ" in let H2 := fresh "DJ" in
      apply ldisj_app_l in H; destruct H as [H1 H2]; split_dj H1; split_dj H2
  | ldisj (_ :: _) _ =>
      let H1 := fresh "NI" in let H2 := fresh "DJ" in
      apply ldisj_cons_l in H; destruct H as [H1 H2]; split_ni H1; split_dj H2
  | ldisj [] _ => clear H
  | ldisj _ (_ ++ _) =>
      let H1 := fresh "DJ" in let H2 := fresh "DJ" in
      apply ldisj_app_r in H; destruct H as [H1 H2]; split_dj H1; split_dj H2
  | ldisj _ (_ :: _) =>
      let H1 := fresh "NI" in let H2 := fresh "DJ" in
      apply ldisj_cons_r in H; destruct H as [H1 H2]; split_ni H1; split_dj H2
  | ldisj _ [] => clear H
  | _ => idtac
  end.

Ltac split_nd H :=
  lazymatch type of H with
  | NoDup (_ ++ _) =>
      let H1 := fresh "ND" in let H2 := fresh "ND" in let H3 := fresh "DJ" in
      apply NoDup_app_inv in H; destruct H as (H1 & H2 & H3);
      split_nd H1; split_nd H2; split_dj H3
  | NoDup (_ :: _) =>
      let H1 := fresh "NI" in let H2 := fresh "ND" in
      apply NoDup_cons_inv in H; destruct H as [H1 H2]; split_ni H1; split_nd H2
  | NoDup [] => clear H
  | _ => idtac
  end.

Ltac split_fa H :=
  lazymatch type of H with
  | Forall _ (_ ++ _) =>
      let H1 := fresh "FA" in let H2 := fresh "FA" in
      apply Forall_app_inv in H; destruct H as [H1 H2]; split_fa H1; split_fa H2
  | Forall _ (_ :: _) =>
      let H1 := fresh "AD" in let H2 := fresh "FA" in
      apply Forall_cons_inv in H; destruct H as [H1 H2]; split_fa H2
  | Forall _ [] => clear H
  | _ => idtac
  end.

(** ** Frame lemmas and the context's child slot *)

Section Frames.

Implicit Types (h : gmap Z RBNode) (C : ctx) (t : tree) (f : frame).

Lemma shape_insert h par t a v :
  a ∉ inorder t -> shape h par t -> shape (<[a := v]> h) par t.
Proof.
  intros Ha. apply shape_agree. intros b Hb.
  apply lookup_insert_ne. intros ->. contradiction.
Qed.

Lemma cshape_insert h par0 C hole a v :
  a ∉ caddrs C -> cshape h par0 C hole -> cshape (<[a := v]> h) par0 C hole.
Proof.
  intros Ha. apply cshape_agree. intros b Hb.
  apply lookup_insert_ne. intros ->. contradiction.
Qed.

Lemma shape_frame h h' (L : list Z) par t :
  (forall b, b ∉ L -> h' !! b = h !! b) ->
  ldisj (inorder t) L -> shape h par t -> shape h' par t.
Proof.
  intros Hfr Hd. apply shape_agree. intros b Hb. apply Hfr.
  intros HL. exact (Hd b Hb HL).
Qed.

Lemma NoDup_app_mid (l m r : list Z) : NoDup (l ++ m ++ r) -> NoDup (l ++ r).
Proof.
  rewrite !NoDup_app. intros (Hl & Hd & Hm & Hd' & Hr).
  split; [assumption|]. split; [|assumption].
  intros x Hx Hxr. apply (Hd x Hx). rewrite elem_of_app. auto.
Qed.

Lemma Forall_app_mid (P : Z -> Prop) (l m r : list Z) :
  Forall P (l ++ m ++ r) -> Forall P (l ++ r).
Proof. rewrite !Forall_app. tauto. Qed.

Lemma NoDup_caddrs_cons f C :
  NoDup (caddrs (f :: C)) ->
  (faddr f ∉ inorder (fsib f)) /\ (faddr f ∉ caddrs C)
  /\ ldisj (inorder (fsib f)) (caddrs C) /\ NoDup (caddrs C).
Proof.
  unfold caddrs. destruct f as [c a r|c l a]; simpl; intros H.
  - change (NoDup (cleft C ++ (a :: inorder r) ++ cright C)) in H.
    pose proof (NoDup_app_mid _ _ _ H) as Hm.
    apply NoDup_app_inv in H. destruct H as (H1 & H2 & H3).
    simpl in H2, H3. split_nd H2. split_dj H3.
    repeat split; try assumption.
    + rewrite not_elem_of_app. auto.
    + intros x Hx. rewrite elem_of_app. unfold ldisj in *.
      intros [Hl|Hr]; eauto.
  - rewrite <- app_assoc in H.
    pose proof (NoDup_app_mid _ _ _ H) as Hm.
    apply NoDup_app_inv in H. destruct H as (H1 & H2 & H3).
    rewrite <- app_assoc in H2. simpl in H2, H3. split_nd H2. split_dj H3.
    repeat split; try assumption.
    + rewrite not_elem_of_app. auto.
    + intros x Hx. rewrite elem_of_app. unfold ldisj in *.
      intros [Hl|Hr]; eauto.
Qed.

Lemma Forall_caddrs_cons (P : Z -> Prop) f C :
  Forall P (caddrs (f :: C)) -> P (faddr f) /\ Forall P (caddrs C).
Proof.
  unfold caddrs. destruct f as [c a r|c l a]; simpl;
    rewrite ?Forall_app, ?Forall_cons, ?Forall_app, ?Forall_cons; tauto.
Qed.

Lemma aligned4_cpar C : Forall node_addr (caddrs C) -> Word.aligned4 (cpar NULL C).
Proof.
  destruct C as [|f C]; simpl; [intros _; apply aligned4_NULL|].
  intros H. apply Forall_caddrs_cons in H. apply H.
Qed.

(** The reference [old] is not the other child of the frame above it. *)
Lemma fsib_ptr_ne f old :
  old <> NULL -> old ∉ inorder (fsib f) -> ptr (fsib f) <> old.
Proof.
  intros Hn Hni Heq. destruct (fsib f) as [|c l a r]; simpl in *.
  - congruence.
  - subst. apply Hni. rewrite elem_of_app, elem_of_cons. auto.
Qed.

(** [__rb_change_child old n parent root] where [parent] is the innermost
    frame of a context that points at [old]: the context then points at [n]. *)
Lemma run_change_child_ctx {A : Type} h C old new (k : unit -> M A) :
  cshape h NULL C old ->
  old <> NULL -> old ∉ caddrs C ->
  NoDup (caddrs C) -> Forall node_addr (caddrs C) ->
  exists h',
    bind (__rb_change_child old new (cpar NULL C)) k (mkStore h (ctop C old))
    = k tt (mkStore h' (ctop C new))
    /\ cshape h' NULL C new
    /\ (forall b, b ∉ caddrs C -> h' !! b = h !! b).
Proof.
  intros Hc Hold Hni HND HFA. destruct C as [|f C].
  - exists h. simpl. auto.
  - apply NoDup_caddrs_cons in HND. destruct HND as (Hfs & Hfc & Hdj & HND).
    apply Forall_caddrs_cons in HFA. destruct HFA as ([Hfn Hfa] & HFA).
    simpl in Hc. destruct Hc as (Hf & Hs & Hup).
    rewrite elem_of_caddrs_cons in Hni.
    assert (Hsib : ptr (fsib f) <> old) by (apply fsib_ptr_ne; tauto).
    unfold __rb_change_child. cbn [cpar].
    rewrite (proj2 (Z.eqb_neq _ _) Hfn). cbn [negb].
    destruct f as [c a r|c l a]; cbn [faddr fsib fcell] in *.
    + rewrite run_bind. erewrite run_get_left by eassumption.
      rewrite Z.eqb_refl.
      erewrite run_set_left by eassumption.
      eexists. split; [reflexivity|]. split.
      * simpl. rewrite lookup_insert_eq. split; [reflexivity|].
        split; [apply shape_insert; assumption|].
        apply cshape_insert; assumption.
      * intros b Hb. apply lookup_insert_ne. intros ->. apply Hb.
        apply elem_of_caddrs_cons. auto.
    + rewrite run_bind. erewrite run_get_left by eassumption.
      rewrite (proj2 (Z.eqb_neq _ _) Hsib).
      erewrite run_set_right by eassumption.
      eexists. split; [reflexivity|]. split.
      * simpl. rewrite lookup_insert_eq. split; [reflexivity|].
        split; [apply shape_insert; assumption|].
        apply cshape_insert; assumption.
      * intros b Hb. apply lookup_insert_ne. intros ->. apply Hb.
        apply elem_of_caddrs_cons. auto.
Qed.

End Frames.

(** ** Symbolic execution of a program on a known neighbourhood *)

Lemma run_red_parent_of_red {A : Type} h root a p r l (k : Z -> M A) :
  a <> NULL -> h !! a = Some (mkRBNode (pc_of_parent_color p (color_bit Red)) r l) ->
  bind (rb_red_parent a) k (mkStore h root) = k p (mkStore h root).
Proof.
  intros Ha Hn. rewrite (run_rb_red_parent _ _ _ _ _ _ _ Ha Hn), rd_red. reflexivity.
Qed.

Ltac aligned_tac :=
  match goal with
  | H : node_addr ?a |- Word.aligned4 ?a => exact (proj2 H)
  | |- Word.aligned4 NULL => exact aligned4_NULL
  | |- Word.aligned4 (cpar NULL _) => apply aligned4_cpar; assumption
  end.

Ltac dj_atom := solve [ assumption | apply ldisj_sym; assumption ].

Ltac notin :=
  solve [ assumption
        | apply notin_caddrs; assumption
        | eapply notin_of_ldisj; [dj_atom|eassumption]
        | eapply notin_of_ldisj'; [dj_atom|eassumption] ].

Ltac diseq :=
  solve [ assumption
        | apply not_eq_sym; assumption
        | match goal with
          | H : node_addr ?a |- ?a <> NULL => exact (proj1 H)
          | H : node_addr ?a |- NULL <> ?a => exact (not_eq_sym (proj1 H))
          end
        | eapply ne_of_notin; eassumption
        | eapply ne_of_notin'; eassumption
        | match goal with
          | H : node_addr ?a |- ptr _ <> ?a => apply ptr_ne; [exact (proj1 H)|notin]
          | H : node_addr ?a |- ?a <> ptr _ =>
              apply not_eq_sym; apply ptr_ne; [exact (proj1 H)|notin]
          end ].

Ltac ldisj_tac :=
  solve [ repeat first [ apply ldisj_caddrs_r | apply ldisj_caddrs_l ]; dj_atom ].

(** Read a cell of a store given as a stack of updates. *)
Ltac lookup :=
  repeat first [ rewrite lookup_insert_eq
               | rewrite lookup_insert_ne by diseq
               | match goal with
                 | Hfr : forall b, b ∉ _ -> ?h' !! b = _ |- ?h' !! _ = _ =>
                     rewrite Hfr by notin
                 end ];
  first [ reflexivity | eassumption ].

Ltac side := first [ diseq | lookup ].

Ltac decide_eqb :=
  match goal with
  | |- context [?x =? ?y] =>
      first [ constr_eq x y; rewrite (Z.eqb_refl x)
            | rewrite (proj2 (Z.eqb_neq x y)) by diseq ]
  end.

Ltac norm_words :=
  rewrite ?rd_is_black, ?rd_is_red, ?rd_parent, ?rd_color, ?wr_set_parent, ?wr_set_black
    by aligned_tac.

Ltac exec_step :=
  first
    [ rewrite run_bind
    | rewrite run_ret
    | erewrite run_get_left by side
    | erewrite run_get_right by side
    | erewrite run_red_parent_of_red by side
    | erewrite run_RBNode_parent by side
    | erewrite run_rb_is_red by side
    | erewrite run_rb_is_black by side
    | erewrite run_set_left by side
    | erewrite run_set_right by side
    | erewrite run_rb_set_parent_color by side
    | erewrite run_rb_set_parent by side
    | erewrite run_rb_set_black by side
    | erewrite run_get_parent_color by side
    | erewrite run_set_parent_color by side
    | decide_eqb ].

Ltac exec :=
  repeat (exec_step; norm_words;
          cbn [negb is_black ptr col fcolor faddr fsib cpar]; cbv beta iota zeta).

Ltac run_change_child :=
  match goal with
  | |- context [bind (__rb_change_child ?old ?new (cpar NULL ?C)) ?k
                  (mkStore ?h (ctop ?C ?old))] =>
      let h' := fresh "h'" in
      let Hrun := fresh "Hrun" in
      let Hc' := fresh "Hc'" in
      let Hfr := fresh "Hfr" in
      destruct (run_change_child_ctx h C old new k) as (h' & Hrun & Hc' & Hfr);
      [ repeat (apply cshape_insert; [notin|]); eassumption
      | diseq | notin | assumption | assumption
      | rewrite Hrun; clear Hrun ]
  end.

Ltac shape_opaque :=
  lazymatch goal with
  | |- shape _ _ Leaf => exact I
  | Hfr : (forall b, b ∉ _ -> ?h' !! b = _) |- shape ?h' _ _ =>
      eapply (shape_frame _ h' _ _ _ Hfr); [ldisj_tac|];
      repeat (apply shape_insert; [notin|]); eassumption
  | |- shape _ _ _ =>
      repeat (apply shape_insert; [notin|]); eassumption
  end.

Ltac cshape_opaque :=
  first [ eassumption
        | repeat (apply cshape_insert; [notin|]); eassumption ].

(** Prove [shape h par t] for a tree whose top nodes are explicit. *)
Ltac shape_explicit :=
  cbn [shape]; repeat split; first [ lookup | shape_opaque ].

Ltac finish_run :=
  unfold ret; cbv beta iota; unfold pass_ok, holds; cbn [nodes rb_node].

Ltac destruct_ands :=
  repeat match goal with
    | H : _ /\ _ |- _ => destruct H
    end.

(** Unfold what is known about a tree [plug C t] whose frames near the hole
    and whose subtree top are explicit. *)
Ltac open_tree Hroot Hsh HND HFA :=
  cbn [plug fill cpar faddr recolor blacken] in *;
  rewrite inorder_plug in HND, HFA; cbn [inorder] in HND, HFA;
  let HNDc := fresh "HNDc" in
  let HFAc := fresh "HFAc" in
  pose proof (NoDup_app_mid _ _ _ HND) as HNDc;
  pose proof (Forall_app_mid _ _ _ _ HFA) as HFAc;
  match type of HNDc with NoDup (cleft ?C ++ cright ?C) =>
    change (NoDup (caddrs C)) in HNDc; change (Forall node_addr (caddrs C)) in HFAc end;
  split_nd HND; split_fa HFA;
  rewrite ptr_plug in Hroot; cbn [ptr] in Hroot;
  rewrite shape_plug in Hsh; cbn [shape ptr] in Hsh; destruct_ands.

Ltac close_tree :=
  rewrite ?ptr_plug; cbn [ptr];
  split; [reflexivity|];
  first [ rewrite shape_plug; cbn [ptr cpar]; split; [cshape_opaque | shape_explicit]
        | shape_explicit ].

(** ** The body of [__rb_insert] refines the pass on trees *)

Ltac insert_case Hroot Hsh HND HFA :=
  open_tree Hroot Hsh HND HFA; subst;
  unfold runs_to, __rb_insert_body, __rb_rotate_set_parents;
  exec; try (run_change_child; exec); finish_run;
  (split; [reflexivity|]); close_tree.

Lemma insert_body_refines h root C cn l n r :
  tree_at (mkStore h root) (plug C (Node cn l n r)) ->
  match insert_pass C (Node cn l n r) with
  | Some p => runs_to (__rb_insert_body n (cpar NULL C)) (mkStore h root) (pass_ok p)
  | None => True
  end.
Proof.
  unfold tree_at. cbn [nodes rb_node]. intros (Hroot & Hsh & HND & HFA).
  destruct C as [|f up].
  - cbn [insert_pass]. rewrite <- (app_nil_r (inorder _)) in HND, HFA.
    change (plug [] ?t) with t in *. cbn [shape inorder] in *. destruct_ands.
    rewrite <- app_assoc in HND, HFA. cbn [app] in HND, HFA.
    split_nd HND. split_fa HFA.
    unfold runs_to, __rb_insert_body. cbn [cpar]. simpl (NULL =? NULL). cbv iota.
    exec. finish_run. cbn [ptr] in *. split; [reflexivity|]. split; [assumption|].
    shape_explicit.
  - cbn [insert_pass]. destruct (is_black (fcolor f)) eqn:Hfc.
    + destruct f as [cf p sp|cf sp p]; cbn [fcolor] in Hfc;
        destruct cf; try discriminate;
        insert_case Hroot Hsh HND HFA.
    + destruct up as [|g up2]; [exact I|].
      destruct g as [cg g u|cg u g].
      * destruct (negb (is_black (col u))) eqn:Hu.
        -- destruct u as [|cu ul ua ur]; [discriminate|].
           destruct cu; [|discriminate].
           destruct f as [cf p sp|cf sp p]; cbn [fcolor] in Hfc;
             destruct cf; try discriminate;
             insert_case Hroot Hsh HND HFA.
        -- destruct f as [cf p sp|cf sp p]; cbn [fcolor] in Hfc;
             destruct cf; try discriminate.
           ++ destruct sp as [|csp spl spa spr];
                (destruct u as [|cu ul ua ur]; [|destruct cu; [discriminate|]]);
                insert_case Hroot Hsh HND HFA.
           ++ destruct l as [|cl ll la lr]; destruct r as [|cr rl ra rr];
                (destruct u as [|cu ul ua ur]; [|destruct cu; [discriminate|]]);
                insert_case Hroot Hsh HND HFA.
      * destruct (negb (is_black (col u))) eqn:Hu.
        -- destruct u as [|cu ul ua ur]; [discriminate|].
           destruct cu; [|discriminate].
           destruct f as [cf p sp|cf sp p]; cbn [fcolor] in Hfc;
             destruct cf; try discriminate;
             insert_case Hroot Hsh HND HFA.
        -- destruct f as [cf p sp|cf sp p]; cbn [fcolor] in Hfc;
             destruct cf; try discriminate.
           ++ destruct l as [|cl ll la lr]; destruct r as [|cr rl ra rr];
                (destruct u as [|cu ul ua ur]; [|destruct cu; [discriminate|]]);
                insert_case Hroot Hsh HND HFA.
           ++ destruct sp as [|csp spl spa spr];
                (destruct u as [|cu ul ua ur]; [|destruct cu; [discriminate|]]);
                insert_case Hroot Hsh HND HFA.
Qed.

(** ** The red-black invariants through a context *)

Lemma color_cases (c : color) : c = Red \/ c = Black.
Proof. destruct c; auto. Qed.

Lemma not_red_black (c : color) : c <> Red <-> c = Black.
Proof. destruct c; split; congruence. Qed.

Lemma red_black_plug C t :
  red_black (plug C t) <->
  ctx_ok C (bheight t) /\ sub_ok t /\ (col t = Red -> ctx_black C).
Proof.
  revert t. induction C as [|f C IH]; intros t.
  - unfold red_black, sub_ok. simpl. destruct (col t); intuition congruence.
  - cbn [plug]. rewrite IH. clear IH.
    destruct f as [c a r|c l a];
      cbn [fill ctx_ok fsib fcolor bheight col no_red_red balanced ctx_black];
      unfold sub_ok; 
      cbn [fill ctx_ok fsib fcolor bheight col no_red_red balanced ctx_black].
    + destruct c, (col t) eqn:E; cbn [weight]; rewrite ?Nat.add_0_r;
        intuition (try congruence; try lia).
    + destruct c, (col t) eqn:E; cbn [weight]; rewrite ?Nat.add_0_r;
        intuition (try congruence; try lia).
      all: try (replace (bheight l) with (bheight t) by lia; assumption).
      all: try (replace (bheight t) with (bheight l) by lia; assumption).
Qed.

Lemma inorder_blacken t : inorder (blacken t) = inorder t.
Proof. destruct t; reflexivity. Qed.

Lemma blacken_black t : col t = Black -> blacken t = t.
Proof. destruct t as [|[] ? ? ?]; simpl; congruence. Qed.

Ltac list_eq :=
  rewrite ?inorder_plug; cbn [inorder fill recolor blacken];
  rewrite ?inorder_blacken; cbn [inorder];
  repeat first [ rewrite <- app_assoc | rewrite <- app_comm_cons ];
  cbn [app]; reflexivity.

Lemma insert_pass_inorder C t :
  match insert_pass C t with
  | Some (Done t') => inorder t' = inorder (plug C t)
  | Some (Again C' t1) => inorder (plug C' t1) = inorder (plug C t)
  | None => True
  end.
Proof.
  destruct t as [|cn l n r]; [exact I|].
  destruct C as [|f up]; [reflexivity|].
  cbn [insert_pass]. destruct (is_black (fcolor f)); [reflexivity|].
  destruct up as [|[cg g u|cg u g] up2]; [exact I| |];
    destruct (negb (is_black (col u))); destruct f as [cf p sp|cf sp p];
    cbn [plug]; list_eq.
Qed.

Lemma insert_pass_ok C t :
  insert_inv C t ->
  match insert_pass C t with
  | Some (Done t') => red_black t'
  | Some (Again C' t1) => insert_inv C' t1 /\ (S (length C') < length C)%nat
  | None => False
  end.
Proof.
  unfold insert_inv. intros (Hc & Hs & HC).
  destruct t as [|cn l n r]; [discriminate|]. cbn [col] in Hc. subst cn.
  destruct C as [|f up].
  - unfold red_black, sub_ok in *. simpl in *. intuition.
  - cbn [insert_pass]. destruct (is_black (fcolor f)) eqn:Hf.
    + apply red_black_plug. split; [exact HC|]. split; [exact Hs|].
      intros _. cbn [ctx_black]. destruct (fcolor f); [discriminate|reflexivity].
    + assert (Hfr : fcolor f = Red) by (destruct (fcolor f); [reflexivity|discriminate]).
      cbn [ctx_ok] in HC. destruct HC as (Hsp & Hbsp & Hred & Hup).
      destruct (Hred Hfr) as (Hcsp & Hblk).
      destruct up as [|g up2]; [contradiction|].
      cbn [ctx_black] in Hblk. cbn [ctx_ok] in Hup.
      destruct Hup as (Hu & Hbu & Hgred & Hup2).
      rewrite Hfr, Hblk in *. cbn [weight] in *.
      destruct g as [cg g u|cg u g]; cbn [fcolor fsib] in *; subst cg.
      * destruct (negb (is_black (col u))) eqn:Hcu.
        -- destruct u as [|[] ul ua ur]; try discriminate.
           destruct f as [cf p sp|cf sp p]; cbn [fcolor fsib] in *; subst cf;
             unfold sub_ok in *; simpl in *;
             (split; [|lia]); intuition (try congruence; try lia).
           all: try match goal with |- ctx_ok _ _ => 
                  match goal with H : ctx_ok _ _ |- _ => 
                    eapply eq_ind; [exact H|lia] end end.
        -- assert (Hub : col u = Black) by (destruct (col u); [discriminate|reflexivity]).
           pose proof Hs as ((Hlr & _) & _). destruct (Hlr eq_refl) as (Hcl & Hcr). clear Hlr.
           destruct f as [cf p sp|cf sp p]; cbn [fcolor fsib] in *; subst cf;
             rewrite ?(blacken_black _ Hcsp), ?(blacken_black _ Hcl), ?(blacken_black _ Hcr);
             apply red_black_plug; unfold sub_ok in *; simpl in *;
             intuition (try congruence; try lia).
           all: try match goal with |- ctx_ok _ _ => 
                  match goal with H : ctx_ok _ _ |- _ => 
                    eapply eq_ind; [exact H|lia] end end.
      * destruct (negb (is_black (col u))) eqn:Hcu.
        -- destruct u as [|[] ul ua ur]; try discriminate.
           destruct f as [cf p sp|cf sp p]; cbn [fcolor fsib] in *; subst cf;
             unfold sub_ok in *; simpl in *;
             (split; [|lia]); intuition (try congruence; try lia).
           all: try match goal with |- ctx_ok _ _ => 
                  match goal with H : ctx_ok _ _ |- _ => 
                    eapply eq_ind; [exact H|lia] end end.
        -- assert (Hub : col u = Black) by (destruct (col u); [discriminate|reflexivity]).
           pose proof Hs as ((Hlr & _) & _). destruct (Hlr eq_refl) as (Hcl & Hcr). clear Hlr.
           destruct f as [cf p sp|cf sp p]; cbn [fcolor fsib] in *; subst cf;
             rewrite ?(blacken_black _ Hcsp), ?(blacken_black _ Hcl), ?(blacken_black _ Hcr);
             apply red_black_plug; unfold sub_ok in *; simpl in *;
             intuition (try congruence; try lia).
           all: try match goal with |- ctx_ok _ _ => 
                  match goal with H : ctx_ok _ _ |- _ => 
                    eapply eq_ind; [exact H|lia] end end.
Qed.

(** ** The insertion loop *)

Section Loops.

Lemma runs_to_bind {A B : Type} (m : M A) (k : A -> M B) s (Q : B -> store -> Prop) :
  runs_to m s (fun a s1 => runs_to (k a) s1 Q) -> runs_to (bind m k) s Q.
Proof.
  unfold runs_to, bind. destruct (m s) as [[a s1]|]; auto.
Qed.

Lemma runs_to_weaken {A : Type} (m : M A) s (Q Q' : A -> store -> Prop) :
  (forall a s', Q a s' -> Q' a s') -> runs_to m s Q -> runs_to m s Q'.
Proof.
  unfold runs_to. intros HQ. destruct (m s) as [[a s1]|]; auto.
Qed.

Lemma runs_to_inv {A : Type} (m : M A) s (Q : A -> store -> Prop) :
  runs_to m s Q -> exists a s', m s = Some (a, s') /\ Q a s'.
Proof.
  unfold runs_to. destruct (m s) as [[a s1]|]; [eauto|contradiction].
Qed.

Lemma length_ctx_le C t :
  (length C + length (inorder t) <= length (inorder (plug C t)))%nat.
Proof.
  revert t. induction C as [|f C IH]; intros t; simpl; [lia|].
  specialize (IH (fill f t)).
  destruct f; cbn [fill]; simpl in IH; rewrite length_app in IH; simpl in IH; lia.
Qed.

Lemma tree_at_transport s' t t' :
  holds s' t' -> inorder t' = inorder t ->
  NoDup (inorder t) -> Forall node_addr (inorder t) -> tree_at s' t'.
Proof.
  intros (Hr & Hs) He HND HFA. unfold tree_at. rewrite He. auto.
Qed.

Lemma insert_body_step s node parent C t :
  insert_head s node parent C t ->
  runs_to (__rb_insert_body node parent) s (fun res s' =>
    match res with
    | None => exists t', tree_at s' t' /\ red_black t'
                         /\ inorder t' = inorder (plug C t)
    | Some (node', parent') =>
        exists C' t1, insert_head s' node' parent' C' t1
                      /\ inorder (plug C' t1) = inorder (plug C t)
                      /\ (S (length C') < length C)%nat
    end).
Proof.
  intros (Hinv & Hat & -> & ->).
  pose proof (insert_pass_ok C t Hinv) as Hok.
  pose proof (insert_pass_inorder C t) as Hio.
  destruct Hinv as (Hc & Hinv).
  destruct t as [|cn l n r]; [discriminate|].
  destruct s as [h root].
  pose proof (insert_body_refines h root C cn l n r Hat) as Hrun.
  destruct Hat as (_ & _ & HND & HFA).
  destruct (insert_pass C (Node cn l n r)) as [[t'|C' t1]|]; [| |contradiction].
  - revert Hrun. apply runs_to_weaken. intros res s' (-> & Hh).
    exists t'. split; [|auto]. eapply tree_at_transport; eauto.
  - revert Hrun. apply runs_to_weaken. intros res s' (-> & Hh).
    destruct Hok as (Hinv' & Hlen).
    exists C', t1. split; [|auto]. split; [assumption|].
    split; [|auto]. eapply tree_at_transport; eauto.
Qed.

Lemma insert_loop_spec fuel : forall s node parent C t,
  insert_head s node parent C t ->
  (length C < fuel)%nat ->
  runs_to (__rb_insert_loop fuel node parent) s (fun _ s' =>
    exists t', tree_at s' t' /\ red_black t' /\ inorder t' = inorder (plug C t)).
Proof.
  induction fuel as [|fuel IH]; intros s node parent C t Hhead Hlen; [lia|].
  cbn [__rb_insert_loop]. apply runs_to_bind.
  generalize (insert_body_step _ _ _ _ _ Hhead). apply runs_to_weaken.
  intros [[node' parent']|] s'.
  - intros (C' & t1 & Hhead' & Hio & Hl).
    generalize (IH s' node' parent' C' t1 Hhead' ltac:(lia)).
    apply runs_to_weaken. intros _ s2 (t' & Hat' & Hrb' & Hio').
    exists t'. split; [assumption|]. split; [assumption|]. congruence.
  - intros (t' & ? & ? & ?). unfold runs_to, ret. eauto.
Qed.

(** The cell of the node at the hole of a context. *)
Lemma tree_at_cell s C c l a r :
  tree_at s (plug C (Node c l a r)) ->
  node_addr a
  /\ nodes s !! a
     = Some (mkRBNode (pc_of_parent_color (cpar NULL C) (color_bit c)) (ptr r) (ptr l))
  /\ Word.aligned4 (cpar NULL C).
Proof.
  intros (_ & Hsh & HND & HFA).
  rewrite inorder_plug in HFA. 
  pose proof (Forall_app_mid _ _ _ _ HFA) as HFAc.
  cbn [inorder] in HFA. split_fa HFA.
  apply shape_plug in Hsh. destruct Hsh as (_ & Hsh). cbn [shape] in Hsh.
  split; [assumption|]. split; [apply Hsh|].
  apply aligned4_cpar. exact HFAc.
Qed.

Lemma cell_of_lookup s a nd : a <> NULL -> nodes s !! a = Some nd -> cell s a = Some nd.
Proof. destruct s as [h root]. apply cell_known. Qed.

Lemma insert_spec fuel s C t :
  insert_inv C t -> tree_at s (plug C t) -> (length C < fuel)%nat ->
  runs_to (__rb_insert fuel (ptr t)) s (fun _ s' =>
    exists t', tree_at s' t' /\ red_black t' /\ inorder t' = inorder (plug C t)).
Proof.
  intros Hinv Hat Hlen. unfold __rb_insert. apply runs_to_bind.
  pose proof Hinv as (Hc & _).
  destruct t as [|c l a r]; [discriminate|]. cbn [col] in Hc. subst c.
  destruct (tree_at_cell _ _ _ _ _ _ Hat) as (Ha & Hcell & Hal).
  destruct s as [h root]. cbn [nodes ptr] in *.
  unfold runs_to at 1. unfold rb_red_parent, get_parent_color.
  rewrite (run_load _ _ _ _ _ (proj1 Ha) Hcell). unfold ret.
  cbn [__rb_parent_color]. rewrite rd_red.
  apply insert_loop_spec; [|assumption].
  split; [assumption|]. split; [assumption|]. split; reflexivity.
Qed.

Lemma run_end {A : Type} (m : M A) s : m s = bind m ret s.
Proof. unfold bind, ret. destruct (m s) as [[a s']|]; reflexivity. Qed.

Lemma NoDup_insert_mid (l1 l2 : list Z) a :
  a ∉ l1 ++ l2 -> NoDup (l1 ++ l2) -> NoDup (l1 ++ a :: l2).
Proof.
  rewrite not_elem_of_app, !NoDup_app, NoDup_cons.
  intros (H1 & H2) (Hl1 & Hd & Hl2). split; [assumption|]. split; [|auto].
  intros x Hx. rewrite not_elem_of_cons. split; [|auto]. intros ->. contradiction.
Qed.

Lemma link_node_spec h root C n nd0 sd :
  tree_at (mkStore h root) (plug C Leaf) ->
  node_addr n -> n ∉ inorder (plug C Leaf) -> h !! n = Some nd0 ->
  ctx_side C sd ->
  runs_to (link_node n (cpar NULL C) sd) (mkStore h root)
    (fun _ s' => tree_at s' (plug C (Node Red Leaf n Leaf))).
Proof.
  unfold tree_at. cbn [nodes rb_node].
  intros (Hroot & Hsh & HND & HFA) AD Hni Hn Hsd.
  destruct nd0 as [pc0 r0 l0].
  assert (HND' : NoDup (inorder (plug C (Node Red Leaf n Leaf)))).
  { rewrite inorder_plug in *. cbn [inorder app] in *.
    apply NoDup_insert_mid; assumption. }
  assert (HFA' : Forall node_addr (inorder (plug C (Node Red Leaf n Leaf)))).
  { rewrite inorder_plug in *. cbn [inorder app] in *.
    rewrite Forall_app, Forall_cons. rewrite Forall_app in HFA. tauto. }
  destruct C as [|[c p r|c l p] up]; cbn [ctx_side] in Hsd; try subst sd.
  - cbn [plug cpar ptr] in *. subst root. unfold runs_to, link_node.
    exec. simpl (NULL =? NULL). cbv iota. unfold set_root.
    cbn [nodes rb_node]. repeat split; try assumption. lookup.
  - rewrite inorder_plug in Hni. cbn [inorder app cleft cright] in Hni. split_ni Hni.
    open_tree Hroot Hsh HND HFA. subst.
    unfold runs_to, link_node. exec. rewrite run_end. exec. unfold ret.
    cbn [nodes rb_node]. rewrite ptr_plug. cbn [ptr]. split; [reflexivity|].
    split; [|auto]. rewrite shape_plug. cbn [ptr cpar].
    split; [cshape_opaque|shape_explicit].
  - rewrite inorder_plug in Hni. cbn [inorder app cleft cright] in Hni. split_ni Hni.
    open_tree Hroot Hsh HND HFA. subst.
    unfold runs_to, link_node. exec. rewrite run_end. exec. unfold ret.
    cbn [nodes rb_node]. rewrite ptr_plug. cbn [ptr]. split; [reflexivity|].
    split; [|auto]. rewrite shape_plug. cbn [ptr cpar].
    split; [cshape_opaque|shape_explicit].
Qed.

Lemma tree_find t a :
  a ∈ inorder t -> exists C c l r, t = plug C (Node c l a r).
Proof.
  induction t as [|c l IHl x r IHr]; simpl; intros Ha.
  - apply elem_of_nil in Ha. contradiction.
  - rewrite elem_of_app, elem_of_cons in Ha. destruct Ha as [Ha|[->|Ha]].
    + destruct (IHl Ha) as (C & c' & l' & r' & ->).
      exists (C ++ [FL c x r]), c', l', r'. rewrite plug_app. reflexivity.
    + exists [], c, l, r. reflexivity.
    + destruct (IHr Ha) as (C & c' & l' & r' & ->).
      exists (C ++ [FR c l x]), c', l', r'. rewrite plug_app. reflexivity.
Qed.

Lemma attach_point_ctx s t p sd :
  tree_at s t -> attach_point s t p sd ->
  exists C, t = plug C Leaf /\ p = cpar NULL C /\ ctx_side C sd.
Proof.
  intros Hat [(-> & ->)|(Hp & nd & Hcell & Hfield)].
  - exists []. repeat split.
  - destruct (tree_find _ _ Hp) as (C & c & l & r & ->).
    destruct (tree_at_cell _ _ _ _ _ _ Hat) as (Ha & Hc & _).
    rewrite (cell_of_lookup _ _ _ (proj1 Ha) Hc) in Hcell.
    injection Hcell as <-.
    destruct Hat as (_ & _ & _ & HFA). rewrite inorder_plug in HFA.
    cbn [inorder] in HFA. split_fa HFA.
    destruct sd; cbn [side_field rb_left rb_right] in Hfield.
    + assert (l = Leaf) as -> by (apply ptr_null_leaf; assumption).
      exists (FL c p r :: C). repeat split.
    + assert (r = Leaf) as -> by (apply ptr_null_leaf; assumption).
      exists (FR c l p :: C). repeat split.
Qed.

(** Linking a red leaf and running the fixup, from a context. *)
Lemma link_insert_spec fuel h root C n nd0 sd :
  tree_at (mkStore h root) (plug C Leaf) -> red_black (plug C Leaf) ->
  node_addr n -> n ∉ inorder (plug C Leaf) -> h !! n = Some nd0 ->
  ctx_side C sd -> (length C < fuel)%nat ->
  runs_to (link_node n (cpar NULL C) sd;; insert_color fuel n) (mkStore h root)
    (fun _ s' => exists t', tree_at s' t' /\ red_black t'
                            /\ inorder t' = cleft C ++ n :: cright C).
Proof.
  intros Hat Hrb Hn Hni Hcell Hsd Hlen. apply runs_to_bind.
  generalize (link_node_spec _ _ _ _ _ _ Hat Hn Hni Hcell Hsd).
  apply runs_to_weaken. intros _ s1 Hat1.
  assert (Hinv : insert_inv C (Node Red Leaf n Leaf)).
  { apply red_black_plug in Hrb. destruct Hrb as (HC & _ & _).
    unfold insert_inv, sub_ok. simpl in *. tauto. }
  generalize (insert_spec fuel s1 C _ Hinv Hat1 Hlen).
  apply runs_to_weaken. intros _ s' (t' & H1 & H2 & H3).
  exists t'. split; [assumption|]. split; [assumption|].
  rewrite H3, inorder_plug. reflexivity.
Qed.

End Loops.

(** C1.  For every store that holds a tree satisfying the red-black
    invariants (root black, no red node with a red child, equal black count
    on every path, parent references consistent with child references), and
    every detached node linked as a red leaf at a free child slot (or as the
    root of the empty tree), the insertion fixup returns and leaves a tree
    that satisfies all four invariants again; its in-order sequence is the
    old one with the new node at the place it was linked. *)
Theorem insert_color_restores_invariants s t p sd n fuel :
  tree_at s t -> red_black t ->
  attach_point s t p sd -> detached s t n ->
  (length (inorder t) < fuel)%nat ->
  runs_to (link_node n p sd;; insert_color fuel n) s (fun _ s' =>
    rb_valid s'
    /\ exists l1 l2, inorder t = l1 ++ l2 /\ in_order s' (l1 ++ n :: l2)).
Proof.
  intros Hat Hrb Hap (Hn & Hni & nd0 & Hcell) Hfuel.
  destruct (attach_point_ctx _ _ _ _ Hat Hap) as (C & -> & -> & Hsd).
  destruct s as [h root].
  assert (Hnd : h !! n = Some nd0).
  { unfold cell in Hcell. cbn [nodes] in Hcell.
    destruct (n =? NULL); [discriminate|assumption]. }
  assert (Hlen : (length C < fuel)%nat).
  { pose proof (length_ctx_le C Leaf). lia. }
  generalize (link_insert_spec fuel h root C n nd0 sd Hat Hrb Hn Hni Hnd Hsd Hlen).
  apply runs_to_weaken. intros _ s' (t' & H1 & H2 & H3).
  split; [exists t'; auto|].
  exists (cleft C), (cright C). split.
  - rewrite inorder_plug. reflexivity.
  - exists t'. auto.
Qed.

(** ** Loop heads of [__rb_insert] and the distance to the root *)

Section LoopHeads.

Lemma tree_at_frame_cell s f up t :
  tree_at s (plug (f :: up) t) ->
  node_addr (faddr f)
  /\ nodes s !! faddr f = Some (fcell (cpar NULL up) (ptr t) f)
  /\ Word.aligned4 (cpar NULL up).
Proof.
  cbn [plug]. destruct f as [c a r|c l a]; cbn [fill faddr fcell];
    apply tree_at_cell.
Qed.

Lemma at_depth_plug s C t :
  tree_at s (plug C t) -> t <> Leaf -> at_depth s (ptr t) (length C).
Proof.
  revert t. induction C as [|f up IH]; intros t Hat Ht.
  - destruct t as [|c l a r]; [congruence|].
    destruct (tree_at_cell s [] c l a r Hat) as (Ha & Hc & Hal). cbn [cpar] in *.
    eapply depth_root; [apply cell_of_lookup; [apply Ha|exact Hc]|].
    cbn [__rb_parent_color]. apply rd_parent. assumption.
  - pose proof (IH (fill f t) Hat ltac:(destruct f; discriminate)) as Hd.
    rewrite ptr_fill in Hd.
    destruct (tree_at_frame_cell s f up t Hat) as (Hf & _ & _).
    destruct t as [|c l a r]; [congruence|].
    destruct (tree_at_cell s (f :: up) c l a r Hat) as (Ha & Hc & Hal).
    cbn [cpar ptr length] in *.
    assert (Hp : __rb_parent (pc_of_parent_color (faddr f) (color_bit c)) = faddr f)
      by (apply rd_parent; assumption).
    eapply depth_child; [apply cell_of_lookup; [apply Ha|exact Hc]| |];
      cbn [__rb_parent_color]; rewrite Hp; [apply Hf|assumption].
Qed.

Lemma insert_loop_head_inv s0 node0 C0 t0 node parent s :
  insert_inv C0 t0 -> tree_at s0 (plug C0 t0) -> node0 = ptr t0 ->
  insert_loop_head s0 node0 node parent s ->
  exists C t, insert_head s node parent C t.
Proof.
  intros Hinv Hat -> Hreach.
  induction Hreach as [parent Hrd|node parent s node' parent' s' _ IH Hbody].
  - exists C0, t0. split; [assumption|]. split; [assumption|]. split; [reflexivity|].
    pose proof Hinv as (Hc & _).
    destruct t0 as [|c l a r]; [discriminate|]. cbn [col] in Hc. subst c.
    destruct (tree_at_cell _ _ _ _ _ _ Hat) as (Ha & Hcell & Hal).
    destruct s0 as [h root]. cbn [nodes ptr] in *.
    rewrite run_end in Hrd. erewrite run_red_parent_of_red in Hrd by eassumption || apply Ha.
    unfold ret in Hrd. congruence.
  - destruct IH as (C & t & Hhead).
    pose proof (insert_body_step _ _ _ _ _ Hhead) as Hstep.
    unfold runs_to in Hstep. rewrite Hbody in Hstep.
    destruct Hstep as (C' & t1 & Hhead' & _). eauto.
Qed.

(** The loop head that linking a red leaf sets up. *)
Lemma link_node_head s t p sd n s1 :
  tree_at s t -> red_black t -> attach_point s t p sd -> detached s t n ->
  link_node n p sd s = Some (tt, s1) ->
  exists C, t = plug C Leaf /\ p = cpar NULL C
            /\ insert_inv C (Node Red Leaf n Leaf)
            /\ tree_at s1 (plug C (Node Red Leaf n Leaf)).
Proof.
  intros Hat Hrb Hap (Hn & Hni & nd0 & Hcell) Hlink.
  destruct (attach_point_ctx _ _ _ _ Hat Hap) as (C & -> & -> & Hsd).
  destruct s as [h root].
  assert (Hnd : h !! n = Some nd0).
  { unfold cell in Hcell. cbn [nodes] in Hcell.
    destruct (n =? NULL); [discriminate|assumption]. }
  pose proof (link_node_spec _ _ _ _ _ _ Hat Hn Hni Hnd Hsd) as Hrun.
  unfold runs_to in Hrun. rewrite Hlink in Hrun.
  exists C. split; [reflexivity|]. split; [reflexivity|]. split; [|assumption].
  apply red_black_plug in Hrb. destruct Hrb as (HC & _ & _).
  unfold insert_inv, sub_ok. simpl in *. tauto.
Qed.

Lemma insert_head_reads s node parent C t :
  insert_head s node parent C t ->
  rb_is_red node s = Some (true, s)
  /\ rb_red_parent node s = Some (parent, s)
  /\ RBNode_parent node s = Some (parent, s)
  /\ (parent <> NULL -> rb_is_red parent s = Some (true, s) ->
      exists g, rb_red_parent parent s = Some (g, s)
                /\ RBNode_parent parent s = Some (g, s)).
Proof.
  intros ((Hc & _) & Hat & -> & ->).
  destruct t as [|c l a r]; [discriminate|]. cbn [col] in Hc. subst c.
  destruct (tree_at_cell _ _ _ _ _ _ Hat) as (Ha & Hcell & Hal).
  destruct s as [h root]. cbn [nodes ptr] in *.
  repeat split.
  - rewrite run_end. erewrite run_rb_is_red by (eassumption || apply Ha).
    rewrite rd_is_red by assumption. reflexivity.
  - rewrite run_end. erewrite run_red_parent_of_red by (eassumption || apply Ha).
    reflexivity.
  - rewrite run_end. erewrite run_RBNode_parent by (eassumption || apply Ha).
    rewrite rd_parent by assumption. reflexivity.
  - intros Hp Hred. destruct C as [|f up]; [cbn [cpar] in Hp; congruence|].
    destruct (tree_at_frame_cell _ _ _ _ Hat) as (Hf & Hfc & Hfal).
    cbn [nodes cpar] in *. exists (cpar NULL up).
    assert (Hfr : fcolor f = Red).
    { rewrite run_end in Hred.
      destruct f as [cf p sp|cf sp p]; cbn [faddr fcell fcolor] in *;
        erewrite run_rb_is_red in Hred by (eassumption || apply Hf);
        rewrite rd_is_red in Hred by assumption;
        destruct cf; [reflexivity|discriminate|reflexivity|discriminate]. }
    destruct f as [cf p sp|cf sp p]; cbn [faddr fcell fcolor] in *; subst cf;
      (split; rewrite run_end;
       [ erewrite run_red_parent_of_red by (eassumption || apply Hf); reflexivity
       | erewrite run_RBNode_parent by (eassumption || apply Hf);
         rewrite rd_parent by assumption; reflexivity ]).
Qed.

End LoopHeads.

(** C9.  At the head of every iteration of the insertion fixup loop the
    current node is red, so that [rb_red_parent], which reads the whole
    packed word, agrees with the masking accessor on the current node, and
    on its parent whenever that parent is red.  The quantification over all
    loop heads is the preservation of the invariant by every case. *)
Theorem insert_loop_node_is_red s t p sd n s1 node parent s2 :
  tree_at s t -> red_black t -> attach_point s t p sd -> detached s t n ->
  link_node n p sd s = Some (tt, s1) ->
  insert_loop_head s1 n node parent s2 ->
  rb_is_red node s2 = Some (true, s2)
  /\ rb_red_parent node s2 = Some (parent, s2)
  /\ RBNode_parent node s2 = Some (parent, s2)
  /\ (parent <> NULL -> rb_is_red parent s2 = Some (true, s2) ->
      exists g, rb_red_parent parent s2 = Some (g, s2)
                /\ RBNode_parent parent s2 = Some (g, s2)).
Proof.
  intros Hat Hrb Hap Hdet Hlink Hreach.
  destruct (link_node_head _ _ _ _ _ _ Hat Hrb Hap Hdet Hlink)
    as (C0 & _ & _ & Hinv & Hat1).
  destruct (insert_loop_head_inv _ _ _ _ _ _ _ Hinv Hat1 eq_refl Hreach)
    as (C & t1 & Hhead).
  exact (insert_head_reads _ _ _ _ _ Hhead).
Qed.


(** ** The packed word read back *)

(** C7.  For a parent reference aligned to four bytes and a color in
    {red, black}: after [rb_set_parent_color] the masked read gives the
    parent and the low bit gives the color; [rb_set_parent] installs the new
    parent and keeps the color bit; [rb_set_black] sets the color bit, keeps
    the parent and every bit other than bit 0. *)
Theorem packed_word_roundtrip s rb nd p c :
  cell s rb = Some nd -> Word.aligned4 p -> c = RB_RED \/ c = RB_BLACK ->
  (exists s1, rb_set_parent_color rb p c s = Some (tt, s1)
              /\ RBNode_parent rb s1 = Some (p, s1)
              /\ rb_color rb s1 = Some (c, s1))
  /\ (exists s1, rb_set_parent rb p s = Some (tt, s1)
                 /\ RBNode_parent rb s1 = Some (p, s1)
                 /\ rb_color rb s1 = Some (__rb_color (__rb_parent_color nd), s1)
                 /\ Z.testbit (pc_set_parent (__rb_parent_color nd) p) 0
                    = Z.testbit (__rb_parent_color nd) 0)
  /\ (exists s1, rb_set_black rb s = Some (tt, s1)
                 /\ RBNode_parent rb s1
                    = Some (__rb_parent (__rb_parent_color nd), s1)
                 /\ rb_color rb s1 = Some (RB_BLACK, s1)
                 /\ forall i, i <> 0 ->
                      Z.testbit (pc_set_black (__rb_parent_color nd)) i
                      = Z.testbit (__rb_parent_color nd) i).
Proof.
  intros Hcell Hp Hc. destruct s as [h root]. destruct nd as [pc r l].
  assert (Hrb : rb <> NULL /\ h !! rb = Some (mkRBNode pc r l)).
  { unfold cell in Hcell. cbn [nodes] in Hcell.
    destruct (Z.eqb_spec rb NULL); [discriminate|auto]. }
  destruct Hrb as (Hne & Hh). cbn [__rb_parent_color].
  assert (Hrd : forall v, <[rb := mkRBNode v r l]> h !! rb = Some (mkRBNode v r l))
    by (intros v; apply lookup_insert_eq).
  split; [|split]; eexists.
  - split; [rewrite run_end; erewrite run_rb_set_parent_color by eassumption;
            reflexivity|].
    split; rewrite run_end.
    + erewrite run_RBNode_parent by (exact Hne || apply Hrd).
      rewrite parent_of_pack by assumption. reflexivity.
    + unfold rb_color. rewrite run_bind.
      erewrite run_get_parent_color by (exact Hne || apply Hrd).
      rewrite color_of_pack by assumption. reflexivity.
  - split; [rewrite run_end; erewrite run_rb_set_parent by eassumption;
            reflexivity|].
    split; [|split].
    + rewrite run_end. erewrite run_RBNode_parent by (exact Hne || apply Hrd).
      rewrite parent_of_set_parent by assumption. reflexivity.
    + rewrite run_end. unfold rb_color. rewrite run_bind.
      erewrite run_get_parent_color by (exact Hne || apply Hrd).
      rewrite color_of_set_parent by assumption. reflexivity.
    + unfold pc_set_parent, __rb_color.
      rewrite Z.lor_spec, Z.land_spec.
      rewrite (aligned4_low_bits p 0 Hp) by lia.
      change (Z.testbit 1 0) with true.
      rewrite andb_true_r, orb_false_r. reflexivity.
  - split; [rewrite run_end; erewrite run_rb_set_black by eassumption;
            reflexivity|].
    split; [|split].
    + rewrite run_end. erewrite run_RBNode_parent by (exact Hne || apply Hrd).
      rewrite parent_of_set_black. reflexivity.
    + rewrite run_end. unfold rb_color. rewrite run_bind.
      erewrite run_get_parent_color by (exact Hne || apply Hrd).
      rewrite color_of_set_black. reflexivity.
    + intros i Hi. unfold pc_set_black. rewrite Z.lor_spec.
      destruct (Z.ltb_spec i 0) as [Hneg|Hpos].
      * rewrite !Z.testbit_neg_r by assumption. reflexivity.
      * rewrite (color_bit_cases RB_BLACK (or_intror eq_refl)) by assumption.
        destruct (Z.eqb_spec i 0); [contradiction|]. apply orb_false_r.
Qed.

(** ** Scenario: inserting the keys 1 to 7 in ascending order *)

Ltac concrete_addrs :=
  repeat first
    [ apply Forall_nil_2
    | apply Forall_cons_2;
      [ split; [discriminate | split; [split; [discriminate|reflexivity] | reflexivity]] | ] ].

Ltac concrete_nodup :=
  repeat first
    [ apply NoDup_nil_2
    | apply NoDup_cons_2;
      [ rewrite ?not_elem_of_cons; repeat split;
        first [ discriminate | apply not_elem_of_nil ] | ] ].

(** C4, as the code has it.  Inserting the keys 1 to 7 in ascending order
    yields the tree with 2 at the black root, 1 black on its left, 4 red on
    its right above the black nodes 3 and 6, and 5 and 7 red below 6; it
    satisfies the invariants and its black height is 2. *)
Theorem insert_1_to_7_builds :
  exists s', Scenario.run [1; 2; 3; 4; 5; 6; 7] = Some (tt, s')
             /\ tree_at s' Seven.built /\ red_black Seven.built
             /\ bheight Seven.built = 2%nat
             /\ inorder Seven.built = map Scenario.addr [1; 2; 3; 4; 5; 6; 7].
Proof.
  eexists. split; [vm_compute; reflexivity|].
  split; [|split; [|split; reflexivity]].
  - split; [reflexivity|]. split; [|split].
    + cbn [shape Seven.built]. repeat split; vm_compute; reflexivity.
    + cbn. concrete_nodup.
    + cbn. concrete_addrs.
  - unfold red_black. cbn. repeat split; intros; congruence.
Qed.

(** C4 as stated fails: the store after the seven insertions does not hold
    the tree with 4 at the root. *)
Lemma insert_1_to_7_root_is_not_4 :
  ~ exists s', Scenario.run [1; 2; 3; 4; 5; 6; 7] = Some (tt, s')
               /\ tree_at s' Seven.expected.
Proof.
  intros (s' & Hrun & Hroot & _).
  vm_compute in Hrun. injection Hrun as <-.
  vm_compute in Hroot. discriminate.
Qed.

(** ** A small instance: a black root and one detached node *)

Lemma small_tree_at : tree_at Small.s0 Small.t0.
Proof.
  split; [reflexivity|]. split; [|split].
  - cbn [shape Small.t0]. repeat split; vm_compute; reflexivity.
  - cbn. concrete_nodup.
  - cbn. concrete_addrs.
Qed.

Lemma small_red_black : red_black Small.t0.
Proof. unfold red_black. cbn. repeat split; intros; congruence. Qed.

Lemma small_attach_right : attach_point Small.s0 Small.t0 16 Right.
Proof.
  right. split.
  - cbn. apply list_elem_of_singleton. reflexivity.
  - exists Small.root_node. split; reflexivity.
Qed.

Lemma small_detached : detached Small.s0 Small.t0 32.
Proof.
  split; [|split].
  - split; [discriminate|]. split; [split; [discriminate|reflexivity]|reflexivity].
  - cbn. rewrite list_elem_of_singleton. discriminate.
  - exists Scenario.blank. reflexivity.
Qed.

Lemma small_link : link_node 32 16 Right Small.s0 = Some (tt, Small.s1).
Proof. vm_compute. reflexivity. Qed.

Lemma insert_color_restores_invariants_witness :
  runs_to (link_node 32 16 Right;; insert_color 2 32) Small.s0 (fun _ s' =>
    rb_valid s'
    /\ exists l1 l2, inorder Small.t0 = l1 ++ l2 /\ in_order s' (l1 ++ 32 :: l2)).
Proof.
  apply (insert_color_restores_invariants Small.s0 Small.t0 16 Right 32 2).
  - exact small_tree_at.
  - exact small_red_black.
  - exact small_attach_right.
  - exact small_detached.
  - simpl. lia.
Defined.


Lemma insert_loop_node_is_red_witness :
  rb_is_red 32 Small.s1 = Some (true, Small.s1)
  /\ rb_red_parent 32 Small.s1 = Some (16, Small.s1)
  /\ RBNode_parent 32 Small.s1 = Some (16, Small.s1)
  /\ (16 <> NULL -> rb_is_red 16 Small.s1 = Some (true, Small.s1) ->
      exists g, rb_red_parent 16 Small.s1 = Some (g, Small.s1)
                /\ RBNode_parent 16 Small.s1 = Some (g, Small.s1)).
Proof.
  apply (insert_loop_node_is_red Small.s0 Small.t0 16 Right 32 Small.s1 32 16 Small.s1).
  - exact small_tree_at.
  - exact small_red_black.
  - exact small_attach_right.
  - exact small_detached.
  - exact small_link.
  - apply loop_enter. vm_compute. reflexivity.
Defined.

Lemma packed_word_roundtrip_witness :
  (exists s1, rb_set_parent_color 32 16 RB_BLACK Small.s0 = Some (tt, s1)
              /\ RBNode_parent 32 s1 = Some (16, s1)
              /\ rb_color 32 s1 = Some (RB_BLACK, s1))
  /\ (exists s1, rb_set_parent 32 16 Small.s0 = Some (tt, s1)
                 /\ RBNode_parent 32 s1 = Some (16, s1)
                 /\ rb_color 32 s1
                    = Some (__rb_color (__rb_parent_color Scenario.blank), s1)
                 /\ Z.testbit (pc_set_parent (__rb_parent_color Scenario.blank) 16) 0
                    = Z.testbit (__rb_parent_color Scenario.blank) 0)
  /\ (exists s1, rb_set_black 32 Small.s0 = Some (tt, s1)
                 /\ RBNode_parent 32 s1
                    = Some (__rb_parent (__rb_parent_color Scenario.blank), s1)
                 /\ rb_color 32 s1 = Some (RB_BLACK, s1)
                 /\ forall i, i <> 0 ->
                      Z.testbit (pc_set_black (__rb_parent_color Scenario.blank)) i
                      = Z.testbit (__rb_parent_color Scenario.blank) i).
Proof.
  apply (packed_word_roundtrip Small.s0 32 Scenario.blank 16 RB_BLACK).
  - reflexivity.
  - split; [split; [discriminate|reflexivity]|reflexivity].
  - right. reflexivity.
Defined.

(** ** Replacement *)

Ltac shape_frames :=
  repeat first
    [ apply shape_insert; [notin|]
    | match goal with
      | Hfr : (forall b, b ∉ _ -> ?h' !! b = _) |- shape ?h' _ _ =>
          eapply (shape_frame _ h' _ _ _ Hfr); [ldisj_tac|]
      end ];
  first [ exact I | eassumption ].

Ltac shape_nodes :=
  cbn [shape]; repeat split; first [ lookup | shape_frames ].

Section Replace.

Lemma NoDup_replace_mid (l1 l2 : list Z) a b :
  b ∉ l1 ++ a :: l2 -> NoDup (l1 ++ a :: l2) -> NoDup (l1 ++ b :: l2).
Proof.
  rewrite not_elem_of_app, not_elem_of_cons, !NoDup_app, !NoDup_cons.
  intros (H1 & Hne & H2) (Hl1 & Hd & Ha & Hl2).
  split; [assumption|]. split; [|auto].
  intros x Hx Hin. apply elem_of_cons in Hin. destruct Hin as [->|Hin].
  - contradiction.
  - apply (Hd x Hx). apply elem_of_cons. auto.
Qed.

Lemma replace_spec h root C c l v r n nd0 :
  tree_at (mkStore h root) (plug C (Node c l v r)) ->
  node_addr n -> n ∉ inorder (plug C (Node c l v r)) -> h !! n = Some nd0 ->
  runs_to (replace v n) (mkStore h root) (fun _ s' =>
    tree_at s' (plug C (Node c l n r))
    /\ nodes s' !! n = h !! v).
Proof.
  unfold tree_at. cbn [nodes rb_node].
  intros (Hroot & Hsh & HND & HFA) AD Hni Hn.
  assert (HND' : NoDup (inorder (plug C (Node c l n r)))).
  { rewrite inorder_plug in *. cbn [inorder] in *. rewrite <- app_assoc in *.
    cbn [app] in *. rewrite app_assoc in *.
    eapply NoDup_replace_mid; eassumption. }
  assert (HFA' : Forall node_addr (inorder (plug C (Node c l n r)))).
  { rewrite inorder_plug in *. cbn [inorder] in *.
    rewrite !Forall_app, Forall_cons in *. tauto. }
  rewrite inorder_plug in Hni.
  destruct l as [|cl ll la lr]; destruct r as [|cr rl ra rr];
    cbn [inorder] in Hni; split_ni Hni;
    open_tree Hroot Hsh HND HFA; subst root;
    unfold runs_to, replace; exec; run_change_child; exec;
    erewrite run_load by side; rewrite run_end;
    erewrite run_store_node by side; unfold ret; cbn [nodes rb_node].
  all: split; [|rewrite lookup_insert_eq; symmetry; eassumption].
  all: rewrite ptr_plug; cbn [ptr]; (split; [reflexivity|]).
  all: split; [|auto].
  all: rewrite shape_plug; cbn [ptr cpar]; (split; [cshape_opaque|shape_nodes]).
Qed.

Lemma red_black_swap_addr C c l a b r :
  red_black (plug C (Node c l a r)) -> red_black (plug C (Node c l b r)).
Proof. rewrite !red_black_plug. unfold sub_ok. simpl. tauto. Qed.

Lemma cell_lookup s a : a <> NULL -> cell s a = nodes s !! a.
Proof. unfold cell. intros Ha. destruct (Z.eqb_spec a NULL); [contradiction|reflexivity]. Qed.

End Replace.

(** C6.  On a store holding a red-black tree, [replace(victim, new)] with
    [victim] in the tree and [new] detached returns; afterwards [new] holds
    the three words [victim] held, the tree is the old one with [new] in the
    place of [victim] (same context, same colors, same subtrees, the
    references around redirected), it satisfies all the invariants, and its
    in-order sequence is the old one with [new] in the position of
    [victim]. *)
Theorem replace_preserves_tree s t victim n :
  tree_at s t -> red_black t -> victim ∈ inorder t -> detached s t n ->
  runs_to (replace victim n) s (fun _ s' =>
    cell s' n = cell s victim
    /\ rb_valid s'
    /\ (exists C c l r, t = plug C (Node c l victim r)
                        /\ tree_at s' (plug C (Node c l n r)))
    /\ (exists l1 l2, inorder t = l1 ++ victim :: l2
                      /\ in_order s' (l1 ++ n :: l2))).
Proof.
  intros Hat Hrb Hv (Hn & Hni & nd0 & Hcell).
  destruct (tree_find _ _ Hv) as (C & c & l & r & ->).
  destruct (tree_at_cell _ _ _ _ _ _ Hat) as (Hva & _ & _).
  destruct s as [h root].
  rewrite cell_lookup in Hcell by apply Hn. cbn [nodes] in Hcell.
  generalize (replace_spec h root C c l victim r n nd0 Hat Hn Hni Hcell).
  apply runs_to_weaken. intros _ s' (Hat' & Hcopy).
  pose proof (red_black_swap_addr _ _ _ _ n _ Hrb) as Hrb'.
  split; [|split; [|split]].
  - rewrite !cell_lookup by (apply Hn || apply Hva). exact Hcopy.
  - exists (plug C (Node c l n r)). auto.
  - exists C, c, l, r. auto.
  - exists (cleft C ++ inorder l), (inorder r ++ cright C). split.
    + rewrite inorder_plug. cbn [inorder]. rewrite <- !app_assoc. reflexivity.
    + exists (plug C (Node c l n r)). split; [assumption|].
      rewrite inorder_plug. cbn [inorder]. rewrite <- !app_assoc. reflexivity.
Qed.

Lemma replace_preserves_tree_witness :
  runs_to (replace 16 32) Small.s0 (fun _ s' =>
    cell s' 32 = cell Small.s0 16
    /\ rb_valid s'
    /\ (exists C c l r, Small.t0 = plug C (Node c l 16 r)
                        /\ tree_at s' (plug C (Node c l 32 r)))
    /\ (exists l1 l2, inorder Small.t0 = l1 ++ 16 :: l2
                      /\ in_order s' (l1 ++ 32 :: l2))).
Proof.
  apply (replace_preserves_tree Small.s0 Small.t0 16 32).
  - exact small_tree_at.
  - exact small_red_black.
  - cbn. apply list_elem_of_singleton. reflexivity.
  - exact small_detached.
Defined.

(** ** The erase fixup on trees *)

Ltac erase_open Hroot Hsh HND HFA :=
  open_tree Hroot Hsh HND HFA; subst;
  unfold runs_to, erase_color_left_rest, erase_color_right_rest,
    erase_color_left_tail, erase_color_right_tail, __rb_rotate_set_parents.

Ltac erase_close :=
  unfold ret; cbv beta iota; unfold erase_ok, holds; cbn [nodes rb_node];
  (split; [reflexivity|]);
  rewrite ?ptr_plug; cbn [ptr];
  (split; [reflexivity|]);
  first [ rewrite shape_plug; cbn [ptr cpar]; split; [cshape_opaque | shape_nodes]
        | shape_nodes ].

Ltac erase_case Hroot Hsh HND HFA :=
  erase_open Hroot Hsh HND HFA;
  exec; try (run_change_child; exec); erase_close.

(** Case 2 under a black parent: the test of the grandparent splits on the
    rest of the path. *)
Ltac erase_case2 Hroot Hsh HND HFA :=
  erase_open Hroot Hsh HND HFA; exec;
  match goal with
  | HFAc : Forall node_addr (caddrs ?up) |- _ =>
      destruct up as [|f0 up0];
      [ | let AD := fresh "AD" in
          pose proof (proj1 (Forall_caddrs_cons _ _ _ HFAc)) as AD ]
  end;
  cbn [cpar]; exec; erase_close.

Lemma erase_rest_refines h root up f x :
  tree_at (mkStore h root) (plug (f :: up) x) ->
  match erase_rest up f x with
  | Some ps => runs_to (erase_color_rest f) (mkStore h root) (erase_ok ps)
  | None => True
  end.
Proof.
  unfold tree_at. cbn [nodes rb_node]. intros (Hroot & Hsh & HND & HFA).
  destruct f as [cp p w|cp w p]; cbn [erase_rest erase_color_rest].
  - destruct w as [|cw wl wa wr]; [exact I|].
    destruct (is_black (col wr)) eqn:Hwr.
    + destruct (is_black (col wl)) eqn:Hwl.
      * (* case 2 *)
        destruct wl as [|[] wll wla wlr]; try discriminate;
        (destruct wr as [|[] wrl wra wrr]; try discriminate);
        destruct cp; cbn [is_black];
        [ erase_case Hroot Hsh HND HFA | erase_case2 Hroot Hsh HND HFA
        | erase_case Hroot Hsh HND HFA | erase_case2 Hroot Hsh HND HFA
        | erase_case Hroot Hsh HND HFA | erase_case2 Hroot Hsh HND HFA
        | erase_case Hroot Hsh HND HFA | erase_case2 Hroot Hsh HND HFA ].
      * (* case 3 then 4 *)
        destruct wl as [|[] a ia b]; try discriminate.
        destruct a as [|ca al aa ar]; destruct b as [|cb bl ba br];
        (destruct wr as [|[] wrl wra wrr]; try discriminate);
        erase_case Hroot Hsh HND HFA.
    + (* case 4 *)
      destruct wr as [|[] wrl wra wrr]; try discriminate.
      destruct wl as [|cwl wll wla wlr]; 
        erase_case Hroot Hsh HND HFA.
  - destruct w as [|cw wl wa wr]; [exact I|].
    destruct (is_black (col wl)) eqn:Hwl.
    + destruct (is_black (col wr)) eqn:Hwr.
      * destruct wl as [|[] wll wla wlr]; try discriminate;
        (destruct wr as [|[] wrl wra wrr]; try discriminate);
        destruct cp; cbn [is_black];
        [ erase_case Hroot Hsh HND HFA | erase_case2 Hroot Hsh HND HFA
        | erase_case Hroot Hsh HND HFA | erase_case2 Hroot Hsh HND HFA
        | erase_case Hroot Hsh HND HFA | erase_case2 Hroot Hsh HND HFA
        | erase_case Hroot Hsh HND HFA | erase_case2 Hroot Hsh HND HFA ].
      * destruct wr as [|[] a ia b]; try discriminate.
        destruct a as [|ca al aa ar]; destruct b as [|cb bl ba br];
        (destruct wl as [|[] wll wla wlr]; try discriminate);
        erase_case Hroot Hsh HND HFA.
    + destruct wl as [|[] wll wla wlr]; try discriminate.
      destruct wr as [|cwr wrl wra wrr]; 
        erase_case Hroot Hsh HND HFA.
Qed.

Lemma erase_body_refines h root C x :
  tree_at (mkStore h root) (plug C x) ->
  match erase_pass C x with
  | Some ps =>
      runs_to (__rb_erase_color_body (ptr x) (cpar NULL C)) (mkStore h root) (erase_ok ps)
  | None => True
  end.
Proof.
  intros Hat. destruct C as [|[cp p w|cp w p] up]; [exact I| |]; cbn [erase_pass].
  - destruct w as [|cw wl wa wr]; [exact I|].
    destruct cw.
    + (* Case 1 *)
      destruct wl as [|cwl wll wla wlr]; [exact I|].
      destruct (erase_rest (FL cp wa wr :: up) (FL Red p (blacken (Node cwl wll wla wlr))) x)
        as [ps|] eqn:Hps; [|exact I].
      pose proof Hat as (Hroot & Hsh & HND & HFA).
      pose proof HND as HND0. pose proof HFA as HFA0.
      cbn [nodes rb_node] in Hroot, Hsh.
      open_tree Hroot Hsh HND HFA; subst.
      unfold runs_to, __rb_erase_color_body, __rb_rotate_set_parents.
      exec. run_change_child. exec.
      match goal with
      | |- context [erase_color_left_rest _ _ (mkStore ?h1 ?r1)] =>
          assert (Hat1 : tree_at (mkStore h1 r1)
                    (plug (FL Red p (Node Black wll wla wlr) :: FL cp wa wr :: up) x))
      end.
      { assert (Hio : inorder (plug (FL Red p (Node Black wll wla wlr) :: FL cp wa wr :: up) x)
                      = inorder (plug up (Node cp x p (Node Red (Node cwl wll wla wlr) wa wr))))
          by (cbn [plug]; list_eq).
        unfold tree_at. rewrite Hio. cbn [nodes rb_node plug fill].
        split; [rewrite ptr_plug; reflexivity|]. split; [|auto].
        rewrite shape_plug; cbn [ptr cpar]; split; [cshape_opaque | shape_nodes]. }
      pose proof (erase_rest_refines _ _ _ _ _ Hat1) as Hrest.
      cbn [blacken] in Hps. rewrite Hps in Hrest. exact Hrest.
    + pose proof (erase_rest_refines _ _ _ _ _ Hat) as Hrest.
      destruct (erase_rest up (FL cp p (Node Black wl wa wr)) x) as [ps|]; [|exact I].
      destruct Hat as (Hroot & Hsh & HND & HFA).
      cbn [nodes rb_node] in Hroot, Hsh.
      open_tree Hroot Hsh HND HFA; subst.
      unfold runs_to, __rb_erase_color_body. exec. exact Hrest.
  - destruct w as [|cw wl wa wr]; [exact I|].
    destruct cw.
    + destruct wr as [|cwr wrl wra wrr]; [exact I|].
      destruct (erase_rest (FR cp wl wa :: up) (FR Red (blacken (Node cwr wrl wra wrr)) p) x)
        as [ps|] eqn:Hps; [|exact I].
      pose proof Hat as (Hroot & Hsh & HND & HFA).
      pose proof HND as HND0. pose proof HFA as HFA0.
      cbn [nodes rb_node] in Hroot, Hsh.
      open_tree Hroot Hsh HND HFA; subst.
      unfold runs_to, __rb_erase_color_body, __rb_rotate_set_parents.
      exec. run_change_child. exec.
      match goal with
      | |- context [erase_color_right_rest _ _ (mkStore ?h1 ?r1)] =>
          assert (Hat1 : tree_at (mkStore h1 r1)
                    (plug (FR Red (Node Black wrl wra wrr) p :: FR cp wl wa :: up) x))
      end.
      { assert (Hio : inorder (plug (FR Red (Node Black wrl wra wrr) p :: FR cp wl wa :: up) x)
                      = inorder (plug up (Node cp (Node Red wl wa (Node cwr wrl wra wrr)) p x)))
          by (cbn [plug]; list_eq).
        unfold tree_at. rewrite Hio. cbn [nodes rb_node plug fill].
        split; [rewrite ptr_plug; reflexivity|]. split; [|auto].
        rewrite shape_plug; cbn [ptr cpar]; split; [cshape_opaque | shape_nodes]. }
      pose proof (erase_rest_refines _ _ _ _ _ Hat1) as Hrest.
      cbn [blacken] in Hps. rewrite Hps in Hrest. exact Hrest.
    + pose proof (erase_rest_refines _ _ _ _ _ Hat) as Hrest.
      destruct (erase_rest up (FR cp (Node Black wl wa wr) p) x) as [ps|]; [|exact I].
      destruct Hat as (Hroot & Hsh & HND & HFA).
      cbn [nodes rb_node] in Hroot, Hsh.
      open_tree Hroot Hsh HND HFA; subst.
      unfold runs_to, __rb_erase_color_body. exec. exact Hrest.
Qed.

(** ** The erase fixup keeps the invariants *)

Ltac ctx_ok_arith :=
  match goal with
  | H : ctx_ok ?C _ |- ctx_ok ?C _ => eapply eq_ind; [exact H|lia]
  end.

Ltac rb_auto :=
  unfold sub_ok in *; simpl in *;
  intuition (try congruence; try lia; try ctx_ok_arith).

Lemma is_black_true c : is_black c = true -> c = Black.
Proof. destruct c; [discriminate|reflexivity]. Qed.

Lemma is_black_false c : is_black c = false -> c = Red.
Proof. destruct c; [reflexivity|discriminate]. Qed.

Lemma erase_rest_ok up f x :
  erase_inv (f :: up) x -> col (fsib f) = Black ->
  match erase_rest up f x with
  | Some (Done t') => red_black t'
  | Some (Again C' t1) =>
      C' = up /\ fcolor f = Black
      /\ match C' with
         | [] => red_black t1
         | _ :: _ => erase_inv C' t1
         end
  | None => False
  end.
Proof.
  cbn [erase_inv]. intros (Hcx & Hx & Hw & Hbw & Hred & Hup) Hcw.
  destruct f as [cp p w|cp w p]; cbn [fsib fcolor erase_rest] in *.
  - destruct w as [|cw wl wa wr]; [simpl in Hbw; lia|]. cbn [col] in Hcw. subst cw.
    destruct (is_black (col wr)) eqn:Hwr.
    + apply is_black_true in Hwr.
      destruct (is_black (col wl)) eqn:Hwl.
      * apply is_black_true in Hwl.
        destruct cp; cbn [is_black].
        -- apply red_black_plug. rb_auto.
        -- split; [reflexivity|]. split; [reflexivity|]. destruct up as [|f' up'].
           ++ unfold red_black. rb_auto.
           ++ cbn [erase_inv]. cbn [ctx_ok] in Hup. rb_auto.
      * apply is_black_false in Hwl.
        destruct wl as [|ci a ia b]; [discriminate|]. cbn [col] in Hwl. subst ci.
        assert (Hb : col b = Black) by (unfold sub_ok in Hw; simpl in Hw; tauto).
        rewrite (blacken_black _ Hb).
        apply red_black_plug. destruct cp; rb_auto.
    + apply is_black_false in Hwr.
      destruct wr as [|co a oa b]; [discriminate|]. cbn [col] in Hwr. subst co.
      cbn [blacken]. apply red_black_plug. destruct cp; rb_auto.
  - destruct w as [|cw wl wa wr]; [simpl in Hbw; lia|]. cbn [col] in Hcw. subst cw.
    destruct (is_black (col wl)) eqn:Hwl.
    + apply is_black_true in Hwl.
      destruct (is_black (col wr)) eqn:Hwr.
      * apply is_black_true in Hwr.
        destruct cp; cbn [is_black].
        -- apply red_black_plug. rb_auto.
        -- split; [reflexivity|]. split; [reflexivity|]. destruct up as [|f' up'].
           ++ unfold red_black. rb_auto.
           ++ cbn [erase_inv]. cbn [ctx_ok] in Hup. rb_auto.
      * apply is_black_false in Hwr.
        destruct wr as [|ci a ia b]; [discriminate|]. cbn [col] in Hwr. subst ci.
        assert (Ha : col a = Black) by (unfold sub_ok in Hw; simpl in Hw; tauto).
        rewrite (blacken_black _ Ha).
        apply red_black_plug. destruct cp; rb_auto.
    + apply is_black_false in Hwl.
      destruct wl as [|co a oa b]; [discriminate|]. cbn [col] in Hwl. subst co.
      cbn [blacken]. apply red_black_plug. destruct cp; rb_auto.
Qed.

Lemma erase_pass_ok C x :
  erase_inv C x ->
  match erase_pass C x with
  | Some (Done t') => red_black t'
  | Some (Again C' t1) =>
      (length C' < length C)%nat
      /\ match C' with
         | [] => red_black t1
         | _ :: _ => erase_inv C' t1
         end
  | None => False
  end.
Proof.
  intros Hinv. destruct C as [|f up]; [contradiction|].
  pose proof Hinv as (Hcx & Hx & Hw & Hbw & Hred & Hup).
  destruct f as [cp p w|cp w p]; cbn [fsib fcolor erase_pass] in *.
  - destruct w as [|cw wl wa wr]; [simpl in Hbw; lia|].
    destruct cw.
    + assert (cp = Black) as -> by (destruct cp; [destruct (Hred eq_refl); discriminate|reflexivity]).
      assert (Hwl : col wl = Black) by (unfold sub_ok in Hw; simpl in Hw; tauto).
      destruct wl as [|cwl wll wla wlr]; [simpl in Hbw; lia|].
      cbn [col] in Hwl. subst cwl. cbn [blacken].
      assert (Hinv' : erase_inv (FL Red p (Node Black wll wla wlr) :: FL Black wa wr :: up) x).
      { cbn [erase_inv fsib fcolor ctx_ok ctx_black]. rb_auto. }
      pose proof (erase_rest_ok _ _ _ Hinv' eq_refl) as Hok.
      destruct (erase_rest (FL Black wa wr :: up) (FL Red p (Node Black wll wla wlr)) x)
        as [[t'|C' t1]|]; [assumption| |assumption].
      destruct Hok as (_ & Hf & _). discriminate.
    + pose proof (erase_rest_ok _ _ _ Hinv eq_refl) as Hok.
      destruct (erase_rest up (FL cp p (Node Black wl wa wr)) x)
        as [[t'|C' t1]|]; [assumption| |assumption].
      destruct Hok as (-> & _ & Hok). split; [simpl; lia|assumption].
  - destruct w as [|cw wl wa wr]; [simpl in Hbw; lia|].
    destruct cw.
    + assert (cp = Black) as -> by (destruct cp; [destruct (Hred eq_refl); discriminate|reflexivity]).
      assert (Hwr : col wr = Black) by (unfold sub_ok in Hw; simpl in Hw; tauto).
      destruct wr as [|cwr wrl wra wrr]; [unfold sub_ok in Hw; simpl in Hw, Hbw; destruct Hw as (_ & Heq & _); lia|].
      cbn [col] in Hwr. subst cwr. cbn [blacken].
      assert (Hinv' : erase_inv (FR Red (Node Black wrl wra wrr) p :: FR Black wl wa :: up) x).
      { cbn [erase_inv fsib fcolor ctx_ok ctx_black]. rb_auto. }
      pose proof (erase_rest_ok _ _ _ Hinv' eq_refl) as Hok.
      destruct (erase_rest (FR Black wl wa :: up) (FR Red (Node Black wrl wra wrr) p) x)
        as [[t'|C' t1]|]; [assumption| |assumption].
      destruct Hok as (_ & Hf & _). discriminate.
    + pose proof (erase_rest_ok _ _ _ Hinv eq_refl) as Hok.
      destruct (erase_rest up (FR cp (Node Black wl wa wr) p) x)
        as [[t'|C' t1]|]; [assumption| |assumption].
      destruct Hok as (-> & _ & Hok). split; [simpl; lia|assumption].
Qed.

Lemma erase_rest_inorder up f x :
  match erase_rest up f x with
  | Some (Done t') => inorder t' = inorder (plug (f :: up) x)
  | Some (Again C' t1) => inorder (plug C' t1) = inorder (plug (f :: up) x)
  | None => True
  end.
Proof.
  destruct f as [cp p w|cp w p]; cbn [erase_rest];
    (destruct w as [|cw wl wa wr]; [exact I|]).
  - destruct (is_black (col wr)); [destruct (is_black (col wl))|].
    + destruct (is_black cp); cbn [plug]; list_eq.
    + destruct wl as [|ci a ia b]; [exact I|]. cbn [plug]; list_eq.
    + cbn [plug]; list_eq.
  - destruct (is_black (col wl)); [destruct (is_black (col wr))|].
    + destruct (is_black cp); cbn [plug]; list_eq.
    + destruct wr as [|ci a ia b]; [exact I|]. cbn [plug]; list_eq.
    + cbn [plug]; list_eq.
Qed.

Lemma erase_pass_inorder C x :
  match erase_pass C x with
  | Some (Done t') => inorder t' = inorder (plug C x)
  | Some (Again C' t1) => inorder (plug C' t1) = inorder (plug C x)
  | None => True
  end.
Proof.
  destruct C as [|[cp p w|cp w p] up]; [exact I| |]; cbn [erase_pass].
  - destruct w as [|[] wl wa wr]; try apply erase_rest_inorder.
    destruct wl as [|cwl wll wla wlr]; [exact I|].
    pose proof (erase_rest_inorder (FL cp wa wr :: up)
                  (FL Red p (blacken (Node cwl wll wla wlr))) x) as H.
    destruct (erase_rest _ _ x) as [[t'|C' t1]|]; [| |exact I];
      rewrite H; cbn [plug]; list_eq.
  - destruct w as [|[] wl wa wr]; try apply erase_rest_inorder.
    destruct wr as [|cwr wrl wra wrr]; [exact I|].
    pose proof (erase_rest_inorder (FR cp wl wa :: up)
                  (FR Red (blacken (Node cwr wrl wra wrr)) p) x) as H.
    destruct (erase_rest _ _ x) as [[t'|C' t1]|]; [| |exact I];
      rewrite H; cbn [plug]; list_eq.
Qed.

Lemma erase_body_step s node parent C x :
  erase_head s node parent C x ->
  runs_to (__rb_erase_color_body node parent) s (fun res s' =>
    match res with
    | None => exists t', tree_at s' t' /\ red_black t'
                         /\ inorder t' = inorder (plug C x)
    | Some (node', parent') =>
        exists C' t1, erase_head s' node' parent' C' t1
                      /\ inorder (plug C' t1) = inorder (plug C x)
                      /\ (length C' < length C)%nat
    end).
Proof.
  intros (Hinv & Hat & -> & ->).
  pose proof (erase_pass_ok C x Hinv) as Hok.
  pose proof (erase_pass_inorder C x) as Hio.
  destruct s as [h root].
  pose proof (erase_body_refines h root C x Hat) as Hrun.
  destruct Hat as (_ & _ & HND & HFA).
  destruct (erase_pass C x) as [[t'|C' t1]|]; [| |contradiction].
  - revert Hrun. apply runs_to_weaken. intros res s' (-> & Hh).
    exists t'. split; [|auto]. eapply tree_at_transport; eauto.
  - revert Hrun. apply runs_to_weaken. intros res s' (-> & Hh).
    destruct Hok as (Hlen & Hok).
    assert (Hat' : tree_at s' (plug C' t1)) by (eapply tree_at_transport; eauto).
    destruct C' as [|f' up'].
    + exists t1. auto.
    + exists (f' :: up'), t1. split; [|auto]. split; [assumption|].
      split; [assumption|]. split; reflexivity.
Qed.

Lemma erase_color_loop_spec fuel : forall s node parent C x,
  erase_head s node parent C x ->
  (length C <= fuel)%nat ->
  runs_to (__rb_erase_color_loop fuel node parent) s (fun _ s' =>
    exists t', tree_at s' t' /\ red_black t' /\ inorder t' = inorder (plug C x)).
Proof.
  induction fuel as [|fuel IH]; intros s node parent C x Hhead Hlen.
  - destruct Hhead as (Hinv & _). destruct C; [contradiction|simpl in Hlen; lia].
  - cbn [__rb_erase_color_loop]. apply runs_to_bind.
    generalize (erase_body_step _ _ _ _ _ Hhead). apply runs_to_weaken.
    intros [[node' parent']|] s'.
    + intros (C' & t1 & Hhead' & Hio & Hl).
      generalize (IH s' node' parent' C' t1 Hhead' ltac:(lia)).
      apply runs_to_weaken. intros _ s2 (t' & Hat' & Hrb' & Hio').
      exists t'. split; [assumption|]. split; [assumption|]. congruence.
    + intros (t' & ? & ? & ?). unfold runs_to, ret. eauto.
Qed.

(** ** The unlink phase of erase on trees *)

Lemma cshape_frame h h' (L : list Z) par0 C hole :
  (forall b, b ∉ L -> h' !! b = h !! b) ->
  ldisj (caddrs C) L -> cshape h par0 C hole -> cshape h' par0 C hole.
Proof.
  intros Hfr Hd. apply cshape_agree. intros b Hb. apply Hfr.
  intros HL. exact (Hd b Hb HL).
Qed.

Ltac cshape_frames :=
  repeat first
    [ apply cshape_insert; [notin|]
    | match goal with
      | Hfr : (forall b, b ∉ _ -> ?h' !! b = _) |- cshape ?h' _ _ _ =>
          eapply (cshape_frame _ h' _ _ _ _ Hfr); [ldisj_tac|]
      end ];
  eassumption.

Section Unlink.

Lemma split_min_spec t Sp cs s rs :
  split_min t = Some (Sp, (cs, s, rs)) ->
  t = plug Sp (Node cs Leaf s rs) /\ left_spine Sp.
Proof.
  revert Sp. induction t as [|c l IHl a r _]; intros Sp; simpl; [discriminate|].
  destruct (split_min l) as [[Sp' m]|] eqn:Hl.
  - intros [= <- ->]. destruct (IHl Sp' eq_refl) as (-> & HS).
    split; [rewrite plug_app; reflexivity|].
    apply Forall_app. split; [assumption|]. repeat constructor.
  - intros [= <- <- <- <-]. destruct l; [|simpl in Hl; destruct (split_min l1) as [[? ?]|]; discriminate].
    split; [reflexivity|constructor].
Qed.

Lemma split_min_none t : split_min t = None -> t = Leaf.
Proof.
  destruct t as [|c l a r]; [reflexivity|]. simpl.
  destruct (split_min l) as [[? ?]|]; discriminate.
Qed.

Ltac unlink_close :=
  unfold ret, unlink_ok, rebalance_of, holds;
  cbn [u_ctx u_sub u_short nodes rb_node];
  (split; [try reflexivity|]);
  rewrite ?ptr_plug; cbn [ptr]; (split; [reflexivity|]);
  rewrite shape_plug; cbn [ptr cpar]; (split; [cshape_frames|shape_nodes]).

Lemma unlink_one_refines_left fuel h root C c n r :
  tree_at (mkStore h root) (plug C (Node c Leaf n r)) ->
  runs_to (__rb_erase fuel n) (mkStore h root) (unlink_ok (unlink_one C c r)).
Proof.
  unfold tree_at. cbn [nodes rb_node]. intros (Hroot & Hsh & HND & HFA).
  destruct r as [|cr rl ra rr]; cbn [unlink_one];
    open_tree Hroot Hsh HND HFA; subst; unfold runs_to, __rb_erase;
    exec; run_change_child; exec; unlink_close.
Qed.

Lemma unlink_one_refines_right fuel h root C c cl ll la lr n :
  tree_at (mkStore h root) (plug C (Node c (Node cl ll la lr) n Leaf)) ->
  runs_to (__rb_erase fuel n) (mkStore h root)
    (unlink_ok (unlink_one C c (Node cl ll la lr))).
Proof.
  unfold tree_at. cbn [nodes rb_node]. intros (Hroot & Hsh & HND & HFA).
  cbn [unlink_one];
    open_tree Hroot Hsh HND HFA; subst; unfold runs_to, __rb_erase;
    exec; run_change_child; exec; unlink_close.
Qed.

Lemma ctop_ne_null C a :
  a <> NULL -> Forall node_addr (caddrs C) -> ctop C a <> NULL.
Proof.
  revert a. induction C as [|f C IH]; intros a Ha HFA; simpl; [assumption|].
  apply Forall_caddrs_cons in HFA. destruct HFA as ((Hf & _) & HFA).
  apply IH; assumption.
Qed.

Lemma cpar_snoc a C f : cpar a (C ++ [f]) = cpar (faddr f) C.
Proof. destruct C; reflexivity. Qed.

Lemma ctop_snoc C f a : ctop (C ++ [f]) a = faddr f.
Proof.
  revert a. induction C as [|g C IH]; intros a; simpl; [reflexivity|apply IH].
Qed.

Lemma plug_not_leaf C t : t <> Leaf -> plug C t <> Leaf.
Proof.
  revert t. induction C as [|f C IH]; intros t Ht; simpl; [assumption|].
  apply IH. destruct f; discriminate.
Qed.

Lemma ptr_node_addr t : t <> Leaf -> Forall node_addr (inorder t) -> node_addr (ptr t).
Proof.
  intros Ht HFA. rewrite Forall_forall in HFA. apply HFA, ptr_elem_of, Ht.
Qed.

(** The walk of [__rb_erase] down a left spine ends at the successor and
    its parent, and changes nothing. *)
Lemma leftmost_walk_spec Sp :
  left_spine Sp -> forall fuel h root a cs s rs,
  shape h a (plug Sp (Node cs Leaf s rs)) ->
  Forall node_addr (inorder (plug Sp (Node cs Leaf s rs))) ->
  (length Sp < fuel)%nat ->
  leftmost_walk fuel a (ctop Sp s) (mkStore h root)
  = Some ((cpar a Sp, s), mkStore h root).
Proof.
  induction Sp as [|f Sp' IH] using rev_ind; intros HS fuel h root a cs s rs Hsh HFA Hlen.
  - destruct fuel as [|fuel]; [simpl in Hlen; lia|].
    cbn [plug shape inorder app ctop cpar leftmost_walk ptr] in *.
    destruct Hsh as (Hs & _). split_fa HFA.
    rewrite run_end. exec. reflexivity.
  - apply Forall_app in HS. destruct HS as (HS' & Hf).
    apply Forall_cons in Hf. destruct Hf as (Hf & _).
    destruct f as [c' a' sib'|]; [|contradiction].
    rewrite length_app in Hlen. simpl in Hlen.
    destruct fuel as [|fuel]; [lia|].
    rewrite plug_app in Hsh, HFA. cbn [plug fill] in Hsh, HFA.
    rewrite ctop_snoc, cpar_snoc. cbn [faddr leftmost_walk].
    cbn [shape inorder] in Hsh, HFA. destruct Hsh as (Ha' & Hsub & _).
    rewrite ptr_plug in Ha'. cbn [ptr] in Ha'.
    apply Forall_app_inv in HFA. destruct HFA as (HFA1 & HFA2).
    apply Forall_cons_inv in HFA2. destruct HFA2 as (AD & _).
    assert (Hne : node_addr (ctop Sp' s)).
    { change (ctop Sp' s) with (ctop Sp' (ptr (Node cs Leaf s rs))).
      rewrite <- ptr_plug.
      apply ptr_node_addr; [apply plug_not_leaf; discriminate|assumption]. }
    rewrite run_end. exec. rewrite <- run_end.
    apply (IH HS' fuel h root a' cs s rs Hsub HFA1). lia.
Qed.

Lemma run_known {A B : Type} (m : M A) (k : A -> M B) s a s' :
  m s = Some (a, s') -> bind m k s = k a s'.
Proof. unfold bind. intros ->. reflexivity. Qed.

End Unlink.

(** As [open_tree], for a tree with a second context inside the subtree at
    the hole. *)
Ltac open_tree2 Hroot Hsh HND HFA :=
  cbn [plug fill cpar faddr recolor blacken] in *;
  rewrite inorder_plug in HND, HFA; cbn [inorder] in HND, HFA;
  let HNDc := fresh "HNDc" in
  let HFAc := fresh "HFAc" in
  pose proof (NoDup_app_mid _ _ _ HND) as HNDc;
  pose proof (Forall_app_mid _ _ _ _ HFA) as HFAc;
  match type of HNDc with NoDup (cleft ?C ++ cright ?C) =>
    change (NoDup (caddrs C)) in HNDc; change (Forall node_addr (caddrs C)) in HFAc end;
  rewrite ?inorder_plug in HND, HFA; cbn [inorder] in HND, HFA;
  split_nd HND; split_fa HFA;
  rewrite ptr_plug in Hroot; cbn [ptr] in Hroot;
  rewrite shape_plug in Hsh; cbn [shape ptr] in Hsh;
  rewrite ?shape_plug, ?ptr_plug in Hsh; cbn [shape ptr] in Hsh;
  destruct_ands.

Ltac unlink_close2 :=
  unfold ret, unlink_ok, rebalance_of, holds, unlink_two;
  cbn [u_ctx u_sub u_short nodes rb_node];
  (split; [cbn [app cpar faddr]; try reflexivity|]);
  rewrite ?plug_app; cbn [plug fill];
  rewrite ?ptr_plug; cbn [ptr]; (split; [reflexivity|]);
  rewrite shape_plug; cbn [ptr cpar shape];
  rewrite ?shape_plug, ?ptr_plug; cbn [ptr cpar shape];
  repeat split; first [ lookup | cshape_frames | shape_frames ].

Lemma unlink_two_refines fuel h root C c cl ll la lr n Sp cs s rs :
  tree_at (mkStore h root)
    (plug C (Node c (Node cl ll la lr) n (plug Sp (Node cs Leaf s rs)))) ->
  left_spine Sp -> (length Sp <= fuel)%nat ->
  runs_to (__rb_erase fuel n) (mkStore h root)
    (unlink_ok (unlink_two C c (Node cl ll la lr) Sp cs s rs)).
Proof.
  intros Hat HS Hlen.
  destruct Sp as [|f Sp' _] using rev_ind.
  - destruct Hat as (Hroot & Hsh & HND & HFA). cbn [nodes rb_node] in *.
    destruct rs as [|crs rsl rsa rsr];
      open_tree Hroot Hsh HND HFA; subst; unfold runs_to, __rb_erase;
      exec; run_change_child; exec; unlink_close2.
  - apply Forall_app in HS. destruct HS as (HS' & Hf).
    apply Forall_cons in Hf. destruct Hf as (Hf & _).
    destruct f as [cy y sy|]; [|contradiction].
    rewrite length_app in Hlen. simpl in Hlen.
    rewrite plug_app in Hat. cbn [plug fill] in Hat.
    assert (Hwalk : leftmost_walk fuel y (ctop Sp' s) (mkStore h root)
                    = Some ((cpar y Sp', s), mkStore h root)
                    /\ node_addr (ctop Sp' s)).
    { destruct Hat as (_ & Hsh & _ & HFA). cbn [nodes] in Hsh.
      rewrite shape_plug in Hsh. cbn [shape] in Hsh.
      rewrite inorder_plug in HFA. cbn [inorder] in HFA. split_fa HFA.
      split.
      - apply leftmost_walk_spec with (cs := cs) (rs := rs);
          [assumption|apply Hsh|assumption|lia].
      - change (ctop Sp' s) with (ctop Sp' (ptr (Node cs Leaf s rs))).
        rewrite <- ptr_plug.
        apply ptr_node_addr; [apply plug_not_leaf; discriminate|assumption]. }
    destruct Hwalk as (Hwalk & ADtop).
    destruct Hat as (Hroot & Hsh & HND & HFA). cbn [nodes rb_node] in *.
    destruct Sp' as [|[cp pp sp|] Sp''].
    + destruct rs as [|crs rsl rsa rsr];
        open_tree Hroot Hsh HND HFA; subst; unfold runs_to, __rb_erase;
        exec; rewrite (run_known _ _ _ _ _ Hwalk); cbv beta iota zeta;
        exec; run_change_child; exec; unlink_close2.
    + cbn [ctop cpar faddr] in Hwalk, ADtop.
      destruct rs as [|crs rsl rsa rsr];
        open_tree2 Hroot Hsh HND HFA; subst; unfold runs_to, __rb_erase;
        exec; rewrite (run_known _ _ _ _ _ Hwalk); cbv beta iota zeta;
        exec; run_change_child; exec; unlink_close2.
    + apply Forall_cons in HS'. destruct HS' as (HS' & _). contradiction.
Qed.

(** ** The unlink phase keeps or hands over the invariants *)

Section UnlinkPure.

Lemma erase_inv_of_ctx_ok C x :
  C <> [] -> col x = Black -> sub_ok x -> ctx_ok C (S (bheight x)) ->
  erase_inv C x.
Proof.
  destruct C as [|f up]; [congruence|]. intros _ Hc Hx HC.
  cbn [erase_inv ctx_ok] in *. tauto.
Qed.

(** The invariants of a context do not depend on the addresses in it. *)
Lemma ctx_ok_readdr Sp c l a b C k :
  (ctx_ok (Sp ++ FR c l a :: C) k <-> ctx_ok (Sp ++ FR c l b :: C) k)
  /\ (ctx_black (Sp ++ FR c l a :: C) <-> ctx_black (Sp ++ FR c l b :: C)).
Proof.
  revert k. induction Sp as [|f Sp IH]; intros k.
  - simpl. tauto.
  - destruct (IH (k + weight (fcolor f))%nat) as (IH1 & IH2).
    cbn [app ctx_ok ctx_black]. rewrite IH1, IH2. tauto.
Qed.

Lemma cleft_left_spine Sp : left_spine Sp -> cleft Sp = [].
Proof.
  induction Sp as [|f Sp IH]; intros HS; [reflexivity|].
  apply Forall_cons in HS. destruct HS as (Hf & HS).
  destruct f; [|contradiction]. simpl. auto.
Qed.

Lemma cleft_app C1 C2 : cleft (C1 ++ C2) = cleft C2 ++ cleft C1.
Proof.
  induction C1 as [|f C1 IH]; simpl; [rewrite app_nil_r; reflexivity|].
  destruct f; [assumption|]. rewrite IH, <- !app_assoc. reflexivity.
Qed.

Lemma cright_app C1 C2 : cright (C1 ++ C2) = cright C1 ++ cright C2.
Proof.
  induction C1 as [|f C1 IH]; simpl; [reflexivity|].
  destruct f; [|assumption]. rewrite IH. simpl. rewrite ?app_assoc. reflexivity.
Qed.

Lemma unlink_one_ok C c n child other :
  other = Leaf ->
  (red_black (plug C (Node c child n other))
   \/ red_black (plug C (Node c other n child))) ->
  unlinked_ok (unlink_one C c child).
Proof.
  intros -> Hrb.
  assert (H : ctx_ok C (bheight child + weight c) /\ sub_ok child
              /\ bheight child = 0%nat
              /\ (c = Red -> col child = Black /\ ctx_black C)).
  { destruct Hrb as [Hrb|Hrb]; apply red_black_plug in Hrb;
      unfold sub_ok in *; simpl in *; intuition (try congruence; try ctx_ok_arith). }
  destruct H as (HC & Hch & Hb & Hred).
  destruct child as [|cc cl a cr]; unfold unlinked_ok; cbn [unlink_one u_short u_ctx u_sub].
  - destruct c; cbn [is_black].
    + apply red_black_plug. unfold sub_ok. simpl in *. tauto.
    + split; [reflexivity|]. destruct C as [|f up]; [left; reflexivity|right].
      apply erase_inv_of_ctx_ok; unfold sub_ok; simpl in *; auto; congruence.
  - assert (cc = Red) as -> by (destruct cc; simpl in Hb; [reflexivity|lia]).
    assert (c = Black) as ->
      by (destruct c; [destruct (Hred eq_refl); discriminate|reflexivity]).
    apply red_black_plug. unfold sub_ok in *. simpl in *.
    intuition (try congruence; try lia; try ctx_ok_arith).
Qed.

Lemma unlink_two_ok C c l n Sp cs s rs :
  red_black (plug C (Node c l n (plug Sp (Node cs Leaf s rs)))) ->
  unlinked_ok (unlink_two C c l Sp cs s rs).
Proof.
  intros Hrb.
  change (plug C (Node c l n (plug Sp (Node cs Leaf s rs))))
    with (plug (FR c l n :: C) (plug Sp (Node cs Leaf s rs))) in Hrb.
  rewrite <- plug_app in Hrb. apply red_black_plug in Hrb.
  destruct Hrb as (HC & Hx & Hred).
  destruct (ctx_ok_readdr Sp c l n s C (bheight (Node cs Leaf s rs))) as (H1 & H2).
  apply H1 in HC. rewrite H2 in Hred. clear H1 H2.
  assert (Hne : Sp ++ FR c l s :: C <> []) by (destruct Sp; discriminate).
  unfold sub_ok in Hx. simpl in Hx, HC, Hred.
  destruct rs as [|crs a b d]; unfold unlinked_ok; cbn [unlink_two u_short u_ctx u_sub].
  - destruct cs; cbn [is_black weight] in *.
    + apply red_black_plug. unfold sub_ok. simpl. tauto.
    + split; [reflexivity|]. right.
      apply erase_inv_of_ctx_ok; unfold sub_ok; simpl; auto.
  - assert (crs = Red) as -> by (destruct crs; simpl in Hx; [reflexivity|lia]).
    assert (cs = Black) as ->
      by (destruct cs; [|reflexivity]; simpl in Hx; intuition discriminate).
    apply red_black_plug. unfold sub_ok. simpl in *.
    intuition (try congruence; try lia; try ctx_ok_arith).
Qed.

Lemma unlink_is_some C c l n r : exists u, unlink C (Node c l n r) = Some u.
Proof.
  unfold unlink. destruct l; [eauto|].
  destruct (split_min r) as [[Sp [[cs s] rs]]|]; eauto.
Qed.

Lemma unlink_refines fuel s C c l n r u :
  tree_at s (plug C (Node c l n r)) ->
  unlink C (Node c l n r) = Some u ->
  (length (inorder (plug C (Node c l n r))) <= fuel)%nat ->
  runs_to (__rb_erase fuel n) s (unlink_ok u).
Proof.
  intros Hat Hu Hfuel. destruct s as [h root]. unfold unlink in Hu.
  destruct l as [|cl ll la lr].
  - injection Hu as <-. apply unlink_one_refines_left. assumption.
  - destruct (split_min r) as [[Sp [[cs sx] rs]]|] eqn:Hr.
    + injection Hu as <-. apply split_min_spec in Hr. destruct Hr as (-> & HS).
      apply unlink_two_refines; [assumption|assumption|].
      pose proof (length_ctx_le C (Node c (Node cl ll la lr) n (plug Sp (Node cs Leaf sx rs)))) as H1.
      pose proof (length_ctx_le Sp (Node cs Leaf sx rs)) as H2.
      cbn [inorder] in H1. rewrite !length_app in H1. simpl in H1. lia.
    + injection Hu as <-. apply split_min_none in Hr. subst r.
      apply (unlink_one_refines_right fuel h root C c cl ll la lr n). assumption.
Qed.

Lemma unlink_pure C c l n r u :
  red_black (plug C (Node c l n r)) ->
  unlink C (Node c l n r) = Some u ->
  unlinked_ok u
  /\ exists l1 l2, inorder (plug C (Node c l n r)) = l1 ++ n :: l2
                   /\ inorder (plug (u_ctx u) (u_sub u)) = l1 ++ l2.
Proof.
  intros Hrb Hu. unfold unlink in Hu.
  destruct l as [|cl ll la lr].
  - injection Hu as <-. split.
    + apply (unlink_one_ok C c n r Leaf eq_refl). right. assumption.
    + exists (cleft C), (inorder r ++ cright C). split; [list_eq|].
      destruct r; cbn [unlink_one u_ctx u_sub]; list_eq.
  - destruct (split_min r) as [[Sp [[cs sx] rs]]|] eqn:Hr.
    + injection Hu as <-. apply split_min_spec in Hr. destruct Hr as (-> & HS).
      split; [apply (unlink_two_ok _ _ _ n); assumption|].
      exists (cleft C ++ inorder (Node cl ll la lr)),
             (sx :: inorder rs ++ cright Sp ++ cright C).
      split.
      * rewrite !inorder_plug. cbn [inorder]. rewrite inorder_plug.
        rewrite (cleft_left_spine _ HS). cbn [inorder app].
        repeat first [ rewrite <- app_assoc | rewrite <- app_comm_cons ].
        cbn [app]. reflexivity.
      * assert (He : inorder (plug (Sp ++ FR c (Node cl ll la lr) sx :: C) (blacken rs))
                     = (cleft C ++ inorder (Node cl ll la lr))
                       ++ sx :: inorder rs ++ cright Sp ++ cright C).
        { rewrite inorder_plug, cleft_app, cright_app, (cleft_left_spine _ HS).
          rewrite inorder_blacken. cbn [cleft cright app inorder].
          repeat first [ rewrite <- app_assoc | rewrite <- app_comm_cons ].
          cbn [app]. rewrite ?app_nil_r. reflexivity. }
        destruct rs; cbn [unlink_two u_ctx u_sub]; exact He.
    + injection Hu as <-. apply split_min_none in Hr. subst r. split.
      * apply (unlink_one_ok C c n (Node cl ll la lr) Leaf eq_refl). left. assumption.
      * exists (cleft C ++ inorder (Node cl ll la lr)), (cright C).
        split; cbn [unlink_one u_ctx u_sub]; list_eq.
Qed.

Lemma NoDup_remove_mid (l1 l2 : list Z) a : NoDup (l1 ++ a :: l2) -> NoDup (l1 ++ l2).
Proof. apply (NoDup_app_mid l1 [a] l2). Qed.

Lemma Forall_remove_mid (P : Z -> Prop) (l1 l2 : list Z) a :
  Forall P (l1 ++ a :: l2) -> Forall P (l1 ++ l2).
Proof. apply (Forall_app_mid P l1 [a] l2). Qed.

(** [RBTree::erase] on a node of a red-black tree. *)
Lemma erase_spec fuel s C c l n r :
  tree_at s (plug C (Node c l n r)) ->
  red_black (plug C (Node c l n r)) ->
  (length (inorder (plug C (Node c l n r))) <= fuel)%nat ->
  runs_to (erase fuel n) s (fun _ s' =>
    exists t' l1 l2,
      tree_at s' t' /\ red_black t'
      /\ inorder (plug C (Node c l n r)) = l1 ++ n :: l2
      /\ inorder t' = l1 ++ l2).
Proof.
  intros Hat Hrb Hfuel.
  destruct (unlink_is_some C c l n r) as (u & Hu).
  destruct (unlink_pure _ _ _ _ _ _ Hrb Hu) as (Hok & l1 & l2 & Hio & Hio').
  unfold erase. apply runs_to_bind.
  generalize (unlink_refines fuel s C c l n r u Hat Hu Hfuel).
  apply runs_to_weaken. intros reb s1 (-> & Hh).
  assert (Hat1 : tree_at s1 (plug (u_ctx u) (u_sub u))).
  { destruct Hat as (_ & _ & HND & HFA). rewrite Hio in HND, HFA.
    destruct Hh as (Hr1 & Hs1). unfold tree_at. rewrite Hio'.
    split; [assumption|]. split; [assumption|]. split.
    - eapply NoDup_remove_mid; eassumption.
    - eapply Forall_remove_mid; eassumption. }
  unfold rebalance_of, unlinked_ok in *.
  destruct (u_short u).
  - destruct Hok as (Hsub & [Hnil|Hinv]).
    + rewrite Hnil in *. cbn [cpar]. simpl (NULL =? NULL). cbn [negb].
      unfold runs_to, ret. exists (plug [] (u_sub u)), l1, l2.
      rewrite Hsub in *. split; [assumption|].
      split; [unfold red_black; simpl; tauto|]. split; assumption.
    + destruct (u_ctx u) as [|f up] eqn:Hctx; [contradiction|].
      assert (Hf : node_addr (faddr f)).
      { destruct Hat1 as (_ & _ & _ & HFA). rewrite inorder_plug in HFA.
        apply Forall_app_mid in HFA. apply Forall_caddrs_cons in HFA. apply HFA. }
      cbn [cpar]. rewrite (proj2 (Z.eqb_neq _ _) (proj1 Hf)). cbn [negb].
      unfold __rb_erase_color.
      assert (Hlen : (length (f :: up) <= fuel)%nat).
      { pose proof (length_ctx_le (f :: up) (u_sub u)) as H1.
        rewrite Hio' in H1. 
        assert (H2 : (length (l1 ++ l2) <= length (l1 ++ n :: l2))%nat)
          by (rewrite !length_app; simpl; lia).
        rewrite <- Hio in H2. lia. }
      rewrite Hsub in *.
      assert (Hhead : erase_head s1 NULL (faddr f) (f :: up) Leaf).
      { split; [assumption|]. split; [assumption|]. split; reflexivity. }
      generalize (erase_color_loop_spec fuel s1 NULL (faddr f) (f :: up) Leaf Hhead Hlen).
      apply runs_to_weaken. intros _ s' (t' & H1 & H2 & H3).
      exists t', l1, l2. split; [assumption|]. split; [assumption|].
      split; [assumption|]. rewrite H3. rewrite <- Hio'. rewrite ?Hctx, ?Hsub.
      reflexivity.
  - simpl (NULL =? NULL). cbn [negb]. unfold runs_to, ret.
    exists (plug (u_ctx u) (u_sub u)), l1, l2.
    split; [assumption|]. split; [assumption|]. split; assumption.
Qed.

End UnlinkPure.

(** ** Erase: removal, the successor splice and the rebalance signal *)

Section EraseFacts.

Lemma elem_of_remove_mid (l1 l2 : list Z) n a :
  NoDup (l1 ++ n :: l2) ->
  (a ∈ l1 ++ l2 <-> a ∈ l1 ++ n :: l2 /\ a <> n).
Proof.
  intros HND. rewrite !elem_of_app, elem_of_cons.
  apply NoDup_app in HND. destruct HND as (_ & Hd & HND).
  apply NoDup_cons in HND. destruct HND as (Hn2 & _).
  split.
  - intros [H|H]; (split; [tauto|]); intros ->.
    + apply (Hd n H). apply elem_of_cons. auto.
    + contradiction.
  - intros ([H|[H|H]] & Hne); tauto.
Qed.

Lemma tree_at_frame_sib s f up x :
  tree_at s (plug (f :: up) x) ->
  shape (nodes s) (faddr f) (fsib f)
  /\ Forall node_addr (inorder (fsib f))
  /\ (faddr f ∉ inorder x) /\ (faddr f ∉ inorder (fsib f))
  /\ ldisj (inorder x) (inorder (fsib f)).
Proof.
  intros (_ & Hsh & HND & HFA). cbn [plug] in *.
  rewrite inorder_plug in HND, HFA. rewrite shape_plug in Hsh.
  destruct Hsh as (_ & Hsh).
  destruct f as [c a r|c l a]; cbn [fill shape inorder faddr fsib] in *;
    split_nd HND; split_fa HFA; destruct_ands; repeat split;
    first [ assumption | dj_atom ].
Qed.

Lemma unlink_tree_at fuel s C c l n r u :
  tree_at s (plug C (Node c l n r)) ->
  red_black (plug C (Node c l n r)) ->
  unlink C (Node c l n r) = Some u ->
  (length (inorder (plug C (Node c l n r))) <= fuel)%nat ->
  runs_to (__rb_erase fuel n) s (fun reb s' =>
    reb = rebalance_of u /\ tree_at s' (plug (u_ctx u) (u_sub u))).
Proof.
  intros Hat Hrb Hu Hfuel.
  destruct (unlink_pure _ _ _ _ _ _ Hrb Hu) as (_ & l1 & l2 & Hio & Hio').
  generalize (unlink_refines fuel s C c l n r u Hat Hu Hfuel).
  apply runs_to_weaken. intros reb s1 (-> & Hh). split; [reflexivity|].
  destruct Hat as (_ & _ & HND & HFA). rewrite Hio in HND, HFA.
  destruct Hh as (Hr1 & Hs1). unfold tree_at. rewrite Hio'.
  split; [assumption|]. split; [assumption|]. split.
  - eapply NoDup_remove_mid; eassumption.
  - eapply Forall_remove_mid; eassumption.
Qed.

End EraseFacts.

(** C2.  On a store holding a red-black tree, [erase(n)] for a node [n] of
    the tree returns (with fuel up to the size of the tree); it removes
    exactly [n]: the in-order sequence afterwards is the old one with [n]
    deleted, so the nodes are the old ones but [n]; and the tree satisfies
    all four invariants again. *)
Theorem erase_removes_exactly s t n fuel :
  tree_at s t -> red_black t -> n ∈ inorder t ->
  (length (inorder t) <= fuel)%nat ->
  runs_to (erase fuel n) s (fun _ s' =>
    rb_valid s'
    /\ exists l1 l2, inorder t = l1 ++ n :: l2
                     /\ in_order s' (l1 ++ l2)
                     /\ forall a, a ∈ l1 ++ l2 <-> a ∈ inorder t /\ a <> n).
Proof.
  intros Hat Hrb Hn Hfuel.
  destruct (tree_find _ _ Hn) as (C & c & l & r & ->).
  generalize (erase_spec fuel s C c l n r Hat Hrb Hfuel).
  apply runs_to_weaken. intros _ s' (t' & l1 & l2 & Hat' & Hrb' & Hio & Hio').
  split; [exists t'; auto|].
  exists l1, l2. split; [assumption|]. split; [exists t'; auto|].
  intros a. rewrite Hio. apply elem_of_remove_mid.
  rewrite <- Hio. apply Hat.
Qed.

(** C5.  When the node [n] to erase has both children, its right subtree
    is a left spine [Sp] down to the successor [sx], which has no left
    child.  The unlink phase puts [sx] in the place of [n], under the same
    context, with the color of [n] and the left subtree of [n]; the right
    subtree [rs] of [sx] (repainted black when present) takes the place of
    [sx] at the bottom of the spine.  When [n.right == sx] the spine is
    empty and [sx] keeps its own right subtree. *)
Theorem erase_splices_successor fuel s C c l n r :
  tree_at s (plug C (Node c l n r)) -> red_black (plug C (Node c l n r)) ->
  l <> Leaf -> r <> Leaf ->
  (length (inorder (plug C (Node c l n r))) <= fuel)%nat ->
  exists Sp cs sx rs,
    r = plug Sp (Node cs Leaf sx rs) /\ left_spine Sp
    /\ (ptr r = sx <-> Sp = [])
    /\ runs_to (__rb_erase fuel n) s (fun _ s' =>
         tree_at s' (plug C (Node c l sx (plug Sp (blacken rs))))).
Proof.
  intros Hat Hrb Hl Hr Hfuel.
  destruct (split_min r) as [[Sp [[cs sx] rs]]|] eqn:Hsm;
    [|apply split_min_none in Hsm; contradiction].
  pose proof (split_min_spec _ _ _ _ _ Hsm) as (-> & HS).
  exists Sp, cs, sx, rs. split; [reflexivity|]. split; [assumption|]. split.
  - split.
    + intros Hp. destruct Sp as [|f Sp'] using rev_ind; [reflexivity|].
      exfalso. rewrite plug_app in Hp. cbn [plug] in Hp. rewrite ptr_fill in Hp.
      destruct Hat as (_ & _ & HND & _). rewrite inorder_plug in HND.
      apply NoDup_app_inv in HND. destruct HND as (_ & HND & _).
      apply NoDup_app_inv in HND. destruct HND as (HND & _).
      cbn [inorder] in HND. apply NoDup_app_inv in HND. destruct HND as (_ & HND & _).
      apply NoDup_cons_inv in HND. destruct HND as (_ & HND).
      rewrite plug_app in HND. cbn [plug] in HND.
      apply Forall_app in HS. destruct HS as (_ & Hf).
      apply Forall_cons in Hf. destruct Hf as (Hf & _).
      destruct f as [cf af sf|]; [|contradiction]. cbn [fill faddr inorder] in *.
      rewrite inorder_plug in HND. cbn [inorder] in HND. subst af.
      split_nd HND. congruence.
    + intros ->. reflexivity.
  - destruct l as [|cl ll la lr]; [congruence|].
    assert (Hu : unlink C (Node c (Node cl ll la lr) n (plug Sp (Node cs Leaf sx rs)))
                 = Some (unlink_two C c (Node cl ll la lr) Sp cs sx rs)).
    { unfold unlink. rewrite Hsm. reflexivity. }
    generalize (unlink_tree_at fuel s C c _ n _ _ Hat Hrb Hu Hfuel).
    apply runs_to_weaken. intros reb s' (_ & Hh).
    replace (plug C (Node c (Node cl ll la lr) sx (plug Sp (blacken rs))))
      with (plug (Sp ++ FR c (Node cl ll la lr) sx :: C) (blacken rs))
      by (rewrite plug_app; reflexivity).
    destruct rs; exact Hh.
Qed.

(** *** The rebalance signal *)

Section Signal.

Lemma cpar_ne_null C t :
  C <> [] -> Forall node_addr (inorder (plug C t)) -> cpar NULL C <> NULL.
Proof.
  destruct C as [|f up]; [congruence|]. intros _ HFA.
  rewrite inorder_plug in HFA. apply Forall_app_mid in HFA.
  apply Forall_caddrs_cons in HFA. apply HFA.
Qed.

Lemma erase_unfold fuel n s :
  erase fuel n s
  = match __rb_erase fuel n s with
    | Some (reb, s1) =>
        if reb =? NULL then Some (tt, s1) else __rb_erase_color fuel reb s1
    | None => None
    end.
Proof.
  unfold erase, bind. destruct (__rb_erase fuel n s) as [[reb s1]|]; [|reflexivity].
  destruct (reb =? NULL); reflexivity.
Qed.

Lemma rebalance_signal C c l n r u :
  unlink C (Node c l n r) = Some u ->
  cpar NULL (u_ctx u) <> NULL \/ u_ctx u = [] ->
  (u_ctx u = [] -> C = [] /\ (l = Leaf \/ r = Leaf)) ->
  (rebalance_of u <> NULL <->
   removed_color (Node c l n r) = Black
   /\ replacement (Node c l n r) = Leaf
   /\ ~ spliced_at_root C (Node c l n r)).
Proof.
  unfold unlink, removed_color, replacement, spliced, spliced_at_root, rebalance_of.
  intros Hu Hpar Hnil.
  destruct l as [|cl ll la lr].
  - injection Hu as <-. destruct r as [|cr rl ra rr]; cbn [unlink_one u_short u_ctx fst snd] in *.
    + destruct c; cbn [is_black].
      * split; [congruence|]. intros (H & _). discriminate.
      * split.
        -- intros Hp. split; [reflexivity|]. split; [reflexivity|].
           intros (-> & _). apply Hp. reflexivity.
        -- intros (_ & _ & Hroot). destruct Hpar as [Hp|Hp]; [assumption|].
           exfalso. apply Hroot. split; [apply Hnil; assumption|auto].
    + split; [congruence|]. intros (_ & H & _). discriminate.
  - destruct (split_min r) as [[Sp [[cs sx] rs]]|] eqn:Hr.
    + injection Hu as <-. cbn [fst snd].
      apply split_min_spec in Hr. destruct Hr as (-> & _).
      destruct rs as [|crs a b d]; cbn [unlink_two u_short u_ctx] in *.
      * destruct cs; cbn [is_black].
        -- split; [congruence|]. intros (H & _). discriminate.
        -- split.
           ++ intros _. split; [reflexivity|]. split; [reflexivity|].
              intros (_ & [H|H]); [discriminate|].
              apply (plug_not_leaf Sp (Node Black Leaf sx Leaf)); [discriminate|assumption].
           ++ intros _. destruct Hpar as [Hp|Hp]; [assumption|].
              destruct Sp; discriminate.
      * split; [congruence|]. intros (_ & H & _). discriminate.
    + injection Hu as <-. cbn [unlink_one u_short u_ctx fst snd].
      split; [congruence|]. intros (_ & H & _). discriminate.
Qed.

(** Where the unlink leaves a slot empty and asks for the fixup: the slot
    of the node itself when it had no child, else the former slot of its
    successor; the fixup precondition holds there. *)
Lemma signal_slot C c l n r u :
  unlink C (Node c l n r) = Some u -> unlinked_ok u -> rebalance_of u <> NULL ->
  u_sub u = Leaf /\ erase_inv (u_ctx u) Leaf
  /\ ((l = Leaf /\ r = Leaf /\ u_ctx u = C)
      \/ (exists Sp cs sx,
            l <> Leaf /\ r = plug Sp (Node cs Leaf sx Leaf) /\ left_spine Sp
            /\ u_ctx u = Sp ++ FR c l sx :: C)).
Proof.
  intros Hu Hok Hreb. unfold rebalance_of, unlinked_ok in *.
  destruct (u_short u) eqn:Hshort; [|congruence].
  destruct Hok as (Hsub & [Hnil|Hinv]); [rewrite Hnil in Hreb; contradiction|].
  split; [assumption|]. split; [assumption|].
  unfold unlink in Hu. destruct l as [|cl ll la lr].
  - injection Hu as <-. left. destruct r as [|cr rl ra rr]; cbn in *; [auto|discriminate].
  - right. destruct (split_min r) as [[Sp [[cs sx] rs]]|] eqn:Hr; injection Hu as <-.
    + apply split_min_spec in Hr. destruct Hr as (-> & HS).
      destruct rs as [|crs a b d]; cbn in *; [|discriminate].
      exists Sp, cs, sx. split; [discriminate|auto].
    + cbn in Hshort. discriminate.
Qed.

End Signal.

(** C3, as the code has it.  The unlink phase of an erase on a red-black
    tree returns a rebalance signal that is non-absent exactly when the
    node it spliced out was black, had no child to take its slot, and was
    not the root.  The signal is then the parent of the emptied slot: the
    tree the unlink leaves is [plug (f :: up) Leaf], an absent child under
    the frame [f], the signal is the node of [f], whose cell holds NULL on
    that side, and the loop invariants of the fixup hold there; the slot is
    that of the erased node when it had no child, and else the former slot
    of its successor.  The color fixup runs exactly when the signal is
    non-absent, and when it is absent the tree the unlink leaves already
    satisfies the invariants. *)
Theorem erase_rebalance_signal fuel s C c l n r :
  tree_at s (plug C (Node c l n r)) -> red_black (plug C (Node c l n r)) ->
  (length (inorder (plug C (Node c l n r))) <= fuel)%nat ->
  runs_to (__rb_erase fuel n) s (fun reb s1 =>
    (reb <> NULL <->
     removed_color (Node c l n r) = Black
     /\ replacement (Node c l n r) = Leaf
     /\ ~ spliced_at_root C (Node c l n r))
    /\ (reb = NULL -> rb_valid s1 /\ erase fuel n s = Some (tt, s1))
    /\ (reb <> NULL -> erase fuel n s = __rb_erase_color fuel reb s1)
    /\ (reb <> NULL ->
        exists f up,
          tree_at s1 (plug (f :: up) Leaf) /\ reb = faddr f
          /\ cell s1 reb = Some (fcell (cpar NULL up) NULL f)
          /\ erase_inv (f :: up) Leaf
          /\ ((l = Leaf /\ r = Leaf /\ f :: up = C)
              \/ (exists Sp cs sx,
                    l <> Leaf /\ r = plug Sp (Node cs Leaf sx Leaf)
                    /\ left_spine Sp /\ f :: up = Sp ++ FR c l sx :: C)))).
Proof.
  intros Hat Hrb Hfuel.
  destruct (unlink_is_some C c l n r) as (u & Hu).
  destruct (unlink_pure _ _ _ _ _ _ Hrb Hu) as (Hok & _).
  pose proof (unlink_tree_at fuel s C c l n r u Hat Hrb Hu Hfuel) as Hrun.
  pose proof (erase_unfold fuel n s) as Herase.
  unfold runs_to in *. destruct (__rb_erase fuel n s) as [[reb s1]|]; [|contradiction].
  destruct Hrun as (-> & Hat1).
  assert (Hpar : cpar NULL (u_ctx u) <> NULL \/ u_ctx u = []).
  { destruct (u_ctx u) as [|f up] eqn:E; [right; reflexivity|left].
    eapply cpar_ne_null; [discriminate|apply Hat1]. }
  assert (Hnil : u_ctx u = [] -> C = [] /\ (l = Leaf \/ r = Leaf)).
  { clear -Hu. unfold unlink in Hu. destruct l as [|cl ll la lr].
    - injection Hu as <-. destruct r; cbn [unlink_one u_ctx]; auto.
    - destruct (split_min r) as [[Sp [[cs sx] rs]]|] eqn:Hr; injection Hu as <-.
      + destruct rs; cbn [unlink_two u_ctx]; intros H; destruct Sp; discriminate.
      + apply split_min_none in Hr. cbn [unlink_one u_ctx]. auto. }
  split; [apply (rebalance_signal C c l n r u Hu Hpar Hnil)|].
  split; [|split].
  - intros Hreb. rewrite Hreb in Herase. simpl (NULL =? NULL) in Herase.
    split; [|assumption].
    exists (plug (u_ctx u) (u_sub u)). split; [assumption|].
    unfold rebalance_of, unlinked_ok in *. destruct (u_short u); [|assumption].
    destruct Hok as (Hsub & [Hnil'|Hinv]).
    + rewrite Hnil', Hsub. unfold red_black. simpl. tauto.
    + destruct Hpar as [Hp|Hp]; [contradiction|]. rewrite Hp in Hinv. contradiction.
  - intros Hreb. rewrite (proj2 (Z.eqb_neq _ _) Hreb) in Herase. assumption.
  - intros Hreb.
    destruct (signal_slot C c l n r u Hu Hok Hreb) as (Hsub & Hinv & Hwhere).
    assert (Hr : rebalance_of u = cpar NULL (u_ctx u)).
    { unfold rebalance_of in *. destruct (u_short u); [reflexivity|congruence]. }
    rewrite Hsub in Hat1.
    destruct (u_ctx u) as [|f up] eqn:E; [contradiction|].
    exists f, up. cbn [cpar] in Hr.
    destruct (tree_at_frame_cell _ _ _ _ Hat1) as (Hf & Hcell & _).
    split; [assumption|]. split; [assumption|]. split.
    + rewrite Hr, cell_lookup by apply Hf. exact Hcell.
    + split; assumption.
Qed.

(** C3 as stated fails on the tree of one black node: erasing it removes a
    black node, yet the signal is absent (the emptied slot is the root). *)
Lemma erase_signal_absent_for_black_root :
  ~ match __rb_erase 1 16 Small.s0 with
    | Some (reb, _) => reb <> NULL <-> removed_color Small.t0 = Black
    | None => True
    end.
Proof.
  assert (H : __rb_erase 1 16 Small.s0
              = Some (NULL, mkStore (<[16 := Small.root_node]>
                                       (<[32 := Scenario.blank]> ∅)) NULL))
    by (vm_compute; reflexivity).
  rewrite H. intros [_ Hback]. apply (Hback eq_refl). reflexivity.
Qed.

Section Case1.

Lemma red_sibling_children w k :
  sub_ok w -> bheight w = S k -> col w = Red ->
  exists wl wa wr cl ll la lr cr rl ra rr,
    w = Node Red wl wa wr
    /\ wl = Node Black ll la lr /\ wr = Node Black rl ra rr
    /\ cl = Black /\ cr = Black.
Proof.
  intros (Hn & Hb) Hk Hc. destruct w as [|cw wl wa wr]; [discriminate|].
  cbn [col] in Hc. subst cw. simpl in *.
  destruct Hn as (Hch & _). destruct (Hch eq_refl) as (Hcl & Hcr).
  destruct Hb as (Heq & _).
  destruct wl as [|cl ll la lr]; [simpl in Hk; lia|].
  destruct wr as [|cr rl ra rr]; [simpl in Heq, Hk; lia|].
  cbn [col] in Hcl, Hcr. subst.
  exists (Node Black ll la lr), wa, (Node Black rl ra rr), Black, ll, la, lr, Black, rl, ra, rr.
  repeat split.
Qed.

End Case1.

(** C10.  Under the precondition of the erase fixup (a red-black tree but
    for one subtree, whose paths count one black node less), a red sibling
    has two present black children: in Case 1 the inner child that
    [rb_set_parent_color] dereferences without a test is a node of the
    tree, on the left-hand side and on its mirror, and the whole pass
    through the loop body returns. *)
Theorem erase_case1_inner_child_present s node parent C x :
  erase_head s node parent C x ->
  (exists res s', __rb_erase_color_body node parent s = Some (res, s'))
  /\ (forall sibling,
        get_right parent s = Some (sibling, s) -> node <> sibling ->
        rb_is_red sibling s = Some (true, s) ->
        exists tmp1 outer,
          get_left sibling s = Some (tmp1, s) /\ tmp1 <> NULL
          /\ is_Some (cell s tmp1) /\ rb_is_black tmp1 s = Some (true, s)
          /\ get_right sibling s = Some (outer, s) /\ outer <> NULL
          /\ rb_is_black outer s = Some (true, s))
  /\ (forall sibling,
        get_right parent s = Some (node, s) ->
        get_left parent s = Some (sibling, s) ->
        rb_is_red sibling s = Some (true, s) ->
        exists tmp1 outer,
          get_right sibling s = Some (tmp1, s) /\ tmp1 <> NULL
          /\ is_Some (cell s tmp1) /\ rb_is_black tmp1 s = Some (true, s)
          /\ get_left sibling s = Some (outer, s) /\ outer <> NULL
          /\ rb_is_black outer s = Some (true, s)).
Proof.
  intros Hhead. split.
  { pose proof (erase_body_step _ _ _ _ _ Hhead) as Hstep.
    apply runs_to_inv in Hstep. destruct Hstep as (res & s' & Hrun & _). eauto. }
  destruct Hhead as (Hinv & Hat & -> & ->).
  destruct C as [|f up]; [contradiction|].
  destruct Hinv as (Hcx & Hx & Hw & Hbw & _).
  destruct (tree_at_frame_cell _ _ _ _ Hat) as (Hf & Hfc & Hfal).
  destruct (tree_at_frame_sib _ _ _ _ Hat) as (Hsw & HFAw & Hfx & Hfw & Hdj).
  assert (HFAx : Forall node_addr (inorder x)).
  { destruct Hat as (_ & _ & _ & HFA). rewrite inorder_plug in HFA.
    apply Forall_app_inv in HFA. destruct HFA as (_ & HFA).
    apply Forall_app_inv in HFA. apply HFA. }
  destruct s as [h root]. cbn [nodes cpar] in *.
  assert (Hred : forall sibling, sibling = ptr (fsib f) ->
            rb_is_red sibling (mkStore h root) = Some (true, mkStore h root) ->
            col (fsib f) = Red).
  { intros sibling -> Hr. destruct (fsib f) as [|cw wl wa wr].
    - unfold rb_is_red, get_parent_color, bind, load, cell in Hr. simpl in Hr. discriminate.
    - cbn [shape inorder ptr col] in *. destruct Hsw as (Hwa & _). split_fa HFAw.
      rewrite run_end in Hr. erewrite run_rb_is_red in Hr by side.
      rewrite rd_is_red in Hr by aligned_tac.
      destruct cw; [reflexivity|discriminate]. }
  assert (Hkids : col (fsib f) = Red ->
            exists wl wa wr ll la lr rl ra rr,
              fsib f = Node Red wl wa wr
              /\ wl = Node Black ll la lr /\ wr = Node Black rl ra rr).
  { intros Hc. destruct (red_sibling_children _ _ Hw Hbw Hc)
      as (wl & wa & wr & cl & ll & la & lr & cr & rl & ra & rr & H1 & H2 & H3 & _).
    exists wl, wa, wr, ll, la, lr, rl, ra, rr. auto. }
  assert (Hreads : forall wl wa wr ll la lr rl ra rr,
            fsib f = Node Red wl wa wr ->
            wl = Node Black ll la lr -> wr = Node Black rl ra rr ->
            get_left wa (mkStore h root) = Some (la, mkStore h root)
            /\ la <> NULL /\ is_Some (cell (mkStore h root) la)
            /\ rb_is_black la (mkStore h root) = Some (true, mkStore h root)
            /\ get_right wa (mkStore h root) = Some (ra, mkStore h root)
            /\ ra <> NULL /\ is_Some (cell (mkStore h root) ra)
            /\ rb_is_black ra (mkStore h root) = Some (true, mkStore h root)).
  { intros wl wa wr ll la lr rl ra rr E -> ->. rewrite E in *.
    cbn [shape inorder ptr] in *. destruct_ands. split_fa HFAw.
    repeat split; try diseq.
    - rewrite run_end. exec. reflexivity.
    - eexists. apply cell_known; [diseq|eassumption].
    - rewrite run_end. exec. reflexivity.
    - rewrite run_end. exec. reflexivity.
    - eexists. apply cell_known; [diseq|eassumption].
    - rewrite run_end. exec. reflexivity. }
  assert (Hdiff : ptr x <> ptr (fsib f)).
  { intros Heq. assert (Hwn : fsib f <> Leaf)
      by (intros E; rewrite E in Hbw; simpl in Hbw; lia).
    pose proof (ptr_elem_of _ Hwn) as Hin.
    destruct x as [|cx xl xa xr].
    - apply Hwn. apply ptr_null_leaf; [assumption|]. rewrite <- Heq. reflexivity.
    - apply (Hdj (ptr (fsib f))); [|assumption]. rewrite <- Heq.
      apply ptr_elem_of. discriminate. }
  split.
  - intros sibling Hgr Hne Hr.
    destruct f as [cp p w|cp w p]; cbn [faddr fsib fcell] in *.
    + rewrite run_end in Hgr. erewrite run_get_right in Hgr by side.
      unfold ret in Hgr. injection Hgr as <-.
      destruct (Hkids (Hred _ eq_refl Hr))
        as (wl & wa & wr & ll & la & lr & rl & ra & rr & E & E1 & E2).
      destruct (Hreads _ _ _ _ _ _ _ _ _ E E1 E2) as (R1 & R2 & R3 & R4 & R5 & R6 & _ & R8).
      rewrite E. cbn [ptr]. exists la, ra. auto 10.
    + rewrite run_end in Hgr. erewrite run_get_right in Hgr by side.
      unfold ret in Hgr. injection Hgr as <-. congruence.
  - intros sibling Hgr Hgl Hr.
    destruct f as [cp p w|cp w p]; cbn [faddr fsib fcell] in *.
    + exfalso. rewrite run_end in Hgr. erewrite run_get_right in Hgr by side.
      unfold ret in Hgr. injection Hgr as Hgr. apply Hdiff. symmetry. exact Hgr.
    + rewrite run_end in Hgl. erewrite run_get_left in Hgl by side.
      unfold ret in Hgl. injection Hgl as <-.
      destruct (Hkids (Hred _ eq_refl Hr))
        as (wl & wa & wr & ll & la & lr & rl & ra & rr & E & E1 & E2).
      destruct (Hreads _ _ _ _ _ _ _ _ _ E E1 E2) as (R1 & R2 & R3 & R4 & R5 & R6 & R7 & R8).
      rewrite E. cbn [ptr]. exists ra, la. auto 10.
Qed.

(** ** Concrete states for the erase theorems *)

Lemma four_tree_at : tree_at Four.s4 Four.t4.
Proof.
  split; [reflexivity|]. split; [|split].
  - cbn [shape Four.t4 Four.l4 Four.r4]. repeat split; vm_compute; reflexivity.
  - cbn. concrete_nodup.
  - cbn. concrete_addrs.
Qed.

Lemma four_red_black : red_black Four.t4.
Proof. unfold red_black. cbn. repeat split; intros; congruence. Qed.

Lemma short_head : erase_head Short.s NULL 32 Short.C Leaf.
Proof.
  split; [|split; [|split; reflexivity]].
  - cbn. repeat split; intros; congruence.
  - split; [reflexivity|]. split; [|split].
    + cbn [shape plug fill Short.C Short.w]. repeat split; vm_compute; reflexivity.
    + cbn. concrete_nodup.
    + cbn. concrete_addrs.
Qed.

Lemma erase_removes_exactly_witness :
  runs_to (erase 4 32) Four.s4 (fun _ s' =>
    rb_valid s'
    /\ exists l1 l2, inorder Four.t4 = l1 ++ 32 :: l2
                     /\ in_order s' (l1 ++ l2)
                     /\ forall a, a ∈ l1 ++ l2 <-> a ∈ inorder Four.t4 /\ a <> 32).
Proof.
  apply (erase_removes_exactly Four.s4 Four.t4 32 4).
  - exact four_tree_at.
  - exact four_red_black.
  - cbn. rewrite !elem_of_cons. auto.
  - simpl. lia.
Defined.

Lemma erase_splices_successor_witness :
  exists Sp cs sx rs,
    Four.r4 = plug Sp (Node cs Leaf sx rs) /\ left_spine Sp
    /\ (ptr Four.r4 = sx <-> Sp = [])
    /\ runs_to (__rb_erase 4 32) Four.s4 (fun _ s' =>
         tree_at s' (plug [] (Node Black Four.l4 sx (plug Sp (blacken rs))))).
Proof.
  apply (erase_splices_successor 4 Four.s4 [] Black Four.l4 32 Four.r4).
  - exact four_tree_at.
  - exact four_red_black.
  - discriminate.
  - discriminate.
  - simpl. lia.
Defined.

Lemma erase_rebalance_signal_witness :
  runs_to (__rb_erase 4 16) Four.s4 (fun reb s1 =>
    (reb <> NULL <->
     removed_color (Node Black Leaf 16 Leaf) = Black
     /\ replacement (Node Black Leaf 16 Leaf) = Leaf
     /\ ~ spliced_at_root [FL Black 32 Four.r4] (Node Black Leaf 16 Leaf))
    /\ (reb = NULL -> rb_valid s1 /\ erase 4 16 Four.s4 = Some (tt, s1))
    /\ (reb <> NULL -> erase 4 16 Four.s4 = __rb_erase_color 4 reb s1)
    /\ (reb <> NULL ->
        exists f up,
          tree_at s1 (plug (f :: up) Leaf) /\ reb = faddr f
          /\ cell s1 reb = Some (fcell (cpar NULL up) NULL f)
          /\ erase_inv (f :: up) Leaf
          /\ ((Leaf = Leaf /\ Leaf = Leaf /\ f :: up = [FL Black 32 Four.r4])
              \/ (exists Sp cs sx,
                    Leaf <> Leaf /\ Leaf = plug Sp (Node cs Leaf sx Leaf)
                    /\ left_spine Sp
                    /\ f :: up = Sp ++ FR Black Leaf sx :: [FL Black 32 Four.r4])))).
Proof.
  apply (erase_rebalance_signal 4 Four.s4 [FL Black 32 Four.r4] Black Leaf 16 Leaf).
  - exact four_tree_at.
  - exact four_red_black.
  - simpl. lia.
Defined.

Lemma erase_case1_inner_child_present_witness :
  (exists res s', __rb_erase_color_body NULL 32 Short.s = Some (res, s'))
  /\ (forall sibling,
        get_right 32 Short.s = Some (sibling, Short.s) -> NULL <> sibling ->
        rb_is_red sibling Short.s = Some (true, Short.s) ->
        exists tmp1 outer,
          get_left sibling Short.s = Some (tmp1, Short.s) /\ tmp1 <> NULL
          /\ is_Some (cell Short.s tmp1)
          /\ rb_is_black tmp1 Short.s = Some (true, Short.s)
          /\ get_right sibling Short.s = Some (outer, Short.s) /\ outer <> NULL
          /\ rb_is_black outer Short.s = Some (true, Short.s))
  /\ (forall sibling,
        get_right 32 Short.s = Some (NULL, Short.s) ->
        get_left 32 Short.s = Some (sibling, Short.s) ->
        rb_is_red sibling Short.s = Some (true, Short.s) ->
        exists tmp1 outer,
          get_right sibling Short.s = Some (tmp1, Short.s) /\ tmp1 <> NULL
          /\ is_Some (cell Short.s tmp1)
          /\ rb_is_black tmp1 Short.s = Some (true, Short.s)
          /\ get_left sibling Short.s = Some (outer, Short.s) /\ outer <> NULL
          /\ rb_is_black outer Short.s = Some (true, Short.s)).
Proof.
  apply (erase_case1_inner_child_present Short.s NULL 32 Short.C Leaf).
  exact short_head.
Defined.

(** * Beyond the claims: locality, round trips and edge cases *)

(** ** Locality of the tree programs *)

Section Local.

Context {A B : Type}.

Lemma local_ret (a : A) : local (ret a).
Proof.
  intros s r s' H. injection H as <- <-. split; [reflexivity|]. reflexivity.
Qed.

Lemma local_fault : local (@fault A).
Proof. intros s r s' H. discriminate. Qed.

Lemma local_bind (m : M A) (k : A -> M B) :
  local m -> (forall a, local (k a)) -> local (bind m k).
Proof.
  intros Hm Hk s r s' H. unfold bind in *.
  destruct (m s) as [[a s1]|] eqn:E; [|discriminate].
  destruct (Hm _ _ _ E) as (Hd1 & Hf1).
  destruct (Hk a _ _ _ H) as (Hd2 & Hf2).
  split.
  - intros b. rewrite Hd2. apply Hd1.
  - intros b nd Hb. rewrite (Hf1 b nd Hb). apply Hf2.
    destruct (nodes s1 !! b) eqn:E1; [|reflexivity].
    assert (Hs : is_Some (nodes s !! b)) by (apply Hd1; eauto).
    rewrite Hb in Hs. destruct Hs as [? Hs]. discriminate.
Qed.

End Local.

Section LocalPrimitives.

Lemma cell_with_cell b nd s p x :
  nodes s !! b = None -> cell s p = Some x -> cell (with_cell b nd s) p = Some x.
Proof.
  unfold cell, with_cell. cbn [nodes]. intros Hb. destruct (p =? NULL); [discriminate|].
  intros Hp. rewrite lookup_insert_ne; [assumption|]. congruence.
Qed.

Lemma local_load p : local (load p).
Proof.
  intros s r s' H. unfold load in *.
  destruct (cell s p) as [x|] eqn:E; [|discriminate]. injection H as <- <-.
  split; [reflexivity|]. intros b nd Hb.
  rewrite (cell_with_cell _ _ _ _ _ Hb E). reflexivity.
Qed.

Lemma local_store_node p n : local (store_node p n).
Proof.
  intros s r s' H. unfold store_node in *.
  destruct (cell s p) as [x|] eqn:E; [|discriminate]. injection H as <- <-.
  assert (Hp : nodes s !! p = Some x).
  { unfold cell in E. destruct (p =? NULL); [discriminate|assumption]. }
  split.
  - intros b. cbn [nodes]. destruct (decide (p = b)) as [->|Hne].
    + rewrite lookup_insert_eq, Hp. split; eauto.
    + rewrite lookup_insert_ne by assumption. reflexivity.
  - intros b nd Hb. rewrite (cell_with_cell _ _ _ _ _ Hb E).
    unfold with_cell. cbn [nodes rb_node]. f_equal. f_equal. f_equal.
    apply insert_insert_ne. congruence.
Qed.

Lemma local_get_root : local get_root.
Proof. intros s r s' H. injection H as <- <-. split; reflexivity. Qed.

Lemma local_set_root p : local (set_root p).
Proof. intros s r s' H. injection H as <- <-. split; reflexivity. Qed.

End LocalPrimitives.

Ltac unfold_prims :=
  unfold RBNode_parent, rb_color, rb_is_red, rb_is_black, rb_set_parent,
    rb_set_parent_color, __rb_change_child, rb_set_black, rb_red_parent,
    __rb_rotate_set_parents, get_parent_color, get_right, get_left,
    set_parent_color, set_right, set_left.

Ltac local_step :=
  first
    [ apply local_ret | apply local_fault | apply local_load | apply local_store_node
    | apply local_get_root | apply local_set_root
    | apply local_bind; [|intros ?]
    | match goal with
      | |- local (if ?c then _ else _) => destruct c
      | |- local (match ?x with _ => _ end) => destruct x
      | |- local (let '(_, _) := ?x in _) => destruct x
      end
    | progress cbv zeta
    | progress unfold_prims ].

Ltac local_tac := repeat local_step.

Section LocalPrograms.

Lemma local_get_parent_color p : local (get_parent_color p).
Proof. unfold get_parent_color. local_tac. Qed.
Lemma local_get_right p : local (get_right p).
Proof. unfold get_right. local_tac. Qed.
Lemma local_get_left p : local (get_left p).
Proof. unfold get_left. local_tac. Qed.
Lemma local_set_parent_color p v : local (set_parent_color p v).
Proof. unfold set_parent_color. local_tac. Qed.
Lemma local_set_right p v : local (set_right p v).
Proof. unfold set_right. local_tac. Qed.
Lemma local_set_left p v : local (set_left p v).
Proof. unfold set_left. local_tac. Qed.

Lemma local_leftmost_walk fuel : forall successor tmp, local (leftmost_walk fuel successor tmp).
Proof.
  induction fuel as [|fuel IH]; intros successor tmp; cbn [leftmost_walk].
  - apply local_fault.
  - unfold_prims. local_tac. apply IH.
Qed.

Lemma local_rb_erase fuel node : local (__rb_erase fuel node).
Proof.
  unfold __rb_erase. unfold_prims.
  repeat first [ apply local_leftmost_walk | local_step ].
Qed.

Lemma local_insert_body node parent : local (__rb_insert_body node parent).
Proof. unfold __rb_insert_body. unfold_prims. local_tac. Qed.

Lemma local_insert_loop fuel : forall node parent, local (__rb_insert_loop fuel node parent).
Proof.
  induction fuel as [|fuel IH]; intros node parent; cbn [__rb_insert_loop].
  - apply local_fault.
  - repeat first [ apply local_insert_body | apply IH | local_step ].
Qed.

Lemma local_rb_insert fuel node : local (__rb_insert fuel node).
Proof.
  unfold __rb_insert. unfold_prims.
  repeat first [ apply local_insert_loop | local_step ].
Qed.

Lemma local_erase_color_body node parent : local (__rb_erase_color_body node parent).
Proof.
  unfold __rb_erase_color_body, erase_color_left_rest, erase_color_right_rest,
    erase_color_left_tail, erase_color_right_tail. unfold_prims. local_tac.
Qed.

Lemma local_erase_color_loop fuel :
  forall node parent, local (__rb_erase_color_loop fuel node parent).
Proof.
  induction fuel as [|fuel IH]; intros node parent; cbn [__rb_erase_color_loop].
  - apply local_fault.
  - repeat first [ apply local_erase_color_body | apply IH | local_step ].
Qed.

Lemma local_erase fuel node : local (erase fuel node).
Proof.
  unfold erase, __rb_erase_color.
  repeat first [ apply local_rb_erase | apply local_erase_color_loop | local_step ].
Qed.

Lemma local_insert_color fuel node : local (insert_color fuel node).
Proof. apply local_rb_insert. Qed.

Lemma local_replace victim n : local (replace victim n).
Proof. unfold replace. unfold_prims. local_tac. Qed.

Lemma local_link_node n p sd : local (link_node n p sd).
Proof. unfold link_node. unfold_prims. local_tac. Qed.

End LocalPrograms.

(** ** Runs of the three operations, for the theorems that compose them *)

Section Runs.

Lemma runs_to_assoc {A B D : Type} (m : M A) (k : A -> M B) (k' : B -> M D) s Q :
  runs_to (bind (bind m k) k') s Q <-> runs_to (bind m (fun a => bind (k a) k')) s Q.
Proof. unfold runs_to, bind. destruct (m s) as [[a s1]|]; reflexivity. Qed.

Lemma runs_to_and {A : Type} (m : M A) s (Q Q' : A -> store -> Prop) :
  runs_to m s Q -> runs_to m s Q' -> runs_to m s (fun a s' => Q a s' /\ Q' a s').
Proof. unfold runs_to. destruct (m s) as [[a s1]|]; auto. Qed.

Lemma runs_to_all {A X : Type} (m : M A) s (P : X -> Prop) (Q : X -> store -> Prop)
    (Q0 : A -> store -> Prop) :
  runs_to m s Q0 ->
  (forall x, P x -> runs_to m s (fun _ s' => Q x s')) ->
  runs_to m s (fun _ s' => forall x, P x -> Q x s').
Proof.
  unfold runs_to. destruct (m s) as [[a s1]|]; [|auto].
  intros _ H x Hx. exact (H x Hx).
Qed.

Lemma cell_nodes s s' b : nodes s' !! b = nodes s !! b -> cell s' b = cell s b.
Proof. unfold cell. intros ->. reflexivity. Qed.

Lemma insert_runs s t p sd n fuel :
  tree_at s t -> red_black t -> attach_point s t p sd -> detached s t n ->
  (length (inorder t) < fuel)%nat ->
  runs_to (link_node n p sd;; insert_color fuel n) s (fun _ s' =>
    exists t' l1 l2, tree_at s' t' /\ red_black t'
                     /\ inorder t = l1 ++ l2 /\ inorder t' = l1 ++ n :: l2).
Proof.
  intros Hat Hrb Hap (Hn & Hni & nd0 & Hcell) Hfuel.
  destruct (attach_point_ctx _ _ _ _ Hat Hap) as (C & -> & -> & Hsd).
  destruct s as [h root].
  rewrite cell_lookup in Hcell by apply Hn. cbn [nodes] in Hcell.
  assert (Hlen : (length C < fuel)%nat).
  { pose proof (length_ctx_le C Leaf). lia. }
  generalize (link_insert_spec fuel h root C n nd0 sd Hat Hrb Hn Hni Hcell Hsd Hlen).
  apply runs_to_weaken. intros _ s' (t' & H1 & H2 & H3).
  exists t', (cleft C), (cright C). rewrite inorder_plug. auto.
Qed.

Lemma erase_runs s t n fuel :
  tree_at s t -> red_black t -> n ∈ inorder t ->
  (length (inorder t) <= fuel)%nat ->
  runs_to (erase fuel n) s (fun _ s' =>
    exists t' l1 l2, tree_at s' t' /\ red_black t'
                     /\ inorder t = l1 ++ n :: l2 /\ inorder t' = l1 ++ l2).
Proof.
  intros Hat Hrb Hn Hfuel.
  destruct (tree_find _ _ Hn) as (C & c & l & r & ->).
  exact (erase_spec fuel s C c l n r Hat Hrb Hfuel).
Qed.

Lemma NoDup_split_unique (l1 l2 k1 k2 : list Z) n :
  NoDup (l1 ++ n :: l2) -> l1 ++ n :: l2 = k1 ++ n :: k2 -> l1 = k1 /\ l2 = k2.
Proof.
  revert k1. induction l1 as [|a l1 IH]; intros k1 HND Heq.
  - destruct k1 as [|b k1]; simpl in *.
    + injection Heq as ->. auto.
    + injection Heq as <- ->. apply NoDup_cons_inv in HND. destruct HND as (Hni & _).
      exfalso. apply Hni. rewrite elem_of_app, elem_of_cons. auto.
  - destruct k1 as [|b k1]; simpl in *.
    + injection Heq as -> <-. apply NoDup_cons_inv in HND. destruct HND as (Hni & _).
      exfalso. apply Hni. rewrite elem_of_app, elem_of_cons. auto.
    + injection Heq as <- Heq. apply NoDup_cons_inv in HND. destruct HND as (_ & HND).
      destruct (IH _ HND Heq) as (-> & ->). auto.
Qed.

End Runs.

(** ** Stores with one node more or less *)

Section Frame.

Lemma with_without b nd s : nodes s !! b = Some nd -> with_cell b nd (without_cell b s) = s.
Proof.
  intros Hb. destruct s as [h root]. unfold with_cell, without_cell. cbn [nodes rb_node] in *.
  f_equal. apply insert_delete_id. assumption.
Qed.

Lemma without_absent b s : nodes s !! b = None -> without_cell b s = s.
Proof.
  intros Hb. destruct s as [h root]. unfold without_cell. cbn [nodes rb_node] in *.
  f_equal. apply delete_id. assumption.
Qed.

Lemma tree_at_without s t b : b ∉ inorder t -> tree_at s t -> tree_at (without_cell b s) t.
Proof.
  intros Hb (Hroot & Hsh & HND & HFA). split; [assumption|]. split; [|auto].
  cbn [without_cell nodes]. eapply shape_agree; [|eassumption].
  intros a Ha. apply lookup_delete_ne. intros ->. contradiction.
Qed.

Lemma cell_without s b a : a <> b -> cell (without_cell b s) a = cell s a.
Proof.
  intros Hne. unfold cell, without_cell. cbn [nodes].
  rewrite lookup_delete_ne by congruence. reflexivity.
Qed.

(** A local program that runs without the node at [b] runs with it, and
    leaves it as it was. *)
Lemma local_frame {A : Type} (m : M A) s b (Q : A -> store -> Prop) :
  local m -> runs_to m (without_cell b s) Q ->
  runs_to m s (fun _ s' => cell s' b = cell s b).
Proof.
  intros Hloc Hrun. apply runs_to_inv in Hrun. destruct Hrun as (r & s0 & E & _).
  destruct (Hloc _ _ _ E) as (Hd & Hf).
  assert (Hnone : nodes (without_cell b s) !! b = None)
    by (cbn [without_cell nodes]; apply lookup_delete_eq).
  destruct (nodes s !! b) as [nd|] eqn:Hb.
  - specialize (Hf b nd Hnone). rewrite with_without in Hf by assumption.
    unfold runs_to. rewrite Hf. apply cell_nodes. cbn [with_cell nodes].
    rewrite lookup_insert_eq. symmetry. assumption.
  - rewrite without_absent in E by assumption.
    unfold runs_to. rewrite E. apply cell_nodes. rewrite Hb.
    destruct (nodes s0 !! b) eqn:E0; [|reflexivity].
    assert (Hs : is_Some (nodes s !! b)).
    { rewrite without_absent in Hd by assumption. apply Hd. eauto. }
    rewrite Hb in Hs. destruct Hs as [? Hs]. discriminate.
Qed.

(** A local program allocates and frees nothing. *)
Lemma local_alloc {A : Type} (m : M A) s (Q : A -> store -> Prop) :
  local m -> runs_to m s Q ->
  runs_to m s (fun _ s' => forall a, is_Some (cell s' a) <-> is_Some (cell s a)).
Proof.
  intros Hloc Hrun. apply runs_to_inv in Hrun. destruct Hrun as (r & s0 & E & _).
  destruct (Hloc _ _ _ E) as (Hd & _). unfold runs_to. rewrite E.
  intros a. unfold cell. destruct (a =? NULL); [reflexivity|apply Hd].
Qed.

Lemma attach_point_without s t p sd b :
  b ∉ inorder t -> attach_point s t p sd -> attach_point (without_cell b s) t p sd.
Proof.
  intros Hb [H|(Hp & nd & Hc & Hf)]; [left; assumption|right].
  split; [assumption|]. exists nd. split; [|assumption].
  rewrite cell_without; [assumption|]. intros ->. contradiction.
Qed.

Lemma detached_without s t n b :
  b <> n -> detached s t n -> detached (without_cell b s) t n.
Proof.
  intros Hb (Hn & Hni & Hc). split; [assumption|]. split; [assumption|].
  rewrite cell_without by congruence. assumption.
Qed.

End Frame.

(** X7.  Inserting a node touches no node outside the tree but the new
    one: for every address [b] that is not a node of the tree and is not
    the new node, the cell at [b] is after [link_node; insert_color] what it
    was before (a node that was there is unchanged, an address that held
    none still holds none); and no address is allocated or freed. *)
Theorem insert_color_frame s t p sd n fuel :
  tree_at s t -> red_black t -> attach_point s t p sd -> detached s t n ->
  (length (inorder t) < fuel)%nat ->
  runs_to (link_node n p sd;; insert_color fuel n) s (fun _ s' =>
    (forall b, (b ∉ inorder t) /\ b <> n -> cell s' b = cell s b)
    /\ (forall a, is_Some (cell s' a) <-> is_Some (cell s a))).
Proof.
  intros Hat Hrb Hap Hdet Hfuel.
  assert (Hloc : local (link_node n p sd;; insert_color fuel n)).
  { apply local_bind; [apply local_link_node|intros _; apply local_insert_color]. }
  pose proof (insert_runs _ _ _ _ _ _ Hat Hrb Hap Hdet Hfuel) as Hrun.
  pose proof (local_alloc _ _ _ Hloc Hrun) as Hal.
  assert (Hfr : forall b, b ∉ inorder t -> b <> n ->
            runs_to (link_node n p sd;; insert_color fuel n) s
              (fun _ s' => cell s' b = cell s b)).
  { intros b Hb Hbn. eapply local_frame; [exact Hloc|].
    apply insert_runs with (t := t); auto using tree_at_without,
      attach_point_without, detached_without. }
  apply runs_to_and; [|assumption].
  apply (runs_to_all _ _ (fun b => (b ∉ inorder t) /\ b <> n)
           (fun b s' => cell s' b = cell s b) _ Hrun).
  intros b (Hb & Hbn). apply Hfr; assumption.
Qed.

(** X8.  Erasing a node touches no node outside the tree: for every
    address [b] that is not a node of the tree, the cell at [b] is after
    [erase] what it was before; and no address is allocated or freed (the
    erased node stays allocated). *)
Theorem erase_frame s t n fuel :
  tree_at s t -> red_black t -> n ∈ inorder t ->
  (length (inorder t) <= fuel)%nat ->
  runs_to (erase fuel n) s (fun _ s' =>
    (forall b, b ∉ inorder t -> cell s' b = cell s b)
    /\ (forall a, is_Some (cell s' a) <-> is_Some (cell s a))).
Proof.
  intros Hat Hrb Hn Hfuel.
  pose proof (erase_runs _ _ _ _ Hat Hrb Hn Hfuel) as Hrun.
  pose proof (local_alloc _ _ _ (local_erase fuel n) Hrun) as Hal.
  assert (Hfr : forall b, b ∉ inorder t ->
            runs_to (erase fuel n) s (fun _ s' => cell s' b = cell s b)).
  { intros b Hb. eapply local_frame; [apply local_erase|].
    apply erase_runs with (t := t); auto using tree_at_without. }
  apply runs_to_and; [|assumption].
  apply (runs_to_all _ _ (fun b => b ∉ inorder t)
           (fun b s' => cell s' b = cell s b) _ Hrun).
  exact Hfr.
Qed.

Section ReplaceTwice.

(** [replace] as [replace_spec] has it, and the victim keeps its words. *)
Lemma replace_spec_victim h root C c l v r n nd0 :
  tree_at (mkStore h root) (plug C (Node c l v r)) ->
  node_addr n -> n ∉ inorder (plug C (Node c l v r)) -> h !! n = Some nd0 ->
  runs_to (replace v n) (mkStore h root) (fun _ s' =>
    tree_at s' (plug C (Node c l n r))
    /\ nodes s' !! n = h !! v /\ nodes s' !! v = h !! v).
Proof.
  unfold tree_at. cbn [nodes rb_node].
  intros (Hroot & Hsh & HND & HFA) AD Hni Hn.
  assert (HND' : NoDup (inorder (plug C (Node c l n r)))).
  { rewrite inorder_plug in *. cbn [inorder] in *. rewrite <- app_assoc in *.
    cbn [app] in *. rewrite app_assoc in *.
    eapply NoDup_replace_mid; eassumption. }
  assert (HFA' : Forall node_addr (inorder (plug C (Node c l n r)))).
  { rewrite inorder_plug in *. cbn [inorder] in *.
    rewrite !Forall_app, Forall_cons in *. tauto. }
  rewrite inorder_plug in Hni.
  destruct l as [|cl ll la lr]; destruct r as [|cr rl ra rr];
    cbn [inorder] in Hni; split_ni Hni;
    open_tree Hroot Hsh HND HFA; subst root;
    unfold runs_to, replace; exec; run_change_child; exec;
    erewrite run_load by side; rewrite run_end;
    erewrite run_store_node by side; unfold ret; cbn [nodes rb_node].
  all: split; [|split; [rewrite lookup_insert_eq; symmetry; eassumption|]].
  all: try (rewrite ptr_plug; cbn [ptr]; (split; [reflexivity|]);
            (split; [|auto]);
            rewrite shape_plug; cbn [ptr cpar]; (split; [cshape_opaque|shape_nodes])).
  all: lookup.
Qed.

Lemma tree_at_lookup_unique s s' t b :
  tree_at s t -> tree_at s' t -> b ∈ inorder t -> nodes s' !! b = nodes s !! b.
Proof.
  intros Hat Hat' Hb. destruct (tree_find _ _ Hb) as (C & c & l & r & ->).
  destruct (tree_at_cell _ _ _ _ _ _ Hat) as (_ & -> & _).
  destruct (tree_at_cell _ _ _ _ _ _ Hat') as (_ & -> & _). reflexivity.
Qed.

Lemma replace_twice_runs s t v n :
  tree_at s t -> v ∈ inorder t -> detached s t n ->
  runs_to (replace v n;; replace n v) s (fun _ s' =>
    tree_at s' t /\ cell s' n = cell s v).
Proof.
  intros Hat Hv (Hn & Hni & nd0 & Hcell).
  destruct (tree_find _ _ Hv) as (C & c & l & r & ->).
  destruct (tree_at_cell _ _ _ _ _ _ Hat) as (Hva & Hvc & _).
  destruct s as [h root].
  rewrite cell_lookup in Hcell by apply Hn. cbn [nodes] in *.
  apply runs_to_bind.
  generalize (replace_spec_victim h root C c l v r n nd0 Hat Hn Hni Hcell).
  apply runs_to_weaken. intros _ [h1 root1] (Hat1 & Hcopy & Hkeep).
  cbn [nodes] in *.
  assert (Hv1 : v ∉ inorder (plug C (Node c l n r))).
  { destruct Hat as (_ & _ & HND & _). rewrite inorder_plug in *.
    cbn [inorder] in *. rewrite <- app_assoc in *. cbn [app] in *.
    rewrite app_assoc in *. intros Hin.
    assert (Hne : v <> n).
    { intros ->. apply Hni. rewrite !elem_of_app, elem_of_cons. auto. }
    rewrite elem_of_app, elem_of_cons in Hin.
    apply NoDup_app_inv in HND. destruct HND as (_ & HND & Hd).
    apply NoDup_cons_inv in HND. destruct HND as (Hx & _).
    destruct Hin as [Hin|[Hin|Hin]]; [|congruence|contradiction].
    apply (Hd v Hin). rewrite elem_of_cons. auto. }
  rewrite Hvc in Hkeep.
  generalize (replace_spec_victim h1 root1 C c l n r v _ Hat1 Hva Hv1 Hkeep).
  apply runs_to_weaken. intros _ s2 (Hat2 & _ & Hkeep2).
  split; [assumption|].
  rewrite !cell_lookup by (apply Hn || apply Hva). cbn [nodes].
  rewrite Hkeep2, Hcopy. reflexivity.
Qed.

End ReplaceTwice.


(** X2.  Replacing a node and replacing it back restores the tree: after
    [replace(victim, new); replace(new, victim)] the store holds the same
    tree as before, every cell but that of [new] is what it was (the victim
    has its three words again, and so has every node around it), and [new]
    is left with a copy of the victim's words. *)
Theorem replace_round_trip s t victim n :
  tree_at s t -> victim ∈ inorder t -> detached s t n ->
  runs_to (replace victim n;; replace n victim) s (fun _ s' =>
    tree_at s' t
    /\ (forall b, b <> n -> cell s' b = cell s b)
    /\ cell s' n = cell s victim).
Proof.
  intros Hat Hv Hdet.
  pose proof (replace_twice_runs _ _ _ _ Hat Hv Hdet) as Hrun.
  assert (Hloc : local (replace victim n;; replace n victim)).
  { apply local_bind; [apply local_replace|intros _; apply local_replace]. }
  assert (Hfr : runs_to (replace victim n;; replace n victim) s (fun _ s' =>
            forall b, (b ∉ inorder t) /\ b <> n -> cell s' b = cell s b)).
  { apply (runs_to_all _ _ (fun b => (b ∉ inorder t) /\ b <> n)
             (fun b s' => cell s' b = cell s b) _ Hrun).
    intros b (Hb & Hbn). eapply local_frame; [exact Hloc|].
    apply replace_twice_runs with (t := t); auto using tree_at_without, detached_without. }
  pose proof (runs_to_and _ _ _ _ Hrun Hfr) as Hboth.
  revert Hboth. apply runs_to_weaken. intros _ s' ((Hat' & Hcopy) & Hout).
  split; [assumption|]. split; [|assumption].
  intros b Hbn. destruct (decide (b ∈ inorder t)) as [Hin|Hnin].
  - apply cell_nodes. eapply tree_at_lookup_unique; eassumption.
  - apply Hout. auto.
Qed.

Section SmallTrees.

Lemma inorder_nil t : inorder t = [] -> t = Leaf.
Proof.
  destruct t as [|c l a r]; [reflexivity|]. cbn [inorder]. intros H.
  apply app_eq_nil in H. destruct H as (_ & H). discriminate.
Qed.

Lemma inorder_singleton t n : inorder t = [n] -> exists c, t = Node c Leaf n Leaf.
Proof.
  destruct t as [|c l a r]; [discriminate|]. cbn [inorder]. intros H.
  destruct (inorder l) as [|x xs] eqn:El.
  - cbn [app] in H. injection H as -> Hr.
    apply inorder_nil in El. apply inorder_nil in Hr. subst. eauto.
  - cbn [app] in H. injection H as -> H. apply app_eq_nil in H.
    destruct H as (_ & H). discriminate.
Qed.

End SmallTrees.

(** X1.  Inserting a node and erasing it again restores the sequence: on
    a store holding a red-black tree, [link_node; insert_color; erase] of
    the same node returns and leaves a red-black tree with the in-order
    sequence it had before (the shape and the colors may differ), and the
    node is detached again: allocated, and not in the tree. *)
Theorem insert_then_erase_restores s t p sd n fuel :
  tree_at s t -> red_black t -> attach_point s t p sd -> detached s t n ->
  (length (inorder t) < fuel)%nat ->
  runs_to (link_node n p sd;; insert_color fuel n;; erase fuel n) s (fun _ s' =>
    exists t', tree_at s' t' /\ red_black t' /\ inorder t' = inorder t
               /\ detached s' t' n).
Proof.
  intros Hat Hrb Hap Hdet Hfuel.
  assert (Hrun : runs_to (link_node n p sd;; insert_color fuel n;; erase fuel n) s
            (fun _ s' => exists t', tree_at s' t' /\ red_black t'
                                    /\ inorder t' = inorder t)).
  { apply (proj1 (runs_to_assoc (link_node n p sd) (fun _ => insert_color fuel n)
                    (fun _ => erase fuel n) s _)).
    apply runs_to_bind.
    generalize (insert_runs _ _ _ _ _ _ Hat Hrb Hap Hdet Hfuel).
    apply runs_to_weaken. intros _ s1 (t1 & l1 & l2 & Hat1 & Hrb1 & Hio & Hio1).
    assert (Hn1 : n ∈ inorder t1).
    { rewrite Hio1, elem_of_app, elem_of_cons. auto. }
    assert (Hlen : (length (inorder t1) <= fuel)%nat).
    { rewrite Hio1. rewrite Hio in Hfuel. rewrite length_app in *. simpl. lia. }
    generalize (erase_runs _ _ _ _ Hat1 Hrb1 Hn1 Hlen).
    apply runs_to_weaken. intros _ s2 (t2 & k1 & k2 & Hat2 & Hrb2 & Hsplit & Hio2).
    exists t2. split; [assumption|]. split; [assumption|].
    rewrite Hio1 in Hsplit.
    destruct (NoDup_split_unique l1 l2 k1 k2 n) as (-> & ->); [|assumption|congruence].
    rewrite <- Hio1. apply Hat1. }
  assert (Hloc : local (link_node n p sd;; insert_color fuel n;; erase fuel n)).
  { apply local_bind; [apply local_link_node|intros _].
    apply local_bind; [apply local_insert_color|intros _]. apply local_erase. }
  pose proof (runs_to_and _ _ _ _ Hrun (local_alloc _ _ _ Hloc Hrun)) as Hboth.
  revert Hboth. apply runs_to_weaken. intros _ s' ((t' & Hat' & Hrb' & Hio') & Hal).
  exists t'. split; [assumption|]. split; [assumption|]. split; [assumption|].
  destruct Hdet as (Hn & Hni & Hc). split; [assumption|]. split.
  - rewrite Hio'. assumption.
  - apply Hal. assumption.
Qed.

(** X3.  Erasing empties the tree exactly when the node was the last one:
    after [erase(n)] on a red-black tree the root field is NULL if and only
    if [n] was the only node of the tree. *)
Theorem erase_empties_iff_last s t n fuel :
  tree_at s t -> red_black t -> n ∈ inorder t ->
  (length (inorder t) <= fuel)%nat ->
  runs_to (erase fuel n) s (fun _ s' => rb_node s' = NULL <-> inorder t = [n]).
Proof.
  intros Hat Hrb Hn Hfuel.
  generalize (erase_runs _ _ _ _ Hat Hrb Hn Hfuel).
  apply runs_to_weaken. intros _ s' (t' & l1 & l2 & Hat' & _ & Hio & Hio').
  destruct Hat' as (Hroot & _ & _ & HFA). rewrite Hroot. split.
  - intros Hnull. apply ptr_null_leaf in Hnull; [|assumption]. subst t'.
    cbn [inorder] in Hio'. symmetry in Hio'. apply app_eq_nil in Hio'.
    destruct Hio' as (-> & ->). exact Hio.
  - intros Hone. rewrite Hone in Hio.
    destruct l1 as [|x l1]; cbn [app] in Hio.
    + injection Hio as <-. cbn [app] in Hio'. apply inorder_nil in Hio'.
      subst t'. reflexivity.
    + injection Hio as _ Hio. destruct l1; discriminate.
Qed.

(** X4.  The first insertion: on an empty tree (root field NULL),
    [link_node(n, NULL, side); insert_color(n)] makes [n] the root and
    paints it black with no parent and no children, whatever [n] held and
    whichever side is passed. *)
Theorem insert_into_empty s sd n fuel :
  rb_node s = NULL -> node_addr n -> is_Some (cell s n) -> (0 < fuel)%nat ->
  runs_to (link_node n NULL sd;; insert_color fuel n) s (fun _ s' =>
    rb_node s' = n
    /\ cell s' n = Some (mkRBNode (pc_of_parent_color NULL RB_BLACK) NULL NULL)).
Proof.
  intros Hroot Hn Hc Hfuel.
  assert (Hat : tree_at s Leaf).
  { split; [assumption|]. split; [exact I|]. cbn [inorder].
    split; [apply NoDup_nil_2|apply Forall_nil_2]. }
  assert (Hrb : red_black Leaf) by (repeat split).
  assert (Hap : attach_point s Leaf NULL sd) by (left; auto).
  assert (Hdet : detached s Leaf n).
  { split; [assumption|]. split; [|assumption]. cbn [inorder]. apply not_elem_of_nil. }
  generalize (insert_runs _ _ _ _ _ _ Hat Hrb Hap Hdet Hfuel).
  apply runs_to_weaken. intros _ s' (t' & l1 & l2 & Hat' & Hrb' & Hio & Hio').
  cbn [inorder] in Hio. symmetry in Hio. apply app_eq_nil in Hio.
  destruct Hio as (-> & ->). cbn [app] in Hio'.
  destruct (inorder_singleton _ _ Hio') as (c & ->).
  destruct Hrb' as (Hcol & _). cbn [col] in Hcol. subst c.
  destruct (tree_at_cell s' [] Black Leaf n Leaf Hat') as (_ & Hcell & _).
  split; [apply Hat'|].
  rewrite cell_lookup by apply Hn. exact Hcell.
Qed.

(** ** The depth of a node, and one pass of the erase fixup *)

Section Height.

Lemma height_fill f t : (S (height t) <= height (fill f t))%nat.
Proof. destruct f; cbn [fill height]; lia. Qed.

Lemma height_plug C t : (length C + height t <= height (plug C t))%nat.
Proof.
  revert t. induction C as [|f C IH]; intros t; cbn [plug length]; [lia|].
  specialize (IH (fill f t)). pose proof (height_fill f t). lia.
Qed.

(** "The longest possible path is 2B", for a subtree of either color. *)
Lemma height_le_bheight t :
  no_red_red t -> balanced t ->
  (height t + weight (col t) <= 2 * bheight t + 1)%nat.
Proof.
  induction t as [|c l IHl a r IHr]; [simpl; lia|].
  cbn [no_red_red balanced height bheight col].
  intros (Hc & Hnl & Hnr) (Hb & Hbl & Hbr).
  specialize (IHl Hnl Hbl). specialize (IHr Hnr Hbr).
  destruct c; cbn [weight].
  - destruct (Hc eq_refl) as (Hcl & Hcr). rewrite Hcl in IHl. rewrite Hcr in IHr.
    cbn [weight] in *. lia.
  - pose proof (Nat.le_0_l (weight (col l))). pose proof (Nat.le_0_l (weight (col r))).
    lia.
Qed.

Lemma size_ge_bheight t :
  balanced t -> (2 ^ bheight t <= S (length (inorder t)))%nat.
Proof.
  induction t as [|c l IHl a r IHr]; [simpl; lia|].
  cbn [balanced bheight inorder]. intros (Hb & Hbl & Hbr).
  specialize (IHl Hbl). specialize (IHr Hbr). rewrite <- Hb in IHr.
  rewrite length_app. cbn [length].
  assert (H : (2 ^ (bheight l + weight c) <= 2 * 2 ^ bheight l)%nat).
  { destruct c; cbn [weight].
    - rewrite Nat.add_0_r. lia.
    - rewrite Nat.add_1_r. cbn [Nat.pow]. lia. }
  lia.
Qed.

Lemma at_depth_functional s a d : at_depth s a d -> forall d', at_depth s a d' -> d' = d.
Proof.
  induction 1 as [a nd Hc Hp|a nd d Hc Hp _ IH]; intros d' H'.
  - inversion H' as [a' nd' Hc' Hp'|a' nd' d0 Hc' Hp' Hd]; subst; [reflexivity|].
    rewrite Hc in Hc'. injection Hc' as <-. contradiction.
  - inversion H' as [a' nd' Hc' Hp'|a' nd' d0 Hc' Hp' Hd]; subst.
    + rewrite Hc in Hc'. injection Hc' as <-. contradiction.
    + rewrite Hc in Hc'. injection Hc' as <-. f_equal. apply IH. assumption.
Qed.

End Height.

(** X5.  The O(log n) guarantee the invariants give.  In a store holding
    a red-black tree [t], every node has one depth (the number of parent
    references to follow up to the root); one more than it is at most twice
    the black height of the tree, and two to the black height is at most
    the number of nodes plus one: a path from the root visits at most
    2 log2 (n + 1) nodes. *)
Theorem depth_is_logarithmic s t a :
  tree_at s t -> red_black t -> a ∈ inorder t ->
  exists d, at_depth s a d
            /\ (forall d', at_depth s a d' -> d' = d)
            /\ (S d <= 2 * bheight t)%nat
            /\ (2 ^ bheight t <= S (length (inorder t)))%nat
            /\ (2 ^ S d <= S (length (inorder t)) ^ 2)%nat.
Proof.
  intros Hat (Hcol & Hnrr & Hbal) Ha.
  destruct (tree_find _ _ Ha) as (C & c & l & r & ->).
  assert (Hd : at_depth s a (length C)).
  { apply (at_depth_plug s C (Node c l a r)); [assumption|discriminate]. }
  exists (length C). split; [assumption|]. split; [apply at_depth_functional; assumption|].
  pose proof (height_plug C (Node c l a r)) as Hh. cbn [height] in Hh.
  pose proof (height_le_bheight _ Hnrr Hbal) as Hhb. rewrite Hcol in Hhb.
  cbn [weight] in Hhb.
  pose proof (size_ge_bheight _ Hbal) as Hsz.
  assert (H1 : (S (length C) <= 2 * bheight (plug C (Node c l a r)))%nat) by lia.
  split; [assumption|]. split; [assumption|].
  transitivity (2 ^ (2 * bheight (plug C (Node c l a r))))%nat.
  - apply Nat.pow_le_mono_r; [lia|assumption].
  - rewrite Nat.mul_comm, Nat.pow_mul_r. apply Nat.pow_le_mono_l. assumption.
Qed.

Section ErasePass.

Lemma erase_rest_again up f x C' t1 :
  erase_rest up f x = Some (Again C' t1) ->
  C' = up /\ ptr t1 = faddr f /\ fcolor f = Black.
Proof.
  unfold erase_rest. destruct f as [cp p w|cp w p]; destruct w as [|cw wl wa wr];
    try discriminate.
  - destruct (is_black (col wr)); [|discriminate].
    destruct (is_black (col wl)); [|destruct wl; discriminate].
    destruct cp; cbn [is_black]; [discriminate|].
    intros H. injection H as <- <-. auto.
  - destruct (is_black (col wl)); [|discriminate].
    destruct (is_black (col wr)); [|destruct wr; discriminate].
    destruct cp; cbn [is_black]; [discriminate|].
    intros H. injection H as <- <-. auto.
Qed.

Lemma erase_pass_again C x C' t1 :
  erase_pass C x = Some (Again C' t1) ->
  exists f, C = f :: C' /\ ptr t1 = faddr f /\ fcolor f = Black
            /\ col (fsib f) = Black.
Proof.
  destruct C as [|f up]; [discriminate|]. cbn [erase_pass].
  destruct f as [cp p w|cp w p].
  - destruct w as [|[] wl wa wr].
    + intros H. apply erase_rest_again in H. destruct H as (-> & ? & ?). eauto.
    + destruct wl; [discriminate|]. intros H. apply erase_rest_again in H.
      destruct H as (_ & _ & H). discriminate.
    + intros H. apply erase_rest_again in H. destruct H as (-> & ? & ?). eauto.
  - destruct w as [|[] wl wa wr].
    + intros H. apply erase_rest_again in H. destruct H as (-> & ? & ?). eauto.
    + destruct wr; [discriminate|]. intros H. apply erase_rest_again in H.
      destruct H as (_ & _ & H). discriminate.
    + intros H. apply erase_rest_again in H. destruct H as (-> & ? & ?). eauto.
Qed.

(** The sibling the loop body reads is the root of the other subtree of
    the parent, and it reads red only when that subtree is red. *)
Lemma erase_sibling_reads s f up x :
  erase_inv (f :: up) x -> tree_at s (plug (f :: up) x) ->
  erase_sibling (ptr x) (faddr f) s = Some (ptr (fsib f), s)
  /\ (rb_is_red (ptr (fsib f)) s = Some (true, s) -> col (fsib f) = Red).
Proof.
  intros Hinv Hat.
  destruct Hinv as (Hcx & Hx & Hw & Hbw & _).
  destruct (tree_at_frame_cell _ _ _ _ Hat) as (Hf & Hfc & Hfal).
  destruct (tree_at_frame_sib _ _ _ _ Hat) as (Hsw & HFAw & Hfx & Hfw & Hdj).
  assert (HFAx : Forall node_addr (inorder x)).
  { destruct Hat as (_ & _ & _ & HFA). rewrite inorder_plug in HFA.
    apply Forall_app_inv in HFA. destruct HFA as (_ & HFA).
    apply Forall_app_inv in HFA. apply HFA. }
  assert (Hwn : fsib f <> Leaf)
    by (intros E; rewrite E in Hbw; simpl in Hbw; lia).
  assert (Hdiff : ptr x <> ptr (fsib f)).
  { intros Heq. pose proof (ptr_elem_of _ Hwn) as Hin.
    destruct x as [|cx xl xa xr].
    - apply Hwn. apply ptr_null_leaf; [assumption|]. rewrite <- Heq. reflexivity.
    - apply (Hdj (ptr (fsib f))); [|assumption]. rewrite <- Heq.
      apply ptr_elem_of. discriminate. }
  destruct s as [h root]. cbn [nodes] in *. split.
  - unfold erase_sibling.
    destruct f as [cp p w|cp w p]; cbn [faddr fsib fcell] in *.
    + erewrite run_get_right by (apply Hf || eassumption).
      rewrite (proj2 (Z.eqb_neq _ _) Hdiff). reflexivity.
    + erewrite run_get_right by (apply Hf || eassumption).
      rewrite Z.eqb_refl. cbn [negb]. rewrite run_end.
      erewrite run_get_left by (apply Hf || eassumption). reflexivity.
  - intros Hr. destruct (fsib f) as [|cw wl wa wr]; [congruence|].
    cbn [shape inorder ptr col] in *. destruct Hsw as (Hwa & _). split_fa HFAw.
    rewrite run_end in Hr. erewrite run_rb_is_red in Hr by side.
    rewrite rd_is_red in Hr by aligned_tac.
    destruct cw; [reflexivity|discriminate].
Qed.

End ErasePass.

(** X6.  One pass through the loop body of [__rb_erase_color], at a loop
    head that satisfies the loop invariants: the body returns; when it
    continues, the new node is the old parent, the new parent is that
    node's parent and is not NULL, and it is one level closer to the root;
    and a pass that meets a red sibling (Case 1) always leaves the loop. *)
Theorem erase_fixup_step s node parent C x :
  erase_head s node parent C x ->
  runs_to (__rb_erase_color_body node parent) s (fun res s' =>
    match res with
    | Some (node', parent') =>
        node' = parent /\ parent' <> NULL
        /\ RBNode_parent node' s' = Some (parent', s')
        /\ exists d, at_depth s parent (S d) /\ at_depth s' parent' d
    | None => True
    end
    /\ (forall sibling,
          erase_sibling node parent s = Some (sibling, s) ->
          rb_is_red sibling s = Some (true, s) -> res = None)).
Proof.
  intros (Hinv & Hat & -> & ->).
  pose proof (erase_pass_ok C x Hinv) as Hok.
  pose proof (erase_pass_inorder C x) as Hio.
  destruct C as [|f up]; [contradiction|].
  destruct (erase_sibling_reads s f up x Hinv Hat) as (Hsib & Hred).
  destruct s as [h root].
  pose proof (erase_body_refines h root (f :: up) x Hat) as Hrun.
  cbn [cpar] in *.
  destruct (erase_pass (f :: up) x) as [[t'|C' t1]|] eqn:Hpass; [| |contradiction].
  - revert Hrun. apply runs_to_weaken. intros res s' (-> & _). auto.
  - destruct (erase_pass_again _ _ _ _ Hpass) as (f0 & Hf0 & Hp1 & Hcf & Hcs).
    injection Hf0 as <- <-.
    revert Hrun. apply runs_to_weaken. intros res s' (-> & Hh).
    split.
    + destruct up as [|f' up']; [exact I|].
      destruct Hok as (_ & Hinv').
      assert (Hat' : tree_at s' (plug (f' :: up') t1)).
      { destruct Hat as (_ & _ & HND & HFA). eapply tree_at_transport; eauto. }
      destruct (tree_at_frame_cell _ _ _ _ Hat') as (Hf' & _ & _).
      assert (Ht1 : t1 <> Leaf).
      { intros ->. cbn [ptr] in Hp1.
        destruct (tree_at_frame_cell _ _ _ _ Hat) as ((Hne & _) & _). congruence. }
      destruct t1 as [|c1 l1 a1 r1]; [congruence|]. cbn [ptr] in *. subst a1.
      destruct (tree_at_cell _ _ _ _ _ _ Hat') as (Ha1 & Hc1 & Hal1).
      split; [reflexivity|]. split; [apply Hf'|]. split.
      * destruct s' as [h' root']. cbn [nodes cpar] in *.
        rewrite run_end. erewrite run_RBNode_parent by (apply Ha1 || eassumption).
        rewrite rd_parent by assumption. reflexivity.
      * exists (length up'). split.
        -- assert (Hn : fill f x <> Leaf) by (destruct f; discriminate).
           pose proof (at_depth_plug _ (f' :: up') (fill f x) Hat Hn) as Hd.
           rewrite ptr_fill in Hd. exact Hd.
        -- assert (Hn : fill f' (Node c1 l1 (faddr f) r1) <> Leaf)
             by (destruct f'; discriminate).
           pose proof (at_depth_plug _ up' _ Hat' Hn) as Hd.
           rewrite ptr_fill in Hd. exact Hd.
    + intros sibling Hs Hr. rewrite Hsib in Hs. injection Hs as <-.
      rewrite (Hred Hr) in Hcs. discriminate.
Qed.

(** ** The erased node keeps its words *)

Ltac keeps_close := unfold ret; cbn [nodes rb_node]; lookup.

Section ErasedNode.

Lemma unlink_one_keeps_left fuel h root C c n r :
  tree_at (mkStore h root) (plug C (Node c Leaf n r)) ->
  runs_to (__rb_erase fuel n) (mkStore h root) (fun _ s' => nodes s' !! n = h !! n).
Proof.
  unfold tree_at. cbn [nodes rb_node]. intros (Hroot & Hsh & HND & HFA).
  destruct r as [|cr rl ra rr];
    open_tree Hroot Hsh HND HFA; subst; unfold runs_to, __rb_erase;
    exec; run_change_child; exec; keeps_close.
Qed.

Lemma unlink_one_keeps_right fuel h root C c cl ll la lr n :
  tree_at (mkStore h root) (plug C (Node c (Node cl ll la lr) n Leaf)) ->
  runs_to (__rb_erase fuel n) (mkStore h root) (fun _ s' => nodes s' !! n = h !! n).
Proof.
  unfold tree_at. cbn [nodes rb_node]. intros (Hroot & Hsh & HND & HFA).
  open_tree Hroot Hsh HND HFA; subst; unfold runs_to, __rb_erase;
    exec; run_change_child; exec; keeps_close.
Qed.

Lemma unlink_two_keeps fuel h root C c cl ll la lr n Sp cs s rs :
  tree_at (mkStore h root)
    (plug C (Node c (Node cl ll la lr) n (plug Sp (Node cs Leaf s rs)))) ->
  left_spine Sp -> (length Sp <= fuel)%nat ->
  runs_to (__rb_erase fuel n) (mkStore h root) (fun _ s' => nodes s' !! n = h !! n).
Proof.
  intros Hat HS Hlen.
  destruct Sp as [|f Sp' _] using rev_ind.
  - destruct Hat as (Hroot & Hsh & HND & HFA). cbn [nodes rb_node] in *.
    destruct rs as [|crs rsl rsa rsr];
      open_tree Hroot Hsh HND HFA; subst; unfold runs_to, __rb_erase;
      exec; run_change_child; exec; keeps_close.
  - apply Forall_app in HS. destruct HS as (HS' & Hf).
    apply Forall_cons in Hf. destruct Hf as (Hf & _).
    destruct f as [cy y sy|]; [|contradiction].
    rewrite length_app in Hlen. simpl in Hlen.
    rewrite plug_app in Hat. cbn [plug fill] in Hat.
    assert (Hwalk : leftmost_walk fuel y (ctop Sp' s) (mkStore h root)
                    = Some ((cpar y Sp', s), mkStore h root)
                    /\ node_addr (ctop Sp' s)).
    { destruct Hat as (_ & Hsh & _ & HFA). cbn [nodes] in Hsh.
      rewrite shape_plug in Hsh. cbn [shape] in Hsh.
      rewrite inorder_plug in HFA. cbn [inorder] in HFA. split_fa HFA.
      split.
      - apply leftmost_walk_spec with (cs := cs) (rs := rs);
          [assumption|apply Hsh|assumption|lia].
      - change (ctop Sp' s) with (ctop Sp' (ptr (Node cs Leaf s rs))).
        rewrite <- ptr_plug.
        apply ptr_node_addr; [apply plug_not_leaf; discriminate|assumption]. }
    destruct Hwalk as (Hwalk & ADtop).
    destruct Hat as (Hroot & Hsh & HND & HFA). cbn [nodes rb_node] in *.
    destruct Sp' as [|[cp pp sp|] Sp''].
    + destruct rs as [|crs rsl rsa rsr];
        open_tree Hroot Hsh HND HFA; subst; unfold runs_to, __rb_erase;
        exec; rewrite (run_known _ _ _ _ _ Hwalk); cbv beta iota zeta;
        exec; run_change_child; exec; keeps_close.
    + cbn [ctop cpar faddr] in Hwalk, ADtop.
      destruct rs as [|crs rsl rsa rsr];
        open_tree2 Hroot Hsh HND HFA; subst; unfold runs_to, __rb_erase;
        exec; rewrite (run_known _ _ _ _ _ Hwalk); cbv beta iota zeta;
        exec; run_change_child; exec; keeps_close.
    + apply Forall_cons in HS'. destruct HS' as (HS' & _). contradiction.
Qed.

Lemma unlink_keeps_node fuel s C c l n r :
  tree_at s (plug C (Node c l n r)) ->
  (length (inorder (plug C (Node c l n r))) <= fuel)%nat ->
  runs_to (__rb_erase fuel n) s (fun _ s' => nodes s' !! n = nodes s !! n).
Proof.
  intros Hat Hfuel. destruct s as [h root]. cbn [nodes].
  destruct l as [|cl ll la lr].
  - apply (unlink_one_keeps_left fuel h root C c n r). assumption.
  - destruct (split_min r) as [[Sp [[cs sx] rs]]|] eqn:Hr.
    + apply split_min_spec in Hr. destruct Hr as (-> & HS).
      apply (unlink_two_keeps fuel h root C c cl ll la lr n Sp cs sx rs);
        [assumption|assumption|].
      pose proof (length_ctx_le C (Node c (Node cl ll la lr) n (plug Sp (Node cs Leaf sx rs)))) as H1.
      pose proof (length_ctx_le Sp (Node cs Leaf sx rs)) as H2.
      cbn [inorder] in H1. rewrite !length_app in H1. simpl in H1. lia.
    + apply split_min_none in Hr. subst r.
      apply (unlink_one_keeps_right fuel h root C c cl ll la lr n). assumption.
Qed.

(** The color fixup after an unlink that asks for it. *)
Lemma erase_color_phase fuel s1 u :
  unlinked_ok u -> tree_at s1 (plug (u_ctx u) (u_sub u)) ->
  (length (inorder (plug (u_ctx u) (u_sub u))) <= fuel)%nat ->
  rebalance_of u <> NULL ->
  runs_to (__rb_erase_color fuel (rebalance_of u)) s1 (fun _ _ => True).
Proof.
  unfold rebalance_of, unlinked_ok. intros Hok Hat1 Hfuel Hreb.
  destruct (u_short u); [|congruence].
  destruct Hok as (Hsub & [Hnil|Hinv]); [rewrite Hnil in Hreb; contradiction|].
  destruct (u_ctx u) as [|f up] eqn:Hctx; [contradiction|].
  rewrite Hsub in *. cbn [cpar].
  assert (Hlen : (length (f :: up) <= fuel)%nat).
  { pose proof (length_ctx_le (f :: up) Leaf) as H1. lia. }
  assert (Hhead : erase_head s1 NULL (faddr f) (f :: up) Leaf).
  { split; [assumption|]. split; [assumption|]. split; reflexivity. }
  generalize (erase_color_loop_spec fuel s1 NULL (faddr f) (f :: up) Leaf Hhead Hlen).
  apply runs_to_weaken. intros; exact I.
Qed.

End ErasedNode.

(** X10.  [erase] never writes to the node it erases: after [erase(n)]
    the cell of [n] holds the parent-and-color word and the two child
    references it held before, although [n] is no longer in the tree. *)
Theorem erase_keeps_erased_node s t n fuel :
  tree_at s t -> red_black t -> n ∈ inorder t ->
  (length (inorder t) <= fuel)%nat ->
  runs_to (erase fuel n) s (fun _ s' =>
    cell s' n = cell s n /\ exists t', tree_at s' t' /\ n ∉ inorder t').
Proof.
  intros Hat Hrb Hn Hfuel.
  destruct (tree_find _ _ Hn) as (C & c & l & r & ->).
  destruct (unlink_is_some C c l n r) as (u & Hu).
  destruct (unlink_pure _ _ _ _ _ _ Hrb Hu) as (Hok & l1 & l2 & Hio & Hio').
  pose proof (unlink_tree_at fuel s C c l n r u Hat Hrb Hu Hfuel) as Hrun.
  pose proof (unlink_keeps_node fuel s C c l n r Hat Hfuel) as Hkeep.
  pose proof (erase_spec fuel s C c l n r Hat Hrb Hfuel) as Hspec.
  pose proof (erase_unfold fuel n s) as Herase.
  unfold runs_to in Hrun, Hkeep.
  destruct (__rb_erase fuel n s) as [[reb s1]|]; [|contradiction].
  destruct Hrun as (-> & Hat1).
  assert (Hni1 : n ∉ inorder (plug (u_ctx u) (u_sub u))).
  { rewrite Hio'. destruct Hat as (_ & _ & HND & _). rewrite Hio in HND.
    apply NoDup_app_inv in HND. destruct HND as (_ & HND & Hd).
    apply NoDup_cons_inv in HND. destruct HND as (Hx & _).
    rewrite elem_of_app. intros [Hin|Hin]; [|contradiction].
    apply (Hd n Hin). rewrite elem_of_cons. auto. }
  assert (Hlen1 : (length (inorder (plug (u_ctx u) (u_sub u))) <= fuel)%nat).
  { rewrite Hio'. rewrite Hio in Hfuel. rewrite length_app in *. simpl in Hfuel. lia. }
  apply runs_to_and.
  - unfold runs_to. rewrite Herase.
    destruct (Z.eqb_spec (rebalance_of u) NULL) as [Hz|Hnz].
    + apply cell_nodes. assumption.
    + assert (Hfr : runs_to (__rb_erase_color fuel (rebalance_of u)) s1
                (fun _ s' => cell s' n = cell s1 n)).
      { eapply local_frame; [apply local_erase_color_loop|].
        apply erase_color_phase; auto using tree_at_without. }
      unfold runs_to in Hfr.
      destruct (__rb_erase_color fuel (rebalance_of u) s1) as [[[] s2]|]; [|contradiction].
      rewrite Hfr. apply cell_nodes. assumption.
  - revert Hspec. apply runs_to_weaken.
    intros _ s' (t' & k1 & k2 & Hat' & _ & Hsplit & Hio2).
    exists t'. split; [assumption|]. rewrite Hio2.
    destruct Hat as (_ & _ & HND & _). rewrite Hsplit in HND.
    apply NoDup_app_inv in HND. destruct HND as (_ & HND & Hd).
    apply NoDup_cons_inv in HND. destruct HND as (Hx & _).
    rewrite elem_of_app. intros [Hin|Hin]; [|contradiction].
    apply (Hd n Hin). rewrite elem_of_cons. auto.
Qed.

(** ** Instances of the theorems above *)

Lemma small_victim : 16 ∈ inorder Small.t0.
Proof. cbn. apply list_elem_of_singleton. reflexivity. Qed.

Lemma four_root : 32 ∈ inorder Four.t4.
Proof. cbn. rewrite !elem_of_cons. auto. Qed.

Lemma four_low : 48 ∈ inorder Four.t4.
Proof. cbn. rewrite !elem_of_cons. auto. Qed.

Lemma four_fuel : (length (inorder Four.t4) <= 4)%nat.
Proof. simpl. lia. Qed.

Lemma insert_then_erase_restores_witness :
  runs_to (link_node 32 16 Right;; insert_color 2 32;; erase 2 32) Small.s0 (fun _ s' =>
    exists t', tree_at s' t' /\ red_black t' /\ inorder t' = inorder Small.t0
               /\ detached s' t' 32).
Proof.
  apply (insert_then_erase_restores Small.s0 Small.t0 16 Right 32 2).
  - exact small_tree_at.
  - exact small_red_black.
  - exact small_attach_right.
  - exact small_detached.
  - simpl. lia.
Defined.

Lemma replace_round_trip_witness :
  runs_to (replace 16 32;; replace 32 16) Small.s0 (fun _ s' =>
    tree_at s' Small.t0
    /\ (forall b, b <> 32 -> cell s' b = cell Small.s0 b)
    /\ cell s' 32 = cell Small.s0 16).
Proof.
  apply (replace_round_trip Small.s0 Small.t0 16 32).
  - exact small_tree_at.
  - exact small_victim.
  - exact small_detached.
Defined.

Lemma erase_empties_iff_last_witness :
  runs_to (erase 4 32) Four.s4 (fun _ s' =>
    rb_node s' = NULL <-> inorder Four.t4 = [32]).
Proof.
  apply (erase_empties_iff_last Four.s4 Four.t4 32 4).
  - exact four_tree_at.
  - exact four_red_black.
  - exact four_root.
  - exact four_fuel.
Defined.

Lemma insert_into_empty_witness :
  runs_to (link_node 16 NULL Left;; insert_color 1 16) Vacant.s (fun _ s' =>
    rb_node s' = 16
    /\ cell s' 16 = Some (mkRBNode (pc_of_parent_color NULL RB_BLACK) NULL NULL)).
Proof.
  apply (insert_into_empty Vacant.s Left 16 1).
  - reflexivity.
  - split; [discriminate|]. split; [split; [discriminate|reflexivity]|reflexivity].
  - exists Scenario.blank. reflexivity.
  - lia.
Defined.

Lemma depth_is_logarithmic_witness :
  exists d, at_depth Four.s4 48 d
            /\ (forall d', at_depth Four.s4 48 d' -> d' = d)
            /\ (S d <= 2 * bheight Four.t4)%nat
            /\ (2 ^ bheight Four.t4 <= S (length (inorder Four.t4)))%nat
            /\ (2 ^ S d <= S (length (inorder Four.t4)) ^ 2)%nat.
Proof.
  apply (depth_is_logarithmic Four.s4 Four.t4 48).
  - exact four_tree_at.
  - exact four_red_black.
  - exact four_low.
Defined.

Lemma erase_fixup_step_witness :
  runs_to (__rb_erase_color_body NULL 32) Short.s (fun res s' =>
    match res with
    | Some (node', parent') =>
        node' = 32 /\ parent' <> NULL
        /\ RBNode_parent node' s' = Some (parent', s')
        /\ exists d, at_depth Short.s 32 (S d) /\ at_depth s' parent' d
    | None => True
    end
    /\ (forall sibling,
          erase_sibling NULL 32 Short.s = Some (sibling, Short.s) ->
          rb_is_red sibling Short.s = Some (true, Short.s) -> res = None)).
Proof.
  apply (erase_fixup_step Short.s NULL 32 Short.C Leaf).
  exact short_head.
Defined.

Lemma insert_color_frame_witness :
  runs_to (link_node 32 16 Right;; insert_color 2 32) Small.s0 (fun _ s' =>
    (forall b, (b ∉ inorder Small.t0) /\ b <> 32 -> cell s' b = cell Small.s0 b)
    /\ (forall a, is_Some (cell s' a) <-> is_Some (cell Small.s0 a))).
Proof.
  apply (insert_color_frame Small.s0 Small.t0 16 Right 32 2).
  - exact small_tree_at.
  - exact small_red_black.
  - exact small_attach_right.
  - exact small_detached.
  - simpl. lia.
Defined.

Lemma erase_frame_witness :
  runs_to (erase 4 32) Four.s4 (fun _ s' =>
    (forall b, b ∉ inorder Four.t4 -> cell s' b = cell Four.s4 b)
    /\ (forall a, is_Some (cell s' a) <-> is_Some (cell Four.s4 a))).
Proof.
  apply (erase_frame Four.s4 Four.t4 32 4).
  - exact four_tree_at.
  - exact four_red_black.
  - exact four_root.
  - exact four_fuel.
Defined.


Lemma erase_keeps_erased_node_witness :
  runs_to (erase 4 32) Four.s4 (fun _ s' =>
    cell s' 32 = cell Four.s4 32 /\ exists t', tree_at s' t' /\ (32 ∉ inorder t')).
Proof.
  apply (erase_keeps_erased_node Four.s4 Four.t4 32 4).
  - exact four_tree_at.
  - exact four_red_black.
  - exact four_root.
  - exact four_fuel.
Defined.

(** ** Several erasures, and insertion under a black parent *)

Section EraseEach.

Lemma filter_all (P : Z -> Prop) `{!forall x, Decision (P x)} (l : list Z) :
  (forall x, x ∈ l -> P x) -> filter P l = l.
Proof.
  induction l as [|a l IH]; intros Hall; [reflexivity|].
  rewrite filter_cons_True by (apply Hall; apply elem_of_cons; auto).
  f_equal. apply IH. intros x Hx. apply Hall. apply elem_of_cons. auto.
Qed.

Lemma filter_remove_mid (l1 l2 : list Z) n :
  NoDup (l1 ++ n :: l2) -> filter (fun x => x <> n) (l1 ++ n :: l2) = l1 ++ l2.
Proof.
  intros HND. apply NoDup_app_inv in HND. destruct HND as (_ & HND & Hd).
  apply NoDup_cons_inv in HND. destruct HND as (Hn2 & _).
  rewrite filter_app, filter_cons_False by (intros H; apply H; reflexivity).
  rewrite !filter_all; [reflexivity| |].
  - intros x Hx ->. contradiction.
  - intros x Hx ->. apply (Hd n Hx). apply elem_of_cons. auto.
Qed.

Lemma filter_not_in_cons (l ns : list Z) n :
  filter (fun x => x ∉ n :: ns) l = filter (fun x => x ∉ ns) (filter (fun x => x <> n) l).
Proof.
  rewrite list_filter_filter. apply list_filter_iff. intros x.
  rewrite not_elem_of_cons. tauto.
Qed.

Lemma erase_each_runs fuel ns : forall s t,
  tree_at s t -> red_black t -> NoDup ns -> (forall n, n ∈ ns -> n ∈ inorder t) ->
  (length (inorder t) <= fuel)%nat ->
  runs_to (erase_each fuel ns) s (fun _ s' =>
    exists t', tree_at s' t' /\ red_black t'
               /\ inorder t' = filter (fun x => x ∉ ns) (inorder t)).
Proof.
  induction ns as [|n ns IH]; intros s t Hat Hrb HND Hin Hfuel; cbn [erase_each].
  - unfold runs_to, ret. exists t. split; [assumption|]. split; [assumption|].
    symmetry. apply filter_all. intros x _. apply not_elem_of_nil.
  - apply NoDup_cons in HND. destruct HND as (Hn & HND).
    apply runs_to_bind.
    assert (Hnt : n ∈ inorder t) by (apply Hin; apply elem_of_cons; auto).
    generalize (erase_runs _ _ _ _ Hat Hrb Hnt Hfuel).
    apply runs_to_weaken. intros _ s1 (t1 & l1 & l2 & Hat1 & Hrb1 & Hio & Hio1).
    assert (HNDt : NoDup (l1 ++ n :: l2)) by (rewrite <- Hio; apply Hat).
    assert (Hfl : inorder t1 = filter (fun x => x <> n) (inorder t)).
    { rewrite Hio1, Hio. symmetry. apply filter_remove_mid. assumption. }
    assert (Hin1 : forall m, m ∈ ns -> m ∈ inorder t1).
    { intros m Hm. rewrite Hfl. apply list_elem_of_filter. split.
      - intros ->. contradiction.
      - apply Hin. apply elem_of_cons. auto. }
    assert (Hfuel1 : (length (inorder t1) <= fuel)%nat).
    { rewrite Hio1. rewrite Hio in Hfuel. rewrite length_app in *. simpl in Hfuel. lia. }
    generalize (IH s1 t1 Hat1 Hrb1 HND Hin1 Hfuel1).
    apply runs_to_weaken. intros _ s' (t' & Hat' & Hrb' & Hio').
    exists t'. split; [assumption|]. split; [assumption|].
    rewrite Hio', Hfl. symmetry. apply filter_not_in_cons.
Qed.

End EraseEach.

(** X18.  Erasing several nodes.  On a red-black tree, erasing the
    nodes of a duplicate-free list of its nodes one after the other, in any
    order, returns and leaves a red-black tree whose in-order sequence is
    the old one without the erased nodes; erasing every node leaves the
    empty tree. *)
Theorem erase_each_removes s t ns ns' fuel :
  tree_at s t -> red_black t -> NoDup ns -> (forall n, n ∈ ns -> n ∈ inorder t) ->
  (length (inorder t) <= fuel)%nat -> ns' ≡ₚ ns ->
  runs_to (erase_each fuel ns') s (fun _ s' =>
    rb_valid s'
    /\ in_order s' (filter (fun x => x ∉ ns) (inorder t))
    /\ ((forall n, n ∈ inorder t -> n ∈ ns) -> rb_node s' = NULL)).
Proof.
  intros Hat Hrb HND Hin Hfuel Hp.
  assert (HND' : NoDup ns') by (rewrite Hp; assumption).
  assert (Hin' : forall n, n ∈ ns' -> n ∈ inorder t).
  { intros n Hn. apply Hin. rewrite <- Hp. assumption. }
  assert (Hf : filter (fun x => x ∉ ns') (inorder t)
               = filter (fun x => x ∉ ns) (inorder t)).
  { apply list_filter_iff. intros x. rewrite Hp. reflexivity. }
  generalize (erase_each_runs fuel ns' s t Hat Hrb HND' Hin' Hfuel).
  apply runs_to_weaken. intros _ s' (t' & Hat' & Hrb' & Hio').
  rewrite Hf in Hio'.
  split; [exists t'; auto|]. split; [exists t'; auto|].
  intros Hall.
  assert (Hnil : inorder t' = []).
  { rewrite Hio'.
    destruct (filter (fun x => x ∉ ns) (inorder t)) as [|x l] eqn:E; [reflexivity|].
    assert (Hx : x ∈ filter (fun x => x ∉ ns) (inorder t))
      by (rewrite E; apply elem_of_cons; auto).
    apply list_elem_of_filter in Hx. destruct Hx as (Hx1 & Hx2).
    exfalso. apply Hx1. apply Hall. assumption. }
  apply inorder_nil in Hnil. subst t'. apply Hat'.
Qed.

(** X19.  Under a black parent there is nothing to fix: for a red node
    of the tree whose parent is black, [insert_color] returns at the first
    test of the loop and leaves the store exactly as it is. *)
Theorem insert_under_black_parent s f up l n r fuel :
  tree_at s (plug (f :: up) (Node Red l n r)) -> fcolor f = Black ->
  (0 < fuel)%nat ->
  insert_color fuel n s = Some (tt, s).
Proof.
  intros Hat Hcol Hfuel.
  destruct (tree_at_cell _ _ _ _ _ _ Hat) as (Hn & Hcell & Hal).
  change (plug (f :: up) (Node Red l n r)) with (plug up (fill f (Node Red l n r))) in Hat.
  assert (Hat2 : tree_at s (plug (f :: up) (Node Red l n r))) by exact Hat.
  destruct (tree_at_frame_cell _ _ _ _ Hat2) as (Hf & Hfc & Hfal).
  destruct s as [h root]. cbn [nodes cpar] in *.
  destruct fuel as [|fuel]; [lia|].
  unfold insert_color, __rb_insert. cbn [__rb_insert_loop].
  erewrite run_red_parent_of_red by (apply Hn || eassumption).
  unfold __rb_insert_body.
  rewrite (proj2 (Z.eqb_neq _ _) (proj1 Hf)).
  destruct f as [cp p sib|cp sib p]; cbn [fcell fcolor faddr] in *; subst cp;
    rewrite run_bind; erewrite run_rb_is_black by side;
    rewrite rd_is_black by assumption; reflexivity.
Qed.

Lemma four_pair : NoDup [32; 16] /\ forall n, n ∈ [32; 16] -> n ∈ inorder Four.t4.
Proof.
  split.
  - apply NoDup_cons. split; [|apply NoDup_singleton].
    rewrite list_elem_of_singleton. discriminate.
  - intros n Hn. cbn. rewrite !elem_of_cons in *. destruct Hn as [->|[->|Hn]]; auto.
Qed.

Lemma erase_each_removes_witness :
  runs_to (erase_each 4 [16; 32]) Four.s4 (fun _ s' =>
    rb_valid s'
    /\ in_order s' (filter (fun x => x ∉ [32; 16]) (inorder Four.t4))
    /\ ((forall n, n ∈ inorder Four.t4 -> n ∈ [32; 16]) -> rb_node s' = NULL)).
Proof.
  apply (erase_each_removes Four.s4 Four.t4 [32; 16] [16; 32] 4).
  - exact four_tree_at.
  - exact four_red_black.
  - exact (proj1 four_pair).
  - exact (proj2 four_pair).
  - exact four_fuel.
  - apply perm_swap.
Defined.

Lemma insert_under_black_parent_witness :
  insert_color 1 32 Small.s1 = Some (tt, Small.s1).
Proof.
  apply (insert_under_black_parent Small.s1 (FR Black Leaf 16) [] Leaf 32 Leaf 1).
  - split; [reflexivity|]. split; [|split].
    + cbn [shape plug fill]. repeat split; vm_compute; reflexivity.
    + cbn. concrete_nodup.
    + cbn. concrete_addrs.
  - reflexivity.
  - lia.
Defined.

(** * LMDBStore.cc: keys and the iterator *)

Section Keys.

Import LMDB.

Implicit Types (s inp pre rest prefix value : bytes) (c : byte).

Lemma byte_eqb_refl c : Byte.eqb c c = true.
Proof. apply Byte.byte_dec_lb. reflexivity. Qed.

Lemma byte_eqb_neq c d : c <> d -> Byte.eqb c d = false.
Proof.
  intros Hne. destruct (Byte.eqb c d) eqn:E; [|reflexivity].
  apply Byte.byte_dec_bl in E. contradiction.
Qed.

Lemma memchr_absent s c n : c ∉ s -> memchr s c n = None.
Proof.
  revert n. induction s as [|b s IH]; intros n Hc; destruct n; try reflexivity.
  cbn [memchr]. apply not_elem_of_cons in Hc. destruct Hc as (Hne & Hc).
  rewrite byte_eqb_neq by congruence. rewrite IH by assumption. reflexivity.
Qed.

Lemma memchr_first pre rest c n :
  c ∉ pre -> (length pre < n)%nat ->
  memchr (pre ++ c :: rest) c n = Some (length pre).
Proof.
  revert n. induction pre as [|b pre IH]; intros n Hc Hn.
  - destruct n; [simpl in Hn; lia|]. cbn [app memchr length].
    rewrite byte_eqb_refl. reflexivity.
  - destruct n; [simpl in Hn; lia|]. cbn [app memchr length] in *.
    apply not_elem_of_cons in Hc. destruct Hc as (Hne & Hc).
    rewrite byte_eqb_neq by congruence. rewrite IH by (assumption || lia).
    reflexivity.
Qed.

(** Every string has no byte [c], or a first one. *)
Lemma first_occurrence s c :
  c ∉ s \/ exists pre rest, s = pre ++ c :: rest /\ (c ∉ pre).
Proof.
  induction s as [|b s IH].
  - left. apply not_elem_of_nil.
  - destruct (decide (b = c)) as [->|Hne].
    + right. exists [], s. split; [reflexivity|apply not_elem_of_nil].
    + destruct IH as [Hc|(pre & rest & -> & Hc)].
      * left. apply not_elem_of_cons. split; [congruence|assumption].
      * right. exists (b :: pre), rest. split; [reflexivity|].
        apply not_elem_of_cons. split; [congruence|assumption].
Qed.

Lemma split_key_absent inp p k :
  x01 ∉ inp -> split_key inp p k = (- EINVAL, p, k).
Proof. intros Hc. unfold split_key. rewrite memchr_absent by assumption. reflexivity. Qed.

Lemma split_key_first pre rest p k :
  x01 ∉ pre ->
  split_key (pre ++ x01 :: rest) p k
  = (0, option_map (fun _ => pre) p, option_map (fun _ => rest) k).
Proof.
  intros Hc. unfold split_key.
  rewrite memchr_first by (assumption || (rewrite length_app; simpl; lia)).
  rewrite length_app. cbn [length].
  destruct (Nat.leb_spec (length pre + S (length rest)) (length pre)) as [H|_]; [lia|].
  replace (length pre + S (length rest) - length pre - 1)%nat with (length rest) by lia.
  rewrite firstn_app, firstn_all, Nat.sub_diag. cbn [firstn]. rewrite app_nil_r.
  change (x01 :: rest) with ([x01] ++ rest). rewrite app_assoc.
  replace (S (length pre)) with (length (pre ++ [x01]))
    by (rewrite length_app; simpl; lia).
  rewrite skipn_app, skipn_all, Nat.sub_diag. cbn [skipn app].
  rewrite firstn_all. reflexivity.
Qed.

Lemma combine_not_past prefix value : combine_strings prefix value <> prefix ++ x01 :: value.
Proof.
  unfold combine_strings. rewrite <- app_assoc. cbn [app]. intros H.
  apply app_inv_head in H. discriminate.
Qed.

End Keys.

(** X11.  What [split_key] does, for every input: without a byte 1 in
    the input it returns [-EINVAL] and leaves both out-parameters alone;
    otherwise it returns 0 and splits at the first byte 1, the prefix being
    the bytes before it and the key the bytes after it (each written only
    through a non-null pointer).  The second [-EINVAL] exit is never taken. *)
Theorem split_key_splits_at_first_one (inp : LMDB.bytes) (p k : option LMDB.bytes) :
  (x01 ∉ inp -> LMDB.split_key inp p k = (- LMDB.EINVAL, p, k))
  /\ (forall pre rest, inp = pre ++ x01 :: rest -> x01 ∉ pre ->
        LMDB.split_key inp p k
        = (0, option_map (fun _ => pre) p, option_map (fun _ => rest) k))
  /\ ((x01 ∉ inp) \/ exists pre rest, inp = pre ++ x01 :: rest /\ (x01 ∉ pre)).
Proof.
  split; [apply split_key_absent|]. split.
  - intros pre rest -> Hc. apply split_key_first. assumption.
  - apply first_occurrence.
Qed.

(** X12.  Round trips of the key encoding.  [split_key] never gives back
    the prefix and the value that [combine_strings] joined (it joins with a
    zero byte, [split_key] looks for a byte 1): when neither holds a byte 1
    the result is [-EINVAL].  A key joined with the byte of [past_prefix]
    does split into its two parts, when the prefix holds no byte 1. *)
Theorem split_key_round_trips (prefix value p k : LMDB.bytes) :
  LMDB.split_key (LMDB.combine_strings prefix value) (Some p) (Some k)
    <> (0, Some prefix, Some value)
  /\ (x01 ∉ prefix -> x01 ∉ value ->
      LMDB.split_key (LMDB.combine_strings prefix value) (Some p) (Some k)
      = (- LMDB.EINVAL, Some p, Some k))
  /\ (x01 ∉ prefix ->
      LMDB.split_key (LMDB.past_prefix prefix ++ value) (Some p) (Some k)
      = (0, Some prefix, Some value)).
Proof.
  split; [|split].
  - destruct (first_occurrence (LMDB.combine_strings prefix value) x01)
      as [Hc|(pre & rest & E & Hc)].
    + rewrite split_key_absent by assumption. discriminate.
    + rewrite E, split_key_first by assumption. cbn [option_map].
      intros H. injection H as -> ->. exact (combine_not_past _ _ E).
  - intros Hp Hv. apply split_key_absent. unfold LMDB.combine_strings.
    rewrite !not_elem_of_app. split; [split; [assumption|]|assumption].
    apply not_elem_of_cons. split; [discriminate|apply not_elem_of_nil].
  - intros Hp. unfold LMDB.past_prefix. rewrite <- app_assoc. cbn [app].
    apply (split_key_first prefix value (Some p) (Some k) Hp).
Qed.

Section IteratorFacts.

Import LMDB.

Lemma byte_to_N_inj (x y : byte) : Byte.to_N x = Byte.to_N y -> x = y.
Proof.
  intros H. pose proof (Byte.of_to_N x) as Hx. rewrite H, Byte.of_to_N in Hx.
  congruence.
Qed.

Lemma memcmp_zero (a b : bytes) n :
  (n <= length a)%nat -> (n <= length b)%nat ->
  (memcmp a b n = 0 <-> firstn n a = firstn n b).
Proof.
  revert a b. induction n as [|n IH]; intros a b Ha Hb; [destruct a; simpl; tauto|].
  destruct a as [|x a]; [simpl in Ha; lia|]. destruct b as [|y b]; [simpl in Hb; lia|].
  cbn [memcmp firstn length] in *.
  destruct (Byte.eqb x y) eqn:E.
  - apply Byte.byte_dec_bl in E. subst y. rewrite IH by lia.
    split; [congruence|]. intros H. injection H. auto.
  - apply Byte.eqb_false in E. split.
    + intros H. exfalso. apply E. apply byte_to_N_inj. lia.
    + intros H. injection H. contradiction.
Qed.

(** The test of [raw_key_is_prefixed] on the bytes of the current key. *)
Lemma prefixed_test (data prefix : bytes) :
  ((length prefix <? length data)%nat
   && match nth_error data (length prefix) with
      | Some b => Byte.eqb b x01
      | None => false
      end
   && (memcmp data prefix (length prefix) =? 0)) = true
  <-> exists rest, data = prefix ++ x01 :: rest.
Proof.
  rewrite !andb_true_iff, Nat.ltb_lt, Z.eqb_eq. split.
  - intros ((Hlen & Hnth) & Hcmp).
    destruct (nth_error data (length prefix)) as [b|] eqn:E; [|discriminate].
    apply Byte.byte_dec_bl in Hnth. subst b.
    apply memcmp_zero in Hcmp; [|lia|lia]. rewrite firstn_all in Hcmp.
    exists (skipn (S (length prefix)) data).
    rewrite <- Hcmp at 1. symmetry. apply firstn_skipn_middle. assumption.
  - intros (rest & ->). rewrite length_app. cbn [length]. split; [split; [lia|]|].
    + rewrite nth_error_app2, Nat.sub_diag by lia. reflexivity.
    + apply memcmp_zero; [rewrite length_app; lia|lia|].
      rewrite firstn_app, Nat.sub_diag, !firstn_all. cbn [firstn].
      apply app_nil_r.
Qed.

End IteratorFacts.

(** X13.  [raw_key_is_prefixed(prefix)] is true exactly when the cursor
    gives a current key (return code 0) whose bytes are [prefix], a byte 1,
    and anything after.  So for a key that [combine_strings] built from the
    same prefix (as [set] stores it) the answer is always false. *)
Theorem raw_key_is_prefixed_iff (cursor : Type)
    (get : cursor -> LMDB.key_arg -> bool -> LMDB.MDB_cursor_op
           -> Z * cursor * LMDB.bytes * LMDB.bytes)
    (prefix : LMDB.bytes) (it : LMDB.iter cursor) :
  forall rc c' data v,
    get (LMDB.it_cursor it) LMDB.KUnset true LMDB.MDB_GET_CURRENT = (rc, c', data, v) ->
    (fst (LMDB.raw_key_is_prefixed cursor get prefix it) = true
     <-> rc = 0 /\ exists rest, data = prefix ++ x01 :: rest)
    /\ (forall value, data = LMDB.combine_strings prefix value ->
          fst (LMDB.raw_key_is_prefixed cursor get prefix it) = false).
Proof.
  intros rc c' data v Hget.
  assert (Hiff : fst (LMDB.raw_key_is_prefixed cursor get prefix it) = true
                 <-> rc = 0 /\ exists rest, data = prefix ++ x01 :: rest).
  { unfold LMDB.raw_key_is_prefixed. rewrite Hget.
    destruct (Z.eqb_spec rc 0) as [->|Hrc]; cbn [negb].
    - rewrite <- prefixed_test.
      destruct ((length prefix <? length data)%nat
                && match nth_error data (length prefix) with
                   | Some b => Byte.eqb b x01
                   | None => false
                   end); cbn [fst andb]; intuition discriminate.
    - cbn [fst]. split; [discriminate|]. intros (H & _). contradiction. }
  split; [exact Hiff|].
  intros value ->.
  destruct (fst (LMDB.raw_key_is_prefixed cursor get prefix it)) eqn:E; [|reflexivity].
  destruct (proj1 Hiff eq_refl) as (_ & rest & E'). exfalso.
  unfold LMDB.combine_strings in E'. rewrite <- app_assoc in E'. cbn [app] in E'.
  apply app_inv_head in E'. discriminate.
Qed.

(** X14.  The end of an iteration is final.  [next()] and [prev()] always
    return 0.  On an iterator that is not valid they set the flag
    [invalid]; and once the flag is set, [next()], [prev()] and [valid()]
    leave the iterator exactly as it is, without a call to the cursor, and
    [valid()] is false: after [next()] has run off the end, [prev()] does
    not step back to the last key. *)
Theorem iterator_end_is_final (cursor : Type)
    (get : cursor -> LMDB.key_arg -> bool -> LMDB.MDB_cursor_op
           -> Z * cursor * LMDB.bytes * LMDB.bytes)
    (it : LMDB.iter cursor) :
  fst (LMDB.next cursor get it) = 0 /\ fst (LMDB.prev cursor get it) = 0
  /\ (fst (LMDB.valid cursor get it) = false ->
        LMDB.invalid (snd (LMDB.next cursor get it)) = true
        /\ LMDB.invalid (snd (LMDB.prev cursor get it)) = true)
  /\ (LMDB.invalid it = true ->
        LMDB.next cursor get it = (0, it) /\ LMDB.prev cursor get it = (0, it)
        /\ LMDB.valid cursor get it = (false, it)).
Proof.
  unfold LMDB.next, LMDB.prev, LMDB.valid, LMDB.cursor_move.
  destruct it as [c inv]. cbn [LMDB.invalid LMDB.it_cursor].
  destruct inv.
  - cbn. repeat split; intros; reflexivity.
  - destruct (get c LMDB.KNull false LMDB.MDB_GET_CURRENT) as [[[rc c1] k1] v1].
    cbn [fst snd LMDB.invalid LMDB.it_cursor].
    destruct (Z.eqb_spec rc 0) as [->|Hrc].
    + destruct (get c1 LMDB.KNull false LMDB.MDB_NEXT) as [[[rn cn] kn] vn].
      destruct (get c1 LMDB.KNull false LMDB.MDB_PREV) as [[[rp cp] kp] vp].
      cbn [fst snd]. repeat split; intros; discriminate.
    + cbn. repeat split; intros; discriminate || reflexivity.
Qed.

(** X15.  [upper_bound(prefix, after)] does not step past an exact match
    stored under [combine_strings(prefix, after)].  When the cursor finds
    that key ([MDB_SET_RANGE] succeeds and the current key reads back as
    those bytes) and the two strings are not both empty, [raw_key()] never
    equals the pair, [next()] is not called, and the result is 0 with the
    iterator valid on the key itself. *)
Theorem upper_bound_keeps_exact_match (cursor : Type)
    (get : cursor -> LMDB.key_arg -> bool -> LMDB.MDB_cursor_op
           -> Z * cursor * LMDB.bytes * LMDB.bytes)
    (prefix after : LMDB.bytes) (it : LMDB.iter cursor) c1 k1 v1 c2 k2 v2 rc3 c3 v3 :
  get (LMDB.it_cursor it) (LMDB.KSet (LMDB.combine_strings prefix after)) false
      LMDB.MDB_SET_RANGE = (0, c1, k1, v1) ->
  get c1 LMDB.KNull false LMDB.MDB_GET_CURRENT = (0, c2, k2, v2) ->
  get c2 LMDB.KUnset true LMDB.MDB_GET_CURRENT
    = (rc3, c3, LMDB.combine_strings prefix after, v3) ->
  (prefix, after) <> ([], []) ->
  LMDB.upper_bound cursor get prefix after it = (0, LMDB.mkIter c3 false)
  /\ fst (LMDB.raw_key cursor get (LMDB.mkIter c2 false)) <> (prefix, after).
Proof.
  intros H1 H2 H3 Hne.
  assert (Hraw : fst (LMDB.raw_key cursor get (LMDB.mkIter c2 false)) <> (prefix, after)).
  { unfold LMDB.raw_key. cbn [LMDB.it_cursor LMDB.invalid]. rewrite H3.
    destruct (first_occurrence (LMDB.combine_strings prefix after) x01)
      as [Hc|(pre & rest & E & Hc)].
    - rewrite split_key_absent by assumption. simpl.
      intros H. apply Hne. symmetry. exact H.
    - rewrite E, split_key_first by assumption. simpl.
      intros H. injection H as -> ->. exact (combine_not_past _ _ E). }
  split; [|exact Hraw].
  unfold LMDB.upper_bound, LMDB.lower_bound, LMDB.valid, LMDB.cursor_move.
  cbn [LMDB.it_cursor LMDB.invalid]. rewrite H1. cbn [Z.eqb negb LMDB.it_cursor LMDB.invalid].
  rewrite H2. cbn [Z.eqb].
  destruct (LMDB.raw_key cursor get (LMDB.mkIter c2 false)) as [key it'] eqn:Ek.
  cbn [fst] in Hraw.
  assert (Hit : it' = LMDB.mkIter c3 false).
  { unfold LMDB.raw_key in Ek. cbn [LMDB.it_cursor LMDB.invalid] in Ek. rewrite H3 in Ek.
    destruct (LMDB.split_key (LMDB.combine_strings prefix after) (Some []) (Some []))
      as [[r p] k]. injection Ek as _ <-. reflexivity. }
  subst it'.
  destruct (bool_decide (fst key = prefix) && bool_decide (snd key = after)) eqn:Eb.
  - exfalso. apply andb_true_iff in Eb. destruct Eb as (Ea & Eb).
    apply bool_decide_eq_true in Ea, Eb. apply Hraw. destruct key. cbn in *. congruence.
  - reflexivity.
Qed.

(** X16.  What the iterator reads back of a key stored by [set]: when the
    current key is [combine_strings(prefix, k)] and neither string holds a
    byte 1, [split_key] finds no separator, so [key()] returns the empty
    string and [raw_key()] a pair of empty strings. *)
Theorem stored_key_reads_back_empty (cursor : Type)
    (get : cursor -> LMDB.key_arg -> bool -> LMDB.MDB_cursor_op
           -> Z * cursor * LMDB.bytes * LMDB.bytes)
    (prefix k : LMDB.bytes) (it : LMDB.iter cursor) rc c' v :
  get (LMDB.it_cursor it) LMDB.KUnset true LMDB.MDB_GET_CURRENT
    = (rc, c', LMDB.combine_strings prefix k, v) ->
  x01 ∉ prefix -> x01 ∉ k ->
  LMDB.key cursor get it = ([], LMDB.mkIter c' (LMDB.invalid it))
  /\ LMDB.raw_key cursor get it = (([], []), LMDB.mkIter c' (LMDB.invalid it)).
Proof.
  intros Hget Hp Hk.
  assert (Hc : x01 ∉ LMDB.combine_strings prefix k).
  { unfold LMDB.combine_strings. rewrite !not_elem_of_app.
    split; [split; [assumption|]|assumption].
    apply not_elem_of_cons. split; [discriminate|apply not_elem_of_nil]. }
  unfold LMDB.key, LMDB.raw_key. rewrite Hget.
  rewrite !split_key_absent by assumption. split; reflexivity.
Qed.

(** X17.  A bound past the last key.  When [MDB_SET_RANGE] finds no key
    at or after the bound, [lower_bound] moves the cursor to the last key
    and returns 0 if that works, yet it leaves the iterator invalid;
    [upper_bound] then does exactly what [lower_bound] does. *)
Theorem bound_miss_invalidates (cursor : Type)
    (get : cursor -> LMDB.key_arg -> bool -> LMDB.MDB_cursor_op
           -> Z * cursor * LMDB.bytes * LMDB.bytes)
    (prefix to : LMDB.bytes) (it : LMDB.iter cursor) rc1 c1 k1 v1 rc2 c2 k2 v2 :
  get (LMDB.it_cursor it) (LMDB.KSet (LMDB.combine_strings prefix to)) false
      LMDB.MDB_SET_RANGE = (rc1, c1, k1, v1) ->
  rc1 <> 0 ->
  get c1 LMDB.KNull false LMDB.MDB_LAST = (rc2, c2, k2, v2) ->
  LMDB.lower_bound cursor get prefix to it
    = (if rc2 =? 0 then 0 else 1, LMDB.mkIter c2 true)
  /\ LMDB.valid cursor get (LMDB.mkIter c2 true) = (false, LMDB.mkIter c2 true)
  /\ LMDB.upper_bound cursor get prefix to it
     = LMDB.lower_bound cursor get prefix to it.
Proof.
  intros H1 Hrc H2.
  assert (Hlb : forall inv, LMDB.lower_bound cursor get prefix to
                  (LMDB.mkIter (LMDB.it_cursor it) inv)
                = (if rc2 =? 0 then 0 else 1, LMDB.mkIter c2 true)).
  { intros inv. unfold LMDB.lower_bound, LMDB.cursor_move. cbn [LMDB.it_cursor].
    rewrite H1. rewrite (proj2 (Z.eqb_neq _ _) Hrc). cbn [negb]. rewrite H2.
    reflexivity. }
  split; [|split].
  - destruct it as [c inv]. apply Hlb.
  - reflexivity.
  - unfold LMDB.upper_bound. rewrite Hlb.
    destruct it as [c inv]. cbn [LMDB.it_cursor] in *. rewrite Hlb.
    cbn [LMDB.valid LMDB.invalid]. destruct (rc2 =? 0); reflexivity.
Qed.

Lemma raw_key_is_prefixed_iff_witness :
  (fst (LMDB.raw_key_is_prefixed unit OneKey.get [x61] OneKey.it) = true
   <-> 0 = 0 /\ exists rest, OneKey.stored = [x61] ++ x01 :: rest)
  /\ (forall value, OneKey.stored = LMDB.combine_strings [x61] value ->
        fst (LMDB.raw_key_is_prefixed unit OneKey.get [x61] OneKey.it) = false).
Proof.
  apply (raw_key_is_prefixed_iff unit OneKey.get [x61] OneKey.it 0 tt OneKey.stored [x63]).
  reflexivity.
Defined.

Lemma upper_bound_keeps_exact_match_witness :
  LMDB.upper_bound unit OneKey.get [x61] [x62] OneKey.it = (0, LMDB.mkIter tt false)
  /\ fst (LMDB.raw_key unit OneKey.get (LMDB.mkIter tt false)) <> ([x61], [x62]).
Proof.
  apply (upper_bound_keeps_exact_match unit OneKey.get [x61] [x62] OneKey.it
           tt OneKey.stored [x63] tt OneKey.stored [x63] 0 tt [x63]).
  - reflexivity.
  - reflexivity.
  - reflexivity.
  - discriminate.
Defined.

Lemma stored_key_reads_back_empty_witness :
  LMDB.key unit OneKey.get OneKey.it = ([], LMDB.mkIter tt false)
  /\ LMDB.raw_key unit OneKey.get OneKey.it = (([], []), LMDB.mkIter tt false).
Proof.
  apply (stored_key_reads_back_empty unit OneKey.get [x61] [x62] OneKey.it 0 tt [x63]).
  - reflexivity.
  - apply not_elem_of_cons. split; [discriminate|apply not_elem_of_nil].
  - apply not_elem_of_cons. split; [discriminate|apply not_elem_of_nil].
Defined.

Lemma bound_miss_invalidates_witness :
  LMDB.lower_bound unit OneKey.none [x61] [x62] OneKey.it
    = (if -1 =? 0 then 0 else 1, LMDB.mkIter tt true)
  /\ LMDB.valid unit OneKey.none (LMDB.mkIter tt true) = (false, LMDB.mkIter tt true)
  /\ LMDB.upper_bound unit OneKey.none [x61] [x62] OneKey.it
     = LMDB.lower_bound unit OneKey.none [x61] [x62] OneKey.it.
Proof.
  apply (bound_miss_invalidates unit OneKey.none [x61] [x62] OneKey.it
           (-1) tt [] [] (-1) tt [] []).
  - reflexivity.
  - discriminate.
  - reflexivity.
Defined.
